(** * ARES runtime and HLIR lowering: a shallow embedding

    The development follows the two halves of the repository:

    - [runtime/CVSemaphore.h] and [runtime/runtime.cpp]: the semaphore, the
      C-ABI facade for parallel loops and tasks, the message framing, the
      communicator's barrier and the dispatcher's two queues (modules
      [CInt], [CVSemaphore], [Runtime], [Tasks], [Messages], [Dispatcher]);
    - the constructs and lowering passes of [hlir/src/HLIR.cpp] over a small
      model of the SSA IR they build and rewrite (modules [IR], [Builder],
      [HLIR], [Pass], [TaskWrapper]), with an interpreter for the lowered
      code ([Exec], [Loop]) and sample programs ([Samples]).

    Each critical section of the semaphore (the code between
    [pthread_mutex_lock] and the next unlock or wait) is one atomic step; a
    run of a multi-threaded program is a list of such steps. *)

From Stdlib Require Import String ZArith Arith List Bool Lia.
Import ListNotations.
Open Scope Z_scope.

(* ===================================================================== *)
(** * C integers *)
(* ===================================================================== *)

Module CInt.

Definition INT_MIN : Z := - 2 ^ 31.
Definition INT_MAX : Z := 2 ^ 31 - 1.

(** [int] is a 32-bit two's complement integer; conversion to it and
    arithmetic on it wrap around. *)
Definition to_int (z : Z) : Z := (z + 2 ^ 31) mod 2 ^ 32 - 2 ^ 31.

(** [uint32_t]. *)
Definition to_uint32 (z : Z) : Z := z mod 2 ^ 32.

Definition is_int (z : Z) : Prop := INT_MIN <= z <= INT_MAX.

End CInt.

(* ===================================================================== *)
(** * runtime/CVSemaphore.h *)
(* ===================================================================== *)

Module CVSemaphore.
Import CInt.

(** The two [int] members of the class.  [mutex_] is modelled by the
    atomicity of the steps below; [condition_] is abstracted to the number
    of [pthread_cond_signal] calls issued on it so far. *)
Record sem : Type := mkSem {
  count_ : Z;
  maxCount_ : Z;
  condition_ : nat
}.

(** [CVSemaphore(int count = 0)] *)
Definition make (count : Z) : sem :=
  {| count_ := count; maxCount_ := 0; condition_ := 0 |}.

(** [CVSemaphore(int count, int maxCount)] *)
Definition make_capped (count maxCount : Z) : sem :=
  {| count_ := count; maxCount_ := maxCount; condition_ := 0 |}.

(** [--count_] *)
Definition decr (s : sem) : sem :=
  {| count_ := to_int (count_ s - 1);
     maxCount_ := maxCount_ s;
     condition_ := condition_ s |}.

(** [++count_] *)
Definition incr (s : sem) : sem :=
  {| count_ := to_int (count_ s + 1);
     maxCount_ := maxCount_ s;
     condition_ := condition_ s |}.

(** [pthread_cond_signal(&condition_)] *)
Definition signal (s : sem) : sem :=
  {| count_ := count_ s;
     maxCount_ := maxCount_ s;
     condition_ := S (condition_ s) |}.

(** [bool tryAcquire()] *)
Definition tryAcquire (s : sem) : bool * sem :=
  if 0 <? count_ s then (true, decr s) else (false, s).

(** [void release()] *)
Definition release (s : sem) : sem :=
  signal (if (maxCount_ s =? 0) || (count_ s <? maxCount_ s)
          then incr s else s).

(** What a thread does in one critical section. *)
Inductive outcome : Type :=
| Waits                (* entered pthread_cond_(timed)wait *)
| Returned (b : bool)  (* left the member function with result [b] *)
| Finished.            (* left a [void] member function *)

(** One evaluation of [while(count_ <= 0)] in [acquire()] or
    [acquire(double)], with the mutex held: on entry, or after the wait
    came back with 0. *)
Definition acquire_test (s : sem) : sem * outcome :=
  if count_ s <=? 0 then (s, Waits) else (decr s, Returned true).

(** The critical sections other threads may run on the same semaphore. *)
Inductive event : Type :=
| EvRelease      (* a call of release() *)
| EvTryAcquire   (* a call of tryAcquire() *)
| EvAcquire      (* a thread in acquire()/acquire(double) tests the loop *)
| EvTimeout.     (* pthread_cond_timedwait came back nonzero *)

Definition event_eq_dec (a b : event) : {a = b} + {a <> b}.
Proof. decide equality. Defined.

Definition step (s : sem) (e : event) : sem * outcome :=
  match e with
  | EvRelease => (release s, Finished)
  | EvTryAcquire => let (b, s') := tryAcquire s in (s', Returned b)
  | EvAcquire => acquire_test s
  | EvTimeout => (s, Returned false)
  end.

Fixpoint run (s : sem) (evs : list event) : sem * list outcome :=
  match evs with
  | [] => (s, [])
  | e :: evs' =>
      let (s1, o) := step s e in
      let (s2, os) := run s1 evs' in
      (s2, o :: os)
  end.

(** [bool acquire()], seen from the calling thread.  [env] lists, for each
    [pthread_cond_wait] the caller goes through, what the other threads did
    to the semaphore while the caller slept; when [env] is exhausted the
    caller is still asleep ([None]). *)
Fixpoint acquire (env : list (list event)) (s : sem) : option (bool * sem) :=
  if count_ s <=? 0 then
    match env with
    | [] => None
    | others :: env' => acquire env' (fst (run s others))
    end
  else Some (true, decr s).

(** [bool acquire(double dt)].  The deadline arithmetic on [double] only
    decides when [pthread_cond_timedwait] gives up; each wait is given here
    with its return code [rc] ([0]: woken up, nonzero: [ETIMEDOUT] or
    another error). *)
Fixpoint acquire_dt (env : list (list event * Z)) (s : sem)
  : option (bool * sem) :=
  if count_ s <=? 0 then
    match env with
    | [] => None
    | (others, rc) :: env' =>
        let s' := fst (run s others) in
        if rc =? 0 then acquire_dt env' s' else Some (false, s')
    end
  else Some (true, decr s).

(** What the other threads did during the waits [pre] of [acquire_dt], and
    the waits that came back with 0. *)
Definition interference (pre : list (list event * Z)) : list event :=
  concat (map fst pre).

Definition woken (w : list event * Z) : Prop := snd w = 0.

(** The caller of [acquire_dt] goes through every wait of [pre]: each time
    it tests the loop it finds [count_ <= 0], sleeps while the other threads
    run, and the wait comes back with 0. *)
Fixpoint waits_through (s : sem) (pre : list (list event * Z)) : Prop :=
  match pre with
  | [] => True
  | (others, rc) :: pre' =>
      count_ s <= 0 /\ rc = 0 /\ waits_through (fst (run s others)) pre'
  end.

(** Bookkeeping on runs. *)
Definition releases (evs : list event) : nat :=
  count_occ event_eq_dec evs EvRelease.

Definition is_success (o : outcome) : bool :=
  match o with Returned true => true | _ => false end.

Definition successes (os : list outcome) : nat :=
  length (filter is_success os).

Definition release_or_acquire (e : event) : Prop :=
  e = EvRelease \/ e = EvAcquire.

(** The invariant of a capped semaphore. *)
Definition within_cap (s : sem) : Prop :=
  0 < maxCount_ s /\ is_int (maxCount_ s) /\ 0 <= count_ s <= maxCount_ s.

End CVSemaphore.

(* ===================================================================== *)
(** * The SSA IR the lowering passes rewrite *)
(* ===================================================================== *)

(** The IR library itself is an external collaborator; what follows is the
    part of its data model that [hlir/src/HLIR.cpp] reads and writes:
    modules of functions of basic blocks of instructions, every object known
    by its address. *)
Module IR.

(** The address of an [llvm::Value], [BasicBlock] or [Function]. *)
Definition ident := nat.

#[local] Unset Elimination Schemes.
Inductive Ty : Type :=
| VoidTy
| I32Ty
| I64Ty
| VoidPtrTy
| PtrTy (t : Ty)
| StructTy (name : string) (fields : list Ty)
| OtherTy (n : nat).
#[local] Set Elimination Schemes.

Inductive Value : Type :=
| VInst (i : ident)                 (* the result of an instruction *)
| VConstInt (bits : nat) (z : Z)    (* ConstantInt *)
| VFunc (f : ident)                 (* a function defined in the module *)
| VDecl (name : string)             (* a function got by getFunction(name, ...) *)
| VArg (f : ident) (k : nat)        (* k-th formal argument of f *)
| VBlock (b : ident)                (* a basic block, as branch target *)
| VOther (n : nat).                 (* globals, other constants *)

Definition Value_eq_dec (a b : Value) : {a = b} + {a <> b}.
Proof.
  decide equality;
    auto using Nat.eq_dec, Z.eq_dec, string_dec.
Defined.

Definition Value_eqb (a b : Value) : bool :=
  if Value_eq_dec a b then true else false.

Inductive Opcode : Type :=
| OpAlloca (t : Ty)
| OpLoad
| OpStore               (* operands: value, pointer *)
| OpBitCast
| OpStructGEP (idx : nat)
| OpSub
| OpAdd
| OpICmpULT
| OpCall                (* operands: arguments, then the callee *)
| OpBr                  (* operand: target *)
| OpCondBr              (* operands: condition, then-target, else-target *)
| OpRet
| OpNoOp                (* placeholder made by createNoOp *)
| OpMarker              (* the emitter's marker for a construct *)
| OpOther (n : nat).

Record Instruction : Type := mkInst {
  iid : ident;
  iname : string;
  opcode : Opcode;
  operands : list Value;
  ity : Ty
}.

Record BasicBlock : Type := mkBlock {
  bid : ident;
  bname : string;
  insts : list Instruction
}.

Record Function : Type := mkFunc {
  fid : ident;
  fname : string;
  blocks : list BasicBlock
}.

Definition Mod := list Function.

Definition all_insts (f : Function) : list Instruction :=
  flat_map insts (blocks f).

Definition mod_insts (m : Mod) : list Instruction :=
  flat_map all_insts m.

Definition has_inst (i : ident) (l : list Instruction) : bool :=
  existsb (fun x => iid x =? i)%nat l.

(** [Module::getFunction] by address. *)
Definition getFunc (m : Mod) (f : ident) : option Function :=
  find (fun g => fid g =? f)%nat m.

(** The instruction at address [i]. *)
Definition getInst (m : Mod) (i : ident) : option Instruction :=
  find (fun x => iid x =? i)%nat (mod_insts m).

(** [i->getParent()->getParent()] *)
Definition parentFunction (m : Mod) (i : ident) : option ident :=
  option_map fid (find (fun g => has_inst i (all_insts g)) m).

(** [i->getParent()] *)
Definition parentBlock (m : Mod) (i : ident) : option (ident * ident) :=
  match find (fun g => has_inst i (all_insts g)) m with
  | Some g =>
      option_map (fun b => (fid g, bid b))
                 (find (fun b => has_inst i (insts b)) (blocks g))
  | None => None
  end.

Definition map_blocks (h : BasicBlock -> BasicBlock) (m : Mod) : Mod :=
  map (fun g => mkFunc (fid g) (fname g) (map h (blocks g))) m.

Definition map_insts (h : list Instruction -> list Instruction) (m : Mod)
  : Mod :=
  map_blocks (fun b => mkBlock (bid b) (bname b) (h (insts b))) m.

Definition remove_inst (i : ident) (l : list Instruction)
  : list Instruction :=
  filter (fun x => negb (iid x =? i)%nat) l.

(** [i->removeFromParent()]: unlink [i] from its basic block. *)
Definition removeFromParent (i : ident) (m : Mod) : Mod :=
  map_insts (remove_inst i) m.

(** [i->eraseFromParent()]: unlink and delete. *)
Definition eraseFromParent (i : ident) (m : Mod) : Mod :=
  map_insts (remove_inst i) m.

Fixpoint insert_before (i : ident) (new : list Instruction)
    (l : list Instruction) : list Instruction :=
  match l with
  | [] => []
  | x :: l' =>
      if (iid x =? i)%nat then new ++ x :: l'
      else x :: insert_before i new l'
  end.

(** Put [new] immediately before instruction [i], where an [IRBuilder]
    whose insert point is [i] puts what it creates. *)
Definition insertBefore (i : ident) (new : list Instruction) (m : Mod)
  : Mod :=
  map_insts (insert_before i new) m.

(** Put [new] at the end of block [b]. *)
Definition insertAtEnd (b : ident) (new : list Instruction) (m : Mod)
  : Mod :=
  map_blocks (fun x => if (bid x =? b)%nat
                       then mkBlock (bid x) (bname x) (insts x ++ new)
                       else x) m.

(** [BasicBlock::Create(c, name, f)]: a new empty block at the end of [f]. *)
Definition addBlock (f : ident) (b : BasicBlock) (m : Mod) : Mod :=
  map (fun g => if (fid g =? f)%nat
                then mkFunc (fid g) (fname g) (blocks g ++ [b])
                else g) m.

Definition replace_operand (old new : Value) (x : Instruction)
  : Instruction :=
  mkInst (iid x) (iname x) (opcode x)
         (map (fun v => if Value_eqb v old then new else v) (operands x))
         (ity x).

(** [old->replaceAllUsesWith(new)] *)
Definition replaceAllUsesWith (old new : Value) (m : Mod) : Mod :=
  map_insts (map (replace_operand old new)) m.

(** [user->replaceUsesOfWith(old, new)] for every user inside function [f]. *)
Definition replaceUsesIn (f : ident) (old new : Value) (m : Mod) : Mod :=
  map (fun g => if (fid g =? f)%nat
                then mkFunc (fid g) (fname g)
                       (map (fun b => mkBlock (bid b) (bname b)
                               (map (replace_operand old new) (insts b)))
                            (blocks g))
                else g) m.

Fixpoint split_at (i : ident) (l : list Instruction)
  : list Instruction * list Instruction :=
  match l with
  | [] => ([], [])
  | x :: l' =>
      if (iid x =? i)%nat then ([], x :: l')
      else let (a, b) := split_at i l' in (x :: a, b)
  end.

Fixpoint split_blocks (b i : ident) (nb : ident) (nname : string)
    (br : Instruction) (bs : list BasicBlock) : list BasicBlock :=
  match bs with
  | [] => []
  | x :: bs' =>
      if (bid x =? b)%nat then
        let (a, rest) := split_at i (insts x) in
        mkBlock (bid x) (bname x) (a ++ [br])
          :: mkBlock nb nname rest :: bs'
      else x :: split_blocks b i nb nname br bs'
  end.

(** [b->splitBasicBlock(i, name)]: the instructions of [b] from [i] on move
    to a new block [nb], placed right after [b]; [b] gets the branch [br]
    to the new block as terminator. *)
Definition splitBasicBlock (b i : ident) (nb : ident) (nname : string)
    (br : Instruction) (m : Mod) : Mod :=
  map (fun g => mkFunc (fid g) (fname g)
                  (split_blocks b i nb nname br (blocks g))) m.

Definition is_terminator (x : Instruction) : bool :=
  match opcode x with
  | OpBr | OpCondBr | OpRet => true
  | _ => false
  end.

(** [b->getTerminator()] *)
Definition getTerminator (m : Mod) (b : ident) : option Instruction :=
  match find (fun x => bid x =? b)%nat (flat_map blocks m) with
  | Some x =>
      match last (map Some (insts x)) None with
      | Some t => if is_terminator t then Some t else None
      | None => None
      end
  | None => None
  end.

(** Position of an instruction in a list. *)
Fixpoint index_of (i : ident) (l : list Instruction) : option nat :=
  match l with
  | [] => None
  | x :: l' =>
      if (iid x =? i)%nat then Some 0%nat
      else option_map S (index_of i l')
  end.

End IR.

(* ===================================================================== *)
(** * The IR builder *)
(* ===================================================================== *)

(** [IRBuilder<>] threaded through the passes: the module under
    construction, the next free address and the insert point.  A pass that
    trips an assertion or dereferences a missing object yields [None]. *)
Module Builder.
Import IR.

Inductive InsertPoint : Type :=
| AtEnd (b : ident)     (* SetInsertPoint(BasicBlock* ) *)
| Before (i : ident).   (* SetInsertPoint(Instruction* ) *)

Record state : Type := mkState {
  module_ : Mod;
  nextAddr : ident;
  point : option InsertPoint
}.

Definition M (A : Type) : Type := state -> option (A * state).

Definition ret {A : Type} (a : A) : M A := fun st => Some (a, st).

Definition bind {A B : Type} (c : M A) (k : A -> M B) : M B :=
  fun st => match c st with
            | Some (a, st') => k a st'
            | None => None
            end.

Definition fail {A : Type} : M A := fun _ => None.

Declare Scope builder_scope.
Delimit Scope builder_scope with builder.
Notation "x <- c ;; k" := (bind c (fun x => k))
  (at level 61, c at next level, right associativity) : builder_scope.
Notation "c ;;; k" := (bind c (fun _ => k))
  (at level 61, right associativity) : builder_scope.
Open Scope builder_scope.

Definition getModule : M Mod := fun st => Some (module_ st, st).

Definition modify (h : Mod -> Mod) : M unit :=
  fun st => Some (tt, mkState (h (module_ st)) (nextAddr st) (point st)).

Definition new_addr : M ident :=
  fun st => Some (nextAddr st,
                  mkState (module_ st) (S (nextAddr st)) (point st)).

Definition SetInsertPoint (p : InsertPoint) : M unit :=
  fun st => Some (tt, mkState (module_ st) (nextAddr st) (Some p)).

Definition expect {A : Type} (o : option A) : M A :=
  match o with Some a => ret a | None => fail end.

(** [Insert(I)]: at the insert point. *)
Definition Insert (x : Instruction) : M unit :=
  fun st =>
    match point st with
    | Some (AtEnd b) =>
        Some (tt, mkState (insertAtEnd b [x] (module_ st))
                          (nextAddr st) (point st))
    | Some (Before i) =>
        Some (tt, mkState (insertBefore i [x] (module_ st))
                          (nextAddr st) (point st))
    | None => None
    end.

Definition Create (op : Opcode) (ops : list Value) (t : Ty) (name : string)
  : M Value :=
  i <- new_addr ;;
  Insert (mkInst i name op ops t) ;;;
  ret (VInst i).

(** [v->getType()] *)
Definition typeOf (m : Mod) (v : Value) : Ty :=
  match v with
  | VInst i => match getInst m i with Some x => ity x | None => VoidTy end
  | VConstInt 32 _ => I32Ty
  | VConstInt 64 _ => I64Ty
  | VConstInt _ _ => OtherTy 0
  | VArg _ _ => VoidPtrTy
  | _ => OtherTy 0
  end.

Definition pointee (t : Ty) : Ty :=
  match t with PtrTy u => u | _ => OtherTy 0 end.

Definition field_type (t : Ty) (idx : nat) : Ty :=
  match t with
  | PtrTy (StructTy _ fields) => nth idx fields (OtherTy 0)
  | _ => OtherTy 0
  end.

Definition CreateBitCast (v : Value) (t : Ty) (name : string) : M Value :=
  Create OpBitCast [v] t name.

Definition CreateStructGEP (p : Value) (idx : nat) (name : string)
  : M Value :=
  m <- getModule ;;
  Create (OpStructGEP idx) [p] (PtrTy (field_type (typeOf m p) idx)) name.

Definition CreateLoad (p : Value) (name : string) : M Value :=
  m <- getModule ;;
  Create OpLoad [p] (pointee (typeOf m p)) name.

Definition CreateStore (v p : Value) : M Value :=
  Create OpStore [v; p] VoidTy "".

Definition CreateAlloca (t : Ty) (name : string) : M Value :=
  Create (OpAlloca t) [] (PtrTy t) name.

Definition CreateCall (callee : Value) (args : list Value) (t : Ty)
    (name : string) : M Value :=
  Create OpCall (args ++ [callee]) t name.

Definition CreateSub (a b : Value) (name : string) : M Value :=
  Create OpSub [a; b] I32Ty name.

Definition CreateAdd (a b : Value) : M Value :=
  Create OpAdd [a; b] I32Ty "".

Definition CreateICmpULT (a b : Value) : M Value :=
  Create OpICmpULT [a; b] (OtherTy 1) "".

Definition CreateBr (dest : ident) : M Value :=
  Create OpBr [VBlock dest] VoidTy "".

Definition CreateCondBr (c : Value) (t e : ident) : M Value :=
  Create OpCondBr [c; VBlock t; VBlock e] VoidTy "".

(** [ReturnInst::Create(c, b)]: a [ret] appended to block [b], whatever the
    insert point. *)
Definition ReturnInst_Create (rv : list Value) (b : ident) : M ident :=
  i <- new_addr ;;
  modify (insertAtEnd b [mkInst i "" OpRet rv VoidTy]) ;;;
  ret i.

(** [Function::Create(type, linkage, name, module)] *)
Definition Function_Create (name : string) : M ident :=
  f <- new_addr ;;
  modify (fun m => m ++ [mkFunc f name []]) ;;;
  ret f.

(** [BasicBlock::Create(c, name, f)] *)
Definition BasicBlock_Create (name : string) (f : ident) : M ident :=
  b <- new_addr ;;
  modify (addBlock f (mkBlock b name [])) ;;;
  ret b.

(** Modelled from the spec: [HLIRModule::createNoOp] is declared in
    [hlir/HLIR.h], which is not among the sources.  The spec has the
    construct "reserve" the [argsInsertion] point "inside the body before
    capture unpacking": a placeholder instruction without effect, put at
    the builder's insert point. *)
Definition createNoOp : M ident :=
  i <- new_addr ;;
  Insert (mkInst i "" OpNoOp [] VoidTy) ;;;
  ret i.

Fixpoint forEach {A : Type} (l : list A) (body : A -> M unit) : M unit :=
  match l with
  | [] => ret tt
  | a :: l' => body a ;;; forEach l' body
  end.

(** Run a pass on a module whose addresses are all below [next]. *)
Definition runOn {A : Type} (c : M A) (m : Mod) (next : ident)
  : option (A * Mod) :=
  match c (mkState m next None) with
  | Some (a, st) => Some (a, module_ st)
  | None => None
  end.

End Builder.

(* ===================================================================== *)
(** * hlir/src/HLIR.cpp *)
(* ===================================================================== *)

Module HLIR.
Import IR Builder.

(** The attributes of a parallel-for construct.  The constructor sets
    [body], [index], [insertion], [args] and [argsInsertion]; the emitter
    adds [marker] and [range] before lowering. *)
Record HLIRParallelFor : Type := mkPFor {
  pf_body : ident;
  pf_index : Value;
  pf_insertion : ident;
  pf_args : Value;
  pf_argsInsertion : ident;
  pf_marker : option ident;
  pf_range : option (Z * Z)
}.

Record HLIRParallelReduce : Type := mkReduce {
  pr_body : ident;
  pr_entry : ident;
  pr_index : Value;
  pr_insertion : ident;
  pr_args : Value;
  pr_argsInsertion : ident;
  pr_reduceVar : Value;
  pr_reduceType : Ty;
  pr_marker : option ident
}.

Record HLIRTask : Type := mkTask {
  task_function : ident;
  task_returnType : Ty;
  task_paramTypes : list Ty;
  task_wrapperFunction : ident
}.

(** Who holds a use of a value: an instruction, or a constant expression. *)
Inductive User : Type :=
| UInst (i : ident)
| UConst.

(** [toInt32]: the i32 constant of an [HLIRInteger]. *)
Definition toInt32 (z : Z) : Value := VConstInt 32 (CInt.to_uint32 z).

(** [findExternalValues(f, v)]: the loops over blocks, instructions and
    operands, pushing every operand that is an instruction of another
    function. *)
Definition findExternalValues (m : Mod) (f : Function) (v : list ident)
  : list ident :=
  fold_left (fun v bi =>
    fold_left (fun v ii =>
      fold_left (fun v vi =>
        match vi with
        | VInst ij =>
            match parentFunction m ij with
            | Some g => if (g =? fid f)%nat then v else v ++ [ij]
            | None => v ++ [ij]
            end
        | _ => v
        end) (operands ii) v) (insts bi) v) (blocks f) v.

(** The operand [vi] seen from function [f]: the instruction behind it if it
    lives in another function. *)
Definition external (m : Mod) (f : Function) (vi : Value) : list ident :=
  match vi with
  | VInst ij =>
      match parentFunction m ij with
      | Some g => if (g =? fid f)%nat then [] else [ij]
      | None => [ij]
      end
  | _ => []
  end.

(** Every operand occurrence of the body that is external, in the order
    blocks, instructions and operands come. *)
Definition externalOperands (m : Mod) (f : Function) : list ident :=
  flat_map (fun bi =>
    flat_map (fun ii => flat_map (external m f) (operands ii)) (insts bi))
    (blocks f).

(** The field types of the captured-args struct: one [push_back] per
    element of [v]. *)
Definition captureFields (m : Mod) (v : list ident) : list Ty :=
  map (fun vi => typeOf m (VInst vi)) v.

Definition indexed {A : Type} (l : list A) : list (nat * A) :=
  combine (seq 0 (length l)) l.

Definition inst_name (m : Mod) (i : ident) : string :=
  match getInst m i with Some x => iname x | None => "" end.

Definition doSplit (block marker : ident) (name : string) : M ident :=
  nb <- new_addr ;;
  br <- new_addr ;;
  modify (splitBasicBlock block marker nb name
            (mkInst br "" OpBr [VBlock nb] VoidTy)) ;;;
  ret nb.

(** [HLIRModule::lowerParallelFor_] *)
Definition lowerParallelFor_ (pf : HLIRParallelFor) : M unit :=
  marker <- expect (pf_marker pf) ;;
  m <- getModule ;;
  fb <- expect (parentBlock m marker) ;;
  let func := fst fb in
  let block := snd fb in
  let one := VConstInt 32 1 in
  body <- expect (getFunc m (pf_body pf)) ;;
  let v := findExternalValues m body [] in
  let fields := captureFields m v in
  let argsType := StructTy "struct.func_args" fields in
  SetInsertPoint (Before (pf_argsInsertion pf)) ;;;
  argsStructPtr <- CreateBitCast (pf_args pf) (PtrTy argsType) "" ;;
  forEach (indexed v) (fun iv =>
    gi <- CreateStructGEP argsStructPtr (fst iv) "" ;;
    ri <- CreateLoad gi (inst_name m (snd iv)) ;;
    modify (replaceUsesIn (pf_body pf) (VInst (snd iv)) ri)) ;;;
  SetInsertPoint (Before marker) ;;;
  argsPtr <- CreateAlloca argsType "" ;;
  forEach (indexed v) (fun iv =>
    pi <- CreateStructGEP argsPtr (fst iv) "" ;;
    CreateStore (VInst (snd iv)) pi ;;;
    ret tt) ;;;
  let createSynchFunc := VDecl "__ares_create_synch" in
  let queueFunc := VDecl "__ares_queue_func" in
  let awaitFunc := VDecl "__ares_await_synch" in
  r <- expect (pf_range pf) ;;
  let start := toInt32 (fst r) in
  let end_ := toInt32 (snd r) in
  n <- CreateSub end_ start "n" ;;
  synchPtr <- CreateCall createSynchFunc [n] VoidPtrTy "synch.ptr" ;;
  indexPtr <- CreateAlloca I32Ty "index.ptr" ;;
  CreateStore start indexPtr ;;;
  loopBlock <- BasicBlock_Create "pfor.queue.loop" func ;;
  CreateBr loopBlock ;;;
  SetInsertPoint (AtEnd loopBlock) ;;;
  let bodyFunc := VFunc (pf_body pf) in
  index <- CreateLoad indexPtr "" ;;
  argsVoid <- CreateBitCast argsPtr VoidPtrTy "" ;;
  bodyVoid <- CreateBitCast bodyFunc VoidPtrTy "" ;;
  CreateCall queueFunc [synchPtr; argsVoid; bodyVoid; index; one]
             VoidTy "" ;;;
  nextIndex <- CreateAdd index one ;;
  CreateStore nextIndex indexPtr ;;;
  cond <- CreateICmpULT nextIndex end_ ;;
  exitBlock <- BasicBlock_Create "pfor.queue.exit" func ;;
  CreateCondBr cond loopBlock exitBlock ;;;
  blockAfter <- doSplit block marker "pfor.merge" ;;
  m' <- getModule ;;
  t <- expect (getTerminator m' block) ;;
  modify (removeFromParent (iid t)) ;;;
  modify (removeFromParent marker) ;;;
  SetInsertPoint (AtEnd exitBlock) ;;;
  CreateCall awaitFunc [synchPtr] VoidTy "" ;;;
  CreateBr blockAfter ;;;
  ret tt.

(** [HLIRModule::lowerParallelReduce_] *)
Definition lowerParallelReduce_ (r : HLIRParallelReduce) : M unit :=
  marker <- expect (pr_marker r) ;;
  modify (removeFromParent marker).

Section Task.

(** [DataLayout::getTypeAllocSize], and the use lists the IR library
    keeps for every value, in the order [use_begin() .. use_end()]
    walks them. *)
Variable getTypeAllocSize : Ty -> Z.
Variable useList : Value -> list User.

(** [ci->arg_operands()]: the operands but the callee. *)
Definition arg_operands (ci : Instruction) : list Value :=
  removelast (operands ci).

(** The inner loop of [lowerTask_] over the uses of [ci]: at the first
    user that is an instruction, await the future, load the return slot,
    replace all uses, [break]. *)
Fixpoint awaitAtFirstUse (ci : ident) (argsVoidPtr argsPtr : Value)
    (us : list User) : M unit :=
  match us with
  | [] => ret tt
  | UInst i :: _ =>
      SetInsertPoint (Before i) ;;;
      let awaitFunc := VDecl "__ares_task_await_future" in
      CreateCall awaitFunc [argsVoidPtr] VoidTy "" ;;;
      retPtr <- CreateStructGEP argsPtr 2 "retPtr" ;;
      retVal <- CreateLoad retPtr "retVal" ;;
      modify (replaceAllUsesWith (VInst ci) retVal)
  | UConst :: us' => awaitAtFirstUse ci argsVoidPtr argsPtr us'
  end.

(** The body of the outer loop of [lowerTask_] for one call [ci]. *)
Definition lowerTaskCall (task : HLIRTask) (ci : Instruction) : M unit :=
  SetInsertPoint (Before (iid ci)) ;;;
  let fields := [VoidPtrTy; I32Ty; task_returnType task]
                  ++ task_paramTypes task in
  let argsType := StructTy "struct.func_args" fields in
  let size := getTypeAllocSize argsType in
  let allocFunc := VDecl "__ares_alloc" in
  argsVoidPtr <- CreateCall allocFunc [VConstInt 64 size] VoidPtrTy
                            "args.void.ptr" ;;
  argsPtr <- CreateBitCast argsVoidPtr (PtrTy argsType) "args.ptr" ;;
  depth <- CreateStructGEP argsPtr 1 "depth.ptr" ;;
  depth <- CreateLoad depth "depth" ;;
  forEach (combine (seq 3 (length (arg_operands ci))) (arg_operands ci))
    (fun ia =>
       argPtr <- CreateStructGEP argsPtr (fst ia) "arg.ptr" ;;
       CreateStore (snd ia) argPtr ;;;
       ret tt) ;;;
  let queueFunc := VDecl "__ares_task_queue" in
  funcVoidPtr <- CreateBitCast (VFunc (task_wrapperFunction task))
                               VoidPtrTy "funcVoidPtr" ;;
  CreateCall queueFunc [funcVoidPtr; argsVoidPtr] VoidTy "" ;;;
  awaitAtFirstUse (iid ci) argsVoidPtr argsPtr (useList (VInst (iid ci))) ;;;
  modify (eraseFromParent (iid ci)).

(** [HLIRModule::lowerTask_]: every user of the task function that is a
    call outside the wrapper. *)
Definition lowerTask_ (task : HLIRTask) : M unit :=
  forEach (useList (VFunc (task_function task))) (fun u =>
    match u with
    | UInst i =>
        m <- getModule ;;
        match getInst m i with
        | Some ci =>
            match opcode ci with
            | OpCall =>
                parentFunc <- expect (parentFunction m i) ;;
                if (parentFunc =? task_wrapperFunction task)%nat
                then ret tt
                else lowerTaskCall task ci
            | _ => ret tt
            end
        | None => fail
        end
    | UConst => ret tt
    end).

End Task.

(** [HLIRParallelFor::HLIRParallelFor] *)
Definition HLIRParallelFor_new : M HLIRParallelFor :=
  func <- Function_Create "hlir.parallel_for.body" ;;
  let finishFunc := VDecl "__ares_finish_func" in
  let argsVoidPtr := VArg func 0 in
  entry <- BasicBlock_Create "entry" func ;;
  SetInsertPoint (AtEnd entry) ;;;
  let argsType :=
    StructTy "struct.func_args" [VoidPtrTy; I32Ty; VoidPtrTy] in
  argsPtr <- CreateBitCast argsVoidPtr (PtrTy argsType) "args.ptr" ;;
  synchPtr <- CreateStructGEP argsPtr 0 "" ;;
  synchPtr <- CreateLoad synchPtr "synch.ptr" ;;
  indexPtr <- CreateStructGEP argsPtr 1 "index.ptr" ;;
  funcArgsPtr <- CreateStructGEP argsPtr 2 "funcArgs.ptr" ;;
  funcArgsPtr <- CreateLoad funcArgsPtr "" ;;
  placeholder <- createNoOp ;;
  synchVoidPtr <- CreateBitCast synchPtr VoidPtrTy "" ;;
  CreateCall finishFunc [argsVoidPtr] VoidTy "" ;;;
  insertion <- ReturnInst_Create [] entry ;;
  ret {| pf_body := func;
         pf_index := indexPtr;
         pf_insertion := insertion;
         pf_args := funcArgsPtr;
         pf_argsInsertion := placeholder;
         pf_marker := None;
         pf_range := None |}.

(** [HLIRParallelReduce::HLIRParallelReduce] *)
Definition HLIRParallelReduce_new (reduceType : Ty)
  : M HLIRParallelReduce :=
  func <- Function_Create "hlir.parallel_reduce.body" ;;
  let finishFunc := VDecl "__ares_finish_func" in
  let argsVoidPtr := VArg func 0 in
  entry <- BasicBlock_Create "entry" func ;;
  SetInsertPoint (AtEnd entry) ;;;
  reduceVar <- new_addr ;;
  Insert (mkInst reduceVar "" (OpAlloca reduceType) [] (PtrTy reduceType)) ;;;
  let argsType :=
    StructTy "struct.func_args" [VoidPtrTy; I32Ty; VoidPtrTy] in
  argsPtr <- CreateBitCast argsVoidPtr (PtrTy argsType) "args.ptr" ;;
  synchPtr <- CreateStructGEP argsPtr 0 "" ;;
  synchPtr <- CreateLoad synchPtr "synch.ptr" ;;
  indexPtr <- CreateStructGEP argsPtr 1 "index.ptr" ;;
  funcArgsPtr <- CreateStructGEP argsPtr 2 "funcArgs.ptr" ;;
  funcArgsPtr <- CreateLoad funcArgsPtr "" ;;
  placeholder <- createNoOp ;;
  synchVoidPtr <- CreateBitCast synchPtr VoidPtrTy "" ;;
  CreateCall finishFunc [argsVoidPtr] VoidTy "" ;;;
  retVal <- new_addr ;;
  Insert (mkInst retVal "" OpLoad [VInst reduceVar] reduceType) ;;;
  rt <- ReturnInst_Create [VInst retVal] entry ;;
  ret {| pr_body := func;
         pr_entry := reduceVar;
         pr_index := indexPtr;
         pr_insertion := retVal;
         pr_args := funcArgsPtr;
         pr_argsInsertion := placeholder;
         pr_reduceVar := VInst reduceVar;
         pr_reduceType := reduceType;
         pr_marker := None |}.

(** What the emitter does with the [insertion] attribute: it points an
    [IRBuilder] at that instruction and creates the user's body code, which
    lands immediately before it. *)
Definition emitBody (insertion : ident) (user : list Instruction)
  : M unit :=
  modify (insertBefore insertion user).

End HLIR.

(* ===================================================================== *)
(** * hlir/src/HLIR.cpp: the pass over all constructs *)
(* ===================================================================== *)

Module Pass.
Import IR Builder HLIR.

(** The three kinds of [HLIRConstruct] the pass tells apart by
    [dynamic_cast]. *)
Inductive HLIRConstruct : Type :=
| CParallelFor (pf : HLIRParallelFor)
| CParallelReduce (r : HLIRParallelReduce)
| CTask (t : HLIRTask).

(** [HLIRModule::lowerToIR_]: the constructs in the order they were created;
    the [assert(false)] branch has no construct left to reach it. *)
Definition lowerToIR_ (getTypeAllocSize : Ty -> Z)
    (useList : Value -> list User) (constructs_ : list HLIRConstruct)
  : M bool :=
  forEach constructs_ (fun c =>
    match c with
    | CParallelFor pfor => lowerParallelFor_ pfor
    | CParallelReduce r => lowerParallelReduce_ r
    | CTask task => lowerTask_ getTypeAllocSize useList task
    end) ;;;
  ret true.

(** The markers of a list of parallel-reduce constructs. *)
Definition reduce_marker (c : HLIRConstruct) : option ident :=
  match c with
  | CParallelReduce r => pr_marker r
  | _ => None
  end.

(** A user of the task function that [lowerTask_] passes over: a constant,
    an instruction that is not a call, or a call inside the wrapper. *)
Definition passed_over (m : Mod) (task : HLIRTask) (u : User) : Prop :=
  match u with
  | UConst => True
  | UInst i =>
      exists ci, getInst m i = Some ci /\
                 (opcode ci <> OpCall \/
                  (opcode ci = OpCall /\
                   parentFunction m i = Some (task_wrapperFunction task)))
  end.

End Pass.

(* ===================================================================== *)
(** * runtime/runtime.cpp: the C-ABI facade *)
(* ===================================================================== *)

Module Runtime.
Import CInt.

(** Heap addresses; [void*] and [FuncPtr] arguments are such addresses. *)
Definition addr := nat.

(** [class Synch], whose [VSem sem_] is the semaphore of
    [runtime/CVSemaphore.h]. *)
Record Synch : Type := mkSynch { sem_ : CVSemaphore.sem }.

(** [Synch(int count) : sem_(-count)] *)
Definition Synch_new (count : Z) : Synch :=
  mkSynch (CVSemaphore.make (to_int (- count))).

(** [Synch::release] *)
Definition Synch_release (s : Synch) : Synch :=
  mkSynch (CVSemaphore.release (sem_ s)).

(** [Synch::await]; [env] as for [CVSemaphore.acquire]. *)
Definition Synch_await (env : list (list CVSemaphore.event)) (s : Synch)
  : option Synch :=
  match CVSemaphore.acquire env (sem_ s) with
  | Some (_, s') => Some (mkSynch s')
  | None => None
  end.

(** [struct FuncArg { Synch* synch; int n; }] *)
Record FuncArg : Type := mkFuncArg { synch : addr; n : Z }.

(** The members of a [FuncArg] in declaration order, as code that indexes
    the object by field number sees them. *)
Inductive Field : Type :=
| FPtr (a : addr)
| FInt (z : Z).

Definition FuncArg_fields (a : FuncArg) : list Field :=
  [FPtr (synch a); FInt (n a)].

Inductive Object : Type :=
| OSynch (s : Synch)
| OFuncArg (a : FuncArg).

Record WorkItem : Type := mkItem {
  item_func : addr;
  item_arg : addr;
  item_priority : Z
}.

(** The heap of [new]ed objects, the next free address, and the pending
    items of [_threadPool]. *)
Record state : Type := mkState {
  heap : list (addr * Object);
  next : addr;
  pool : list WorkItem
}.

Definition lookup (st : state) (a : addr) : option Object :=
  option_map snd (find (fun p => fst p =? a)%nat (heap st)).

(** [new T(...)] *)
Definition new (o : Object) (st : state) : addr * state :=
  (next st, mkState ((next st, o) :: heap st) (S (next st)) (pool st)).

(** [delete p] *)
Definition delete (a : addr) (st : state) : state :=
  mkState (filter (fun p => negb (fst p =? a)%nat) (heap st))
          (next st) (pool st).

Definition store (a : addr) (o : Object) (st : state) : state :=
  mkState (map (fun p => if (fst p =? a)%nat then (a, o) else p) (heap st))
          (next st) (pool st).

(** Modelled from the spec: [ThreadPool] is defined in [ThreadPool.h], which
    is not among the sources.  "push(fn, arg, priority): enqueue a work
    item"; the pending items are kept here in the order they were pushed. *)
Definition ThreadPool_push (fn arg : addr) (priority : Z) (st : state)
  : state :=
  mkState (heap st) (next st) (pool st ++ [mkItem fn arg priority]).

(** [void* __ares_create_synch(uint32_t count)]: [new Synch(count - 1)], the
    subtraction in [uint32_t], the argument converted to [int]. *)
Definition __ares_create_synch (count : Z) (st : state) : addr * state :=
  new (OSynch (Synch_new (to_int (to_uint32 (to_uint32 count - 1))))) st.

(** [void __ares_queue_func(void* synch, void* fp, uint32_t index,
    uint32_t priority)] *)
Definition __ares_queue_func (synch fp : addr) (index priority : Z)
    (st : state) : state :=
  let (a, st1) := new (OFuncArg (mkFuncArg synch (to_int index))) st in
  ThreadPool_push fp a priority st1.

(** [void __ares_finish_func(void* arg)] *)
Definition __ares_finish_func (arg : addr) (st : state) : option state :=
  match lookup st arg with
  | Some (OFuncArg a) =>
      match lookup st (synch a) with
      | Some (OSynch s) =>
          Some (delete arg (store (synch a) (OSynch (Synch_release s)) st))
      | _ => None
      end
  | _ => None
  end.

(** [void __ares_await_synch(void* synch)] *)
Definition __ares_await_synch (env : list (list CVSemaphore.event))
    (synch : addr) (st : state) : option state :=
  match lookup st synch with
  | Some (OSynch s) =>
      match Synch_await env s with
      | Some s' => Some (delete synch (store synch (OSynch s') st))
      | None => None
      end
  | _ => None
  end.

Definition empty : state := mkState [] 0%nat [].

(** The count of the semaphore inside the [Synch] at address [a]. *)
Definition synch_count (st : state) (a : addr) : option Z :=
  match lookup st a with
  | Some (OSynch s) => Some (CVSemaphore.count_ (sem_ s))
  | _ => None
  end.

(** What the lowered queue loop does to the runtime: one
    [__ares_queue_func] per index, in order. *)
Definition queue_funcs (synch fp : addr) (priority : Z) (indices : list Z)
    (st : state) : state :=
  fold_left (fun st i => __ares_queue_func synch fp i priority st) indices st.

(** The bodies reaching their [__ares_finish_func], in the order [args]. *)
Fixpoint finish_funcs (args : list addr) (st : state) : option state :=
  match args with
  | [] => Some st
  | a :: args' =>
      match __ares_finish_func a st with
      | Some st' => finish_funcs args' st'
      | None => None
      end
  end.

(** No object lives at or above the next free address. *)
Definition fresh (st : state) : Prop :=
  forall b : addr, (next st <= b)%nat -> lookup st b = None.

End Runtime.

(* ===================================================================== *)
(** * runtime/runtime.cpp: the task facade *)
(* ===================================================================== *)

Module Tasks.
Import CInt Runtime.

(** [struct TaskArg { Synch* futureSync; uint32_t depth; }], the head of the
    block the lowered task call gets from [__ares_alloc]; a member is [None]
    while nothing has been written to it. *)
Record TaskArg : Type := mkTaskArg {
  futureSync : option addr;
  depth : option Z
}.

(** The runtime state together with the [malloc]ed argument blocks. *)
Record tstate : Type := mkT {
  rt : state;
  blocks : list (addr * TaskArg)
}.

Definition block (ts : tstate) (a : addr) : option TaskArg :=
  option_map snd (find (fun p => fst p =? a)%nat (blocks ts)).

Definition set_block (a : addr) (t : TaskArg) (ts : tstate) : tstate :=
  mkT (rt ts)
      (map (fun p => if (fst p =? a)%nat then (a, t) else p) (blocks ts)).

(** [void* __ares_alloc(uint64_t bytes)]: [malloc(bytes)]; the block is not
    initialised. *)
Definition __ares_alloc (bytes : Z) (ts : tstate) : addr * tstate :=
  (next (rt ts),
   mkT (mkState (heap (rt ts)) (S (next (rt ts))) (pool (rt ts)))
       ((next (rt ts), mkTaskArg None None) :: blocks ts)).

(** [void __ares_task_queue(void* funcPtr, void* argsPtr)] *)
Definition __ares_task_queue (funcPtr argsPtr : addr) (ts : tstate)
  : option tstate :=
  match block ts argsPtr with
  | Some a =>
      let (f, st1) := new (OSynch (Synch_new 0)) (rt ts) in
      Some (mkT (ThreadPool_push funcPtr argsPtr 0 st1)
                (blocks (set_block argsPtr (mkTaskArg (Some f) (depth a)) ts)))
  | None => None
  end.

(** The [Synch] behind [args->futureSync]. *)
Definition future (ts : tstate) (argsPtr : addr) : option (addr * Synch) :=
  match block ts argsPtr with
  | Some a =>
      match futureSync a with
      | Some f =>
          match lookup (rt ts) f with
          | Some (OSynch s) => Some (f, s)
          | _ => None
          end
      | None => None
      end
  | None => None
  end.

(** [void __ares_task_await_future(void* argsPtr)] *)
Definition __ares_task_await_future (env : list (list CVSemaphore.event))
    (argsPtr : addr) (ts : tstate) : option tstate :=
  match future ts argsPtr with
  | Some (f, s) =>
      match Synch_await env s with
      | Some s' => Some (mkT (store f (OSynch s') (rt ts)) (blocks ts))
      | None => None
      end
  | None => None
  end.

(** [void __ares_task_release_future(void* argsPtr)] *)
Definition __ares_task_release_future (argsPtr : addr) (ts : tstate)
  : option tstate :=
  match future ts argsPtr with
  | Some (f, s) =>
      Some (mkT (store f (OSynch (Synch_release s)) (rt ts)) (blocks ts))
  | None => None
  end.

Definition future_count (ts : tstate) (argsPtr : addr) : option Z :=
  option_map (fun fs => CVSemaphore.count_ (sem_ (snd fs)))
             (future ts argsPtr).

End Tasks.

(* ===================================================================== *)
(** * runtime/runtime.cpp: messages and the barrier *)
(* ===================================================================== *)

Module Messages.
Import CInt.

(** [enum class MessageType : uint8_t { None, Raw, Barrier }], kept as the
    byte it is stored in. *)
Definition MessageType := Z.
Definition MT_None : MessageType := 0.
Definition MT_Raw : MessageType := 1.
Definition MT_Barrier : MessageType := 2.

(** [class MessageBuffer]; [buf_] is given by the bytes it points to. *)
Record MessageBuffer : Type := mkMsg {
  type_ : MessageType;
  buf_ : list Z;
  size_ : Z;
  owned_ : bool
}.

(** [MessageBuffer(MessageType type, char* buf, size_t size, bool owned)];
    [size_] is a [uint32_t]. *)
Definition MessageBuffer_new (type : MessageType) (buf : list Z) (size : Z)
    (owned : bool) : MessageBuffer :=
  mkMsg type buf (to_uint32 size) owned.

(** The four bytes of a [uint32_t] as [memcpy] lays them out and the cast
    [*((uint32_t* )sbuf)] reads them back, in the byte order of the host
    (least significant first). *)
Definition bytes_of_uint32 (z : Z) : list Z :=
  [z mod 256; (z / 256) mod 256; (z / 256 / 256) mod 256;
   (z / 256 / 256 / 256) mod 256].

Definition uint32_of_bytes (b : list Z) : Z :=
  match b with
  | [b0; b1; b2; b3] => b0 + 256 * (b1 + 256 * (b2 + 256 * b3))
  | _ => 0
  end.

(** One round of [MessageDispatcher::runSend] after the dequeue: what goes
    to [sendChannel_], the 5-byte header and then [size] bytes of the
    buffer. *)
Definition runSend_bytes (msg : MessageBuffer) : list Z :=
  (bytes_of_uint32 (size_ msg) ++ [type_ msg mod 256])
    ++ firstn (Z.to_nat (size_ msg)) (buf_ msg).

(** [receiveChannel_->receive(buf, n)] on a stream that hands over the next
    [n] bytes; [None] while fewer have arrived. *)
Definition receive (n : nat) (stream : list Z) : option (list Z * list Z) :=
  if (n <=? length stream)%nat then Some (firstn n stream, skipn n stream)
  else None.

(** One round of [MessageDispatcher::runReceive] up to the call of the
    handler: the message read, and the rest of the stream. *)
Definition runReceive_message (stream : list Z)
  : option (MessageBuffer * list Z) :=
  match receive 5 stream with
  | Some (sbuf, rest) =>
      let size := uint32_of_bytes (firstn 4 sbuf) in
      let type := nth 4 sbuf 0 in
      match receive (Z.to_nat size) rest with
      | Some (payload, rest') => Some (mkMsg type payload size false, rest')
      | None => None
      end
  | None => None
  end.

(** [class Communicator], as far as the barrier goes. *)
Record Communicator : Type := mkComm {
  barrier_ : option CVSemaphore.sem
}.

(** [Communicator::init(size_t groupSize)]: [assert(!barrier_)], then
    [new Barrier(2 - (int)groupSize)]. *)
Definition init (groupSize : Z) (c : Communicator) : option Communicator :=
  match barrier_ c with
  | Some _ => None
  | None => Some (mkComm (Some (CVSemaphore.make
                                  (to_int (2 - to_int groupSize)))))
  end.

(** [Communicator::handleMessage] *)
Definition handleMessage (msg : MessageBuffer) (c : Communicator)
  : option (bool * Communicator) :=
  if type_ msg =? MT_Barrier then
    match barrier_ c with
    | Some s => Some (true, mkComm (Some (CVSemaphore.release s)))
    | None => None
    end
  else Some (false, c).

(** [k] barrier messages handled one after the other. *)
Fixpoint handleBarriers (k : nat) (c : Communicator) : option Communicator :=
  match k with
  | O => Some c
  | S k' =>
      match handleMessage (mkMsg MT_Barrier [0] 1 false) c with
      | Some (_, c') => handleBarriers k' c'
      | None => None
      end
  end.

(** The wait of [Communicator::barrier()]: [assert(barrier_)] and
    [barrier_->acquire()], with no further message arriving meanwhile. *)
Definition barrier_wait (c : Communicator) : option (option Communicator) :=
  match barrier_ c with
  | Some s =>
      Some (match CVSemaphore.acquire [] s with
            | Some (_, s') => Some (mkComm (Some s'))
            | None => None
            end)
  | None => None
  end.

End Messages.

(* ===================================================================== *)
(** * Running lowered code *)
(* ===================================================================== *)

(** What a function of the IR does when it runs, as far as the lowered
    constructs need it: 32-bit arithmetic, stack slots, branches, and calls,
    which are recorded in order with their actual arguments. *)
Module Exec.
Import IR.

Inductive rval : Type :=
| RInt (z : Z)
| RPtr (base off : nat)
| RFun (f : ident)
| RHandle (k : nat)      (* what the k-th recorded call returned *)
| RUndef.

Record call : Type := mkCall { callee : Value; actuals : list rval }.

Record xstate : Type := mkX {
  regs : list (ident * rval);
  mem : list ((nat * nat) * rval);
  nextBase : nat;
  trace : list call
}.

Definition start : xstate := mkX [] [] 0 [].

Definition reg (st : xstate) (i : ident) : rval :=
  match find (fun p => fst p =? i)%nat (regs st) with
  | Some p => snd p
  | None => RUndef
  end.

Definition eval (st : xstate) (v : Value) : rval :=
  match v with
  | VInst i => reg st i
  | VConstInt _ z => RInt z
  | VFunc f => RFun f
  | _ => RUndef
  end.

Definition set_reg (i : ident) (r : rval) (st : xstate) : xstate :=
  mkX ((i, r) :: regs st) (mem st) (nextBase st) (trace st).

Definition read (st : xstate) (p : rval) : rval :=
  match p with
  | RPtr b o =>
      match find (fun c => (fst (fst c) =? b)%nat && (snd (fst c) =? o)%nat)
                 (mem st) with
      | Some c => snd c
      | None => RUndef
      end
  | _ => RUndef
  end.

Definition write (p r : rval) (st : xstate) : xstate :=
  match p with
  | RPtr b o => mkX (regs st) (((b, o), r) :: mem st) (nextBase st) (trace st)
  | _ => st
  end.

Definition arith (h : Z -> Z -> Z) (a b : rval) : rval :=
  match a, b with
  | RInt x, RInt y => RInt (CInt.to_uint32 (h x y))
  | _, _ => RUndef
  end.

(** An instruction that is not a terminator. *)
Definition exec_inst (x : Instruction) (st : xstate) : xstate :=
  match opcode x, operands x with
  | OpAlloca _, _ =>
      mkX ((iid x, RPtr (nextBase st) 0) :: regs st) (mem st)
          (S (nextBase st)) (trace st)
  | OpLoad, [p] => set_reg (iid x) (read st (eval st p)) st
  | OpStore, [v; p] => write (eval st p) (eval st v) st
  | OpBitCast, [v] => set_reg (iid x) (eval st v) st
  | OpStructGEP idx, [p] =>
      set_reg (iid x)
        (match eval st p with
         | RPtr b o => RPtr b (o + idx)
         | _ => RUndef
         end) st
  | OpSub, [a; b] => set_reg (iid x) (arith Z.sub (eval st a) (eval st b)) st
  | OpAdd, [a; b] => set_reg (iid x) (arith Z.add (eval st a) (eval st b)) st
  | OpICmpULT, [a; b] =>
      set_reg (iid x)
        (match eval st a, eval st b with
         | RInt u, RInt v => RInt (if u <? v then 1 else 0)
         | _, _ => RUndef
         end) st
  | OpCall, ops =>
      mkX ((iid x, RHandle (length (trace st))) :: regs st) (mem st)
          (nextBase st)
          (trace st ++ [mkCall (last ops (VOther 0))
                               (map (eval st) (removelast ops))])
  | _, _ => st
  end.

Inductive result : Type :=
| Returns (st : xstate)      (* reached a [ret] *)
| Running (st : xstate)      (* fuel used up *)
| Stuck (st : xstate).       (* fell off a block or branched nowhere *)

Definition block_insts (f : Function) (b : ident) : option (list Instruction) :=
  option_map insts (find (fun x => bid x =? b)%nat (blocks f)).

Fixpoint exec (fuel : nat) (f : Function) (code : list Instruction)
    (st : xstate) : result :=
  match fuel with
  | O => Running st
  | S fuel' =>
      match code with
      | [] => Stuck st
      | x :: rest =>
          match opcode x, operands x with
          | OpRet, _ => Returns st
          | OpBr, [VBlock b] =>
              match block_insts f b with
              | Some c => exec fuel' f c st
              | None => Stuck st
              end
          | OpCondBr, [c; VBlock t; VBlock e] =>
              match eval st c with
              | RInt z =>
                  match block_insts f (if z =? 0 then e else t) with
                  | Some c' => exec fuel' f c' st
                  | None => Stuck st
                  end
              | _ => Stuck st
              end
          | _, _ => exec fuel' f rest (exec_inst x st)
          end
      end
  end.

(** Run function [f] of [m] from its entry block for [fuel] instructions. *)
Definition run_function (fuel : nat) (m : Mod) (f : ident) : option result :=
  match getFunc m f with
  | Some g =>
      match blocks g with
      | b :: _ => Some (exec fuel g (insts b) start)
      | [] => None
      end
  | None => None
  end.

Definition returned (r : option result) : bool :=
  match r with Some (Returns _) => true | _ => false end.

Definition trace_of (r : option result) : list call :=
  match r with
  | Some (Returns st) | Some (Running st) | Some (Stuck st) => trace st
  | None => []
  end.

Definition calls_to (name : string) (t : list call) : list call :=
  filter (fun c => match callee c with
                   | VDecl s => String.eqb s name
                   | _ => false
                   end) t.

End Exec.

(* ===================================================================== *)
(** * Sample programs *)
(* ===================================================================== *)

Module Samples.
Import IR Builder HLIR.
Local Open Scope nat_scope.

(** A caller [main] with a stack slot [A] (address 2), the marker of a
    parallel-for (address 3) and a return. *)
Definition caller : Mod :=
  [mkFunc 0 "main"
     [mkBlock 1 "entry"
        [mkInst 2 "A" (OpAlloca I32Ty) [] (PtrTy I32Ty);
         mkInst 3 "" OpMarker [] VoidTy;
         mkInst 4 "" OpRet [] VoidTy]]].

(** The emitter's side of [for(auto i : Forall(start, end)) A = i]: create
    the construct, write the body at its insertion point (a load of the
    induction variable and a store to the outer [A]), record marker and
    range. *)
Definition emitParallelFor (range : Z * Z) : M HLIRParallelFor :=
  pf <- HLIRParallelFor_new ;;
  i <- new_addr ;;
  s <- new_addr ;;
  emitBody (pf_insertion pf)
    [mkInst i "i" OpLoad [pf_index pf] I32Ty;
     mkInst s "" OpStore [VInst i; VInst 2] VoidTy] ;;;
  ret (mkPFor (pf_body pf) (pf_index pf) (pf_insertion pf) (pf_args pf)
              (pf_argsInsertion pf) (Some 3%nat) (Some range)).

Definition lowerSample (range : Z * Z) : option (unit * Mod) :=
  runOn (pf <- emitParallelFor range ;; lowerParallelFor_ pf) caller 5.

Definition loweredSample (range : Z * Z) : Mod :=
  match lowerSample range with
  | Some (_, m) => m
  | None => []
  end.

(** The runtime calls the lowered [caller] makes: the synch is what the
    first recorded call returned, the captured-args struct is the second
    stack slot of [main], the body function has address 5. *)
Definition call_create_synch (n : Z) : Exec.call :=
  Exec.mkCall (VDecl "__ares_create_synch") [Exec.RInt n].

Definition call_queue_func (index : Z) : Exec.call :=
  Exec.mkCall (VDecl "__ares_queue_func")
    [Exec.RHandle 0; Exec.RPtr 1 0; Exec.RFun 5; Exec.RInt index;
     Exec.RInt 1].

Definition call_await_synch : Exec.call :=
  Exec.mkCall (VDecl "__ares_await_synch") [Exec.RHandle 0].

(** A body function whose single instruction adds the outer value at
    address 2 to itself. *)
Definition dupBody : Function :=
  mkFunc 5 "hlir.parallel_for.body"
    [mkBlock 6 "entry"
       [mkInst 7 "" OpAdd [VInst 2; VInst 2] I32Ty;
        mkInst 8 "" OpRet [] VoidTy]].

Definition dupModule : Mod :=
  [mkFunc 0 "main"
     [mkBlock 1 "entry"
        [mkInst 2 "k" OpLoad [VOther 0] I32Ty;
         mkInst 3 "" OpMarker [] VoidTy;
         mkInst 4 "" OpRet [] VoidTy]];
   dupBody].

(** [x = y = f()]: the result of the call at address 2 is stored twice, to
    [y] by the instruction at address 3 and then to [x] by the one at
    address 4.  [f] is the task function (address 10), its wrapper has
    address 20. *)
Definition taskCaller : Mod :=
  [mkFunc 0 "main"
     [mkBlock 1 "entry"
        [mkInst 2 "call" OpCall [VFunc 10] I32Ty;
         mkInst 3 "" OpStore [VInst 2; VOther 0] VoidTy;
         mkInst 4 "" OpStore [VInst 2; VOther 1] VoidTy;
         mkInst 5 "" OpRet [] VoidTy]];
   mkFunc 10 "f" [mkBlock 11 "entry" [mkInst 12 "" OpRet [VConstInt 32 7] VoidTy]];
   mkFunc 20 "hlir.task_wrapper" [mkBlock 21 "entry" [mkInst 22 "" OpRet [] VoidTy]]].

Definition sampleTask : HLIRTask := mkTask 10 I32Ty [] 20.

(** The use lists of [taskCaller].  A use is linked in at the head of its
    value's list when the using instruction is created, so the store created
    last comes first. *)
Definition taskUses (v : Value) : list User :=
  match v with
  | VInst 2 => [UInst 4; UInst 3]
  | VFunc 10 => [UInst 2]
  | _ => []
  end.

(** The same uses listed in program order. *)
Definition taskUsesInOrder (v : Value) : list User :=
  match v with
  | VInst 2 => [UInst 3; UInst 4]
  | VFunc 10 => [UInst 2]
  | _ => []
  end.

Definition sampleLayout (t : Ty) : Z := 16.

Definition loweredTask (uses : Value -> list User) : Mod :=
  match runOn (lowerTask_ sampleLayout uses sampleTask) taskCaller 30 with
  | Some (_, m) => m
  | None => []
  end.

(** The instructions of [main] after lowering. *)
Definition mainCode (m : Mod) : list Instruction :=
  match getFunc m 0 with
  | Some g => all_insts g
  | None => []
  end.

(** A module with the marker of a parallel-reduce (address 3) in [main],
    after the construct has been created. *)
Definition reduceSample : option (HLIRParallelReduce * Mod) :=
  runOn (HLIRParallelReduce_new I32Ty) caller 5.

Definition reduceModule : Mod :=
  match reduceSample with Some (_, m) => m | None => [] end.

Definition sampleReduce : HLIRParallelReduce :=
  match reduceSample with
  | Some (r, _) =>
      mkReduce (pr_body r) (pr_entry r) (pr_index r) (pr_insertion r)
               (pr_args r) (pr_argsInsertion r) (pr_reduceVar r)
               (pr_reduceType r) (Some 3)
  | None => mkReduce 0 0 (VOther 0) 0 (VOther 0) 0 (VOther 0) VoidTy None
  end.

End Samples.

(* ===================================================================== *)
(** * The lowered queue loop of the sample *)
(* ===================================================================== *)

(** The pieces of [Samples.loweredSample] that the run of its queue loop goes
    through, for an arbitrary range. *)
Module Loop.
Import IR Exec Samples CInt.

(** The function [main] of the lowered sample and its entry block. *)
Definition loweredMain (r : Z * Z) : Function :=
  match getFunc (loweredSample r) 0%nat with
  | Some g => g
  | None => mkFunc 0%nat "" []
  end.

Definition entryBlock (r : Z * Z) : list Instruction :=
  match blocks (loweredMain r) with
  | b :: _ => insts b
  | [] => []
  end.

(** Its blocks [pfor.queue.loop] (address 29) and [pfor.queue.exit]
    (address 38), as the lowering emits them for the upper bound [e]. *)
Definition loopBlock (e : Z) : list Instruction :=
  [mkInst 31 "" OpLoad [VInst 27] I32Ty;
   mkInst 32 "" OpBitCast [VInst 22] VoidPtrTy;
   mkInst 33 "" OpBitCast [VFunc 5] VoidPtrTy;
   mkInst 34 "" OpCall [VInst 26; VInst 32; VInst 33; VInst 31;
                        VConstInt 32 1; VDecl "__ares_queue_func"] VoidTy;
   mkInst 35 "" OpAdd [VInst 31; VConstInt 32 1] I32Ty;
   mkInst 36 "" OpStore [VInst 35; VInst 27] VoidTy;
   mkInst 37 "" OpICmpULT [VInst 35; VConstInt 32 (to_uint32 e)] (OtherTy 1);
   mkInst 39 "" OpCondBr [VInst 37; VBlock 29; VBlock 38] VoidTy]%nat.

Definition exitBlock : list Instruction :=
  [mkInst 42 "" OpCall [VInst 26; VDecl "__ares_await_synch"] VoidTy;
   mkInst 43 "" OpBr [VBlock 40] VoidTy]%nat.

(** What holds each time control reaches the top of the loop block: the
    synch handle, the captured-args slot and the index slot are where the
    entry block put them, and the index slot holds [i]. *)
Definition LoopInv (i : Z) (st : xstate) : Prop :=
  reg st 26%nat = RHandle 0 /\ reg st 22%nat = RPtr 1 0 /\
  reg st 27%nat = RPtr 2 0 /\ read st (RPtr 2 0) = RInt i.

(** The effect of a call instruction at address [i] recording [c]. *)
Definition do_call (i : ident) (c : call) (st : xstate) : xstate :=
  mkX ((i, RHandle (length (trace st))) :: regs st) (mem st) (nextBase st)
      (trace st ++ [c]).

(** The state after the seven instructions of the loop block before its
    branch. *)
Definition loopBody (e : Z) (st : xstate) : xstate :=
  let s1 := set_reg 31%nat (read st (reg st 27%nat)) st in
  let s2 := set_reg 32%nat (reg s1 22%nat) s1 in
  let s3 := set_reg 33%nat (RFun 5%nat) s2 in
  let s4 := do_call 34%nat
              (mkCall (VDecl "__ares_queue_func")
                 [reg s3 26%nat; reg s3 32%nat; reg s3 33%nat;
                  reg s3 31%nat; RInt 1])
              s3 in
  let s5 := set_reg 35%nat (arith Z.add (reg s4 31%nat) (RInt 1)) s4 in
  let s6 := write (reg s5 27%nat) (reg s5 35%nat) s5 in
  set_reg 37%nat (match reg s6 35%nat with
                  | RInt u => RInt (if u <? to_uint32 e then 1 else 0)
                  | _ => RUndef
                  end) s6.

(** [i, i+1, ..., i+n-1] *)
Definition zseq (i : Z) (n : nat) : list Z :=
  map (fun k => i + Z.of_nat k) (seq 0 n).

(** Instructions after which control falls through. *)
Definition straight (x : Instruction) : bool :=
  match opcode x with
  | OpRet | OpBr | OpCondBr => false
  | _ => true
  end.

End Loop.

(* ===================================================================== *)
(** * runtime/runtime.cpp: the two queues of MessageDispatcher *)
(* ===================================================================== *)

Module Dispatcher.
Import CInt Messages.

(** The send side of [class MessageDispatcher]: [sendSem_], [sendQueue_]
    and the bytes that have gone to [sendChannel_] so far.  With them, where
    the threads stand in the code: [pushing] callers of [send] have done
    [push_back] and not yet [sendSem_.release()]; [dequeuing] holds while
    the send thread has come out of [sendSem_.acquire()] and not yet taken
    [sendQueue_.front()]. *)
Record sender : Type := mkSender {
  sendSem_ : CVSemaphore.sem;
  sendQueue_ : list MessageBuffer;
  sendChannel_ : list Z;
  pushing : nat;
  dequeuing : bool
}.

(** [VSem sendSem_] and [deque sendQueue_] as default-constructed. *)
Definition sender_new : sender :=
  mkSender (CVSemaphore.make 0) [] [] 0 false.

(** The atomic sections of [send] and of the loop of [runSend]. *)
Inductive send_event : Type :=
| SendPush (msg : MessageBuffer)  (* send: lock, push_back(msg), unlock *)
| SendRelease                     (* send: sendSem_.release() *)
| RunAcquire                      (* runSend: a test in sendSem_.acquire() *)
| RunDequeue.                     (* runSend: front, pop_front, both writes *)

(** What a section does: it runs, or no thread stands before it, or it
    calls [front()] on an empty deque. *)
Inductive result (A : Type) : Type :=
| Ok (st : A)
| NotEnabled
| EmptyFront.
Arguments Ok {A} st.
Arguments NotEnabled {A}.
Arguments EmptyFront {A}.

Definition send_step (d : sender) (e : send_event) : result sender :=
  match e with
  | SendPush msg =>
      Ok (mkSender (sendSem_ d) (sendQueue_ d ++ [msg]) (sendChannel_ d)
            (S (pushing d)) (dequeuing d))
  | SendRelease =>
      match pushing d with
      | O => NotEnabled
      | S p =>
          Ok (mkSender (CVSemaphore.release (sendSem_ d)) (sendQueue_ d)
                (sendChannel_ d) p (dequeuing d))
      end
  | RunAcquire =>
      if dequeuing d then NotEnabled
      else
        match CVSemaphore.acquire_test (sendSem_ d) with
        | (s', CVSemaphore.Returned _) =>
            Ok (mkSender s' (sendQueue_ d) (sendChannel_ d) (pushing d) true)
        | (s', _) =>
            Ok (mkSender s' (sendQueue_ d) (sendChannel_ d) (pushing d) false)
        end
  | RunDequeue =>
      if dequeuing d then
        match sendQueue_ d with
        | [] => EmptyFront
        | msg :: q =>
            Ok (mkSender (sendSem_ d) q (sendChannel_ d ++ runSend_bytes msg)
                  (pushing d) false)
        end
      else NotEnabled
  end.

Fixpoint send_run (d : sender) (evs : list send_event) : result sender :=
  match evs with
  | [] => Ok d
  | e :: evs' =>
      match send_step d e with
      | Ok d' => send_run d' evs'
      | r => r
      end
  end.

(** The messages handed to [send], in the order of their [push_back]. *)
Fixpoint sent (evs : list send_event) : list MessageBuffer :=
  match evs with
  | [] => []
  | SendPush msg :: evs' => msg :: sent evs'
  | _ :: evs' => sent evs'
  end.

(** What holds of the send side between any two sections, with [remaining]
    messages still to be handed to [send]. *)
Definition send_inv (remaining : nat) (d : sender) : Prop :=
  CVSemaphore.maxCount_ (sendSem_ d) = 0 /\
  0 <= CVSemaphore.count_ (sendSem_ d) /\
  CVSemaphore.count_ (sendSem_ d) + Z.of_nat (pushing d)
    + (if dequeuing d then 1 else 0)
  = Z.of_nat (length (sendQueue_ d)) /\
  Z.of_nat (length (sendQueue_ d)) + Z.of_nat remaining <= INT_MAX.

(** The receive side: [receiveSem_], [receiveQueue_], the bytes that
    [receiveChannel_] still holds, the handler, and what [receive] has
    returned to its callers so far.  [releasing] holds while the receive
    thread has done [push_back] and not yet [receiveSem_.release()];
    [taking] callers of [receive] have come out of [receiveSem_.acquire()]
    and not yet taken [receiveQueue_.front()]. *)
Record receiver : Type := mkReceiver {
  receiveSem_ : CVSemaphore.sem;
  receiveQueue_ : list MessageBuffer;
  receiveChannel_ : list Z;
  handler_ : Communicator;
  returned : list MessageBuffer;
  releasing : bool;
  taking : nat
}.

Definition receiver_new (stream : list Z) (handler : Communicator)
  : receiver :=
  mkReceiver (CVSemaphore.make 0) [] stream handler [] false 0.

(** The atomic sections of the loop of [runReceive] and of [receive]. *)
Inductive receive_event : Type :=
| RunRead        (* runReceive: both reads, handleMessage, push_back *)
| RunRelease     (* runReceive: receiveSem_.release() *)
| ReceiveAcquire (* receive: a test in receiveSem_.acquire() *)
| ReceiveTake.   (* receive: front, pop_front, return *)

(** [RunRead] is not enabled while the channel holds less than a whole
    message; a failed [assert] in the handler stops the thread likewise. *)
Definition receive_step (d : receiver) (e : receive_event)
  : result receiver :=
  match e with
  | RunRead =>
      if releasing d then NotEnabled
      else
        match runReceive_message (receiveChannel_ d) with
        | Some (msg, rest) =>
            match handleMessage msg (handler_ d) with
            | Some (true, h) =>
                Ok (mkReceiver (receiveSem_ d) (receiveQueue_ d) rest h
                      (returned d) false (taking d))
            | Some (false, h) =>
                Ok (mkReceiver (receiveSem_ d) (receiveQueue_ d ++ [msg])
                      rest h (returned d) true (taking d))
            | None => NotEnabled
            end
        | None => NotEnabled
        end
  | RunRelease =>
      if releasing d then
        Ok (mkReceiver (CVSemaphore.release (receiveSem_ d))
              (receiveQueue_ d) (receiveChannel_ d) (handler_ d)
              (returned d) false (taking d))
      else NotEnabled
  | ReceiveAcquire =>
      match CVSemaphore.acquire_test (receiveSem_ d) with
      | (s', CVSemaphore.Returned _) =>
          Ok (mkReceiver s' (receiveQueue_ d) (receiveChannel_ d)
                (handler_ d) (returned d) (releasing d) (S (taking d)))
      | (s', _) =>
          Ok (mkReceiver s' (receiveQueue_ d) (receiveChannel_ d)
                (handler_ d) (returned d) (releasing d) (taking d))
      end
  | ReceiveTake =>
      match taking d with
      | O => NotEnabled
      | S t =>
          match receiveQueue_ d with
          | [] => EmptyFront
          | msg :: q =>
              Ok (mkReceiver (receiveSem_ d) q (receiveChannel_ d)
                    (handler_ d) (returned d ++ [msg]) (releasing d) t)
          end
      end
  end.

Fixpoint receive_run (d : receiver) (evs : list receive_event)
  : result receiver :=
  match evs with
  | [] => Ok d
  | e :: evs' =>
      match receive_step d e with
      | Ok d' => receive_run d' evs'
      | r => r
      end
  end.

(** A message as the peer's [runReceive] rebuilds it from the bytes of
    [runSend]: the first [size_] bytes of the buffer, not owned. *)
Definition arrives (msg : MessageBuffer) : MessageBuffer :=
  mkMsg (type_ msg) (firstn (Z.to_nat (size_ msg)) (buf_ msg)) (size_ msg)
    false.

(** A message whose type is a byte and whose buffer holds the [size_] bytes
    it announces. *)
Definition framed (msg : MessageBuffer) : Prop :=
  (0 <= type_ msg < 256) /\ (0 <= size_ msg < 2 ^ 32) /\
  (Z.to_nat (size_ msg) <= length (buf_ msg))%nat.

Definition is_barrier (msg : MessageBuffer) : bool :=
  type_ msg =? MT_Barrier.

End Dispatcher.

(* ===================================================================== *)
(** * hlir/src/HLIR.cpp: the wrapper of a task function *)
(* ===================================================================== *)

Module TaskWrapper.
Import IR Builder HLIR.
Local Open Scope nat_scope.

(** [b.CreateRetVoid()] *)
Definition CreateRetVoid : M Value :=
  Create OpRet [] VoidTy "".

(** A loop that [push_back]s one value per round. *)
Fixpoint collect {A B : Type} (l : list A) (body : A -> M B) : M (list B) :=
  match l with
  | [] => ret []
  | a :: l' =>
      b <- body a ;;
      bs <- collect l' body ;;
      ret (b :: bs)
  end.

(** [HLIRTask::setFunction]; [returnType] and [paramTypes] are
    [func->getReturnType()] and the types of [func]'s arguments. *)
Definition setFunction (func : ident) (returnType : Ty)
    (paramTypes : list Ty) : M HLIRTask :=
  wrapperFunc <- Function_Create "hlir.task_wrapper" ;;
  let argsVoidPtr := VArg wrapperFunc 0 in
  entry <- BasicBlock_Create "entry" wrapperFunc ;;
  SetInsertPoint (AtEnd entry) ;;;
  let fields := [VoidPtrTy; I32Ty; returnType] ++ paramTypes in
  let argsType := StructTy "struct.func_args" fields in
  argsPtr <- CreateBitCast argsVoidPtr (PtrTy argsType) "argsPtr" ;;
  args <- collect (seq 3 (length paramTypes))
            (fun idx =>
               arg <- CreateStructGEP argsPtr idx "arg.ptr" ;;
               CreateLoad arg "arg") ;;
  ret_ <- CreateCall (VFunc func) args returnType "ret" ;;
  retPtr <- CreateStructGEP argsPtr 2 "retPtr" ;;
  CreateStore ret_ retPtr ;;;
  let releaseFunc := VDecl "__ares_task_release_future" in
  CreateCall releaseFunc [argsVoidPtr] VoidTy "" ;;;
  CreateRetVoid ;;;
  ret (mkTask func returnType paramTypes wrapperFunc).

(** A module all of whose addresses are below [n]. *)
Definition below (n : ident) (m : Mod) : Prop :=
  Forall (fun g =>
            fid g < n /\
            Forall (fun x =>
                      bid x < n /\ Forall (fun i => iid i < n) (insts x))
                   (blocks g)) m.

(** One [getelementptr] and one [load] per field index in [idxs], at
    addresses [a], [a + 1], ..., reading fields of the struct [fields] that
    [argsPtr] points to. *)
Fixpoint argLoads (fields : list Ty) (argsPtr : ident) (a : ident)
    (idxs : list nat) : list Instruction :=
  match idxs with
  | [] => []
  | idx :: idxs' =>
      mkInst a "arg.ptr" (OpStructGEP idx) [VInst argsPtr]
             (PtrTy (nth idx fields (OtherTy 0)))
        :: mkInst (S a) "arg" OpLoad [VInst a] (nth idx fields (OtherTy 0))
        :: argLoads fields argsPtr (S (S a)) idxs'
  end.

(** The values loaded by [argLoads]. *)
Fixpoint argValues (a : ident) (idxs : list nat) : list Value :=
  match idxs with
  | [] => []
  | _ :: idxs' => VInst (S a) :: argValues (S (S a)) idxs'
  end.

(** The state of the builder while it fills the one block of a function it
    has just appended to [m]. *)
Definition filling (m : Mod) (f : ident) (nm : string) (b : ident)
    (bn : string) (L : list Instruction) (a : ident) : state :=
  mkState (m ++ [mkFunc f nm [mkBlock b bn L]]) a (Some (AtEnd b)).

(** A total-correctness triple for builder code: from every state that
    satisfies [P], [c] returns, with a result and a state that satisfy
    [Q]. *)
Definition hoare {A : Type} (P : state -> Prop) (c : M A)
    (Q : A -> state -> Prop) : Prop :=
  forall st, P st -> exists a st', c st = Some (a, st') /\ Q a st'.

(** Instruction [x] has the result of instruction [c] among its operands. *)
Definition uses (c : ident) (x : Instruction) : Prop :=
  In (VInst c) (operands x).




End TaskWrapper.

(* ===================================================================== *)
(** * Facts about C integers *)
(* ===================================================================== *)

Section CIntFacts.
Import CInt.

Lemma to_int_small (z : Z) : is_int z -> to_int z = z.
Proof.
  unfold is_int, INT_MIN, INT_MAX, to_int; intros H.
  rewrite Z.mod_small; lia.
Qed.

Lemma to_int_is_int (z : Z) : is_int (to_int z).
Proof.
  unfold is_int, INT_MIN, INT_MAX, to_int.
  pose proof (Z.mod_pos_bound (z + 2 ^ 31) (2 ^ 32) ltac:(lia)); lia.
Qed.

Lemma to_uint32_small (z : Z) : 0 <= z < 2 ^ 32 -> to_uint32 z = z.
Proof. intros H; unfold to_uint32; now rewrite Z.mod_small. Qed.

End CIntFacts.

(* ===================================================================== *)
(** * The virtual semaphore *)
(* ===================================================================== *)

Section SemaphoreFacts.
Import CInt CVSemaphore.

Lemma count_decr (s : sem) :
  is_int (count_ s) -> 0 < count_ s -> count_ (decr s) = count_ s - 1.
Proof.
  intros Hi Hp; cbn. apply to_int_small.
  unfold is_int, INT_MIN, INT_MAX in *; lia.
Qed.

Lemma count_incr (s : sem) :
  is_int (count_ s) -> count_ s < INT_MAX -> count_ (incr s) = count_ s + 1.
Proof.
  intros Hi Hp; cbn. apply to_int_small.
  unfold is_int, INT_MIN, INT_MAX in *; lia.
Qed.

Lemma step_maxCount (s : sem) (e : event) :
  maxCount_ (fst (step s e)) = maxCount_ s.
Proof.
  destruct e; cbn; unfold release, tryAcquire, acquire_test;
    repeat match goal with |- context [if ?c then _ else _] => destruct c end;
    reflexivity.
Qed.

Lemma step_is_int (s : sem) (e : event) :
  is_int (count_ s) -> is_int (count_ (fst (step s e))).
Proof.
  intros Hi.
  destruct e; cbn; unfold release, tryAcquire, acquire_test;
    repeat match goal with |- context [if ?c then _ else _] => destruct c end;
    cbn; auto using to_int_is_int.
Qed.

Lemma run_cons (s : sem) (e : event) (evs : list event) :
  run s (e :: evs) =
  (fst (run (fst (step s e)) evs), snd (step s e) :: snd (run (fst (step s e)) evs)).
Proof.
  cbn. destruct (step s e) as [s1 o]; cbn.
  destruct (run s1 evs); reflexivity.
Qed.

Lemma run_app (s : sem) (a b : list event) :
  fst (run s (a ++ b)) = fst (run (fst (run s a)) b).
Proof.
  revert s; induction a as [|e a IH]; intros s; [reflexivity|].
  rewrite <- app_comm_cons, !run_cons; cbn [fst]. apply IH.
Qed.

Lemma run_maxCount (evs : list event) (s : sem) :
  maxCount_ (fst (run s evs)) = maxCount_ s.
Proof.
  revert s; induction evs as [|e evs IH]; intros s; [reflexivity|].
  rewrite run_cons; cbn [fst]. now rewrite IH, step_maxCount.
Qed.

Lemma run_is_int (evs : list event) (s : sem) :
  is_int (count_ s) -> is_int (count_ (fst (run s evs))).
Proof.
  revert s; induction evs as [|e evs IH]; intros s Hi; [exact Hi|].
  rewrite run_cons; cbn [fst]. apply IH, step_is_int, Hi.
Qed.

(** The blocking overload returns at once on a positive count ... *)
Lemma acquire_positive (env : list (list event)) (s : sem) :
  0 < count_ s -> acquire env s = Some (true, decr s).
Proof.
  intros Hp. destruct env; cbn;
    destruct (Z.leb_spec (count_ s) 0); try lia; reflexivity.
Qed.

(** ... and sleeps through every wake-up that finds the count at or
    below zero. *)
Lemma acquire_blocked (s : sem) :
  count_ s <= 0 -> acquire [] s = None /\ acquire_test s = (s, Waits).
Proof.
  intros Hn; unfold acquire_test; cbn.
  destruct (Z.leb_spec (count_ s) 0); try lia; auto.
Qed.

(** C10.  Whenever the blocking overload [acquire()] returns, whatever the
    other threads did while it waited, the value it returns is [true]. *)
Theorem acquire_returns_true
    (env : list (list event)) (s : sem) (b : bool) (s' : sem) :
  acquire env s = Some (b, s') -> b = true.
Proof.
  revert s; induction env as [|others env IH]; intros s; cbn;
    destruct (count_ s <=? 0); intros H;
    try discriminate; try (injection H; intros; subst; reflexivity).
  eapply IH, H.
Qed.

Lemma acquire_returns_true_witness :
  acquire [[EvRelease]] (make 0) = Some (true, signal (make 0)) /\ true = true.
Proof.
  split; [reflexivity|].
  apply (acquire_returns_true [[EvRelease]] (make 0) true (signal (make 0))).
  reflexivity.
Defined.

End SemaphoreFacts.

Section SemaphoreTimedAcquire.
Import CInt CVSemaphore.

Lemma acquire_dt_failure (env : list (list event * Z)) (s s' : sem) :
  acquire_dt env s = Some (false, s') ->
  exists pre others rc post,
    env = pre ++ (others, rc) :: post /\ Forall woken pre /\ rc <> 0 /\
    count_ (fst (run s (interference pre))) <= 0 /\
    s' = fst (run s (interference (pre ++ [(others, rc)]))).
Proof.
  revert s; induction env as [|[others rc] env IH]; intros s; cbn;
    destruct (Z.leb_spec (count_ s) 0) as [Hle|Hgt]; try discriminate.
  destruct (Z.eqb_spec rc 0) as [->|Hrc]; intros H.
  - destruct (IH _ H) as (pre & o & r & post & -> & Hw & Hr & Hc & ->).
    exists ((others, 0) :: pre), o, r, post.
    unfold interference in *; cbn [map fst concat app].
    rewrite !run_app. repeat split; auto.
    constructor; [reflexivity|assumption].
  - injection H as <-.
    exists [], others, rc, env.
    unfold interference; cbn. rewrite app_nil_r. repeat split; auto.
Qed.

Lemma acquire_dt_success (env : list (list event * Z)) (s s' : sem) :
  acquire_dt env s = Some (true, s') ->
  exists pre post,
    env = pre ++ post /\ Forall woken pre /\
    0 < count_ (fst (run s (interference pre))) /\
    s' = decr (fst (run s (interference pre))).
Proof.
  revert s; induction env as [|[others rc] env IH]; intros s; cbn;
    destruct (Z.leb_spec (count_ s) 0) as [Hle|Hgt]; try discriminate.
  - intros H; injection H as <-. exists [], []; cbn; auto.
  - destruct (Z.eqb_spec rc 0) as [->|Hrc]; intros H; [|discriminate].
    destruct (IH _ H) as (pre & post & -> & Hw & Hc & ->).
    exists ((others, 0) :: pre), post.
    unfold interference in *; cbn [map fst concat app].
    rewrite !run_app. repeat split; auto.
    constructor; [reflexivity|assumption].
  - intros H; injection H as <-. exists [], (((others, rc)) :: env); cbn; auto.
Qed.

(** The call comes back as soon as one wait reports the deadline. *)
Lemma acquire_dt_returns (env : list (list event * Z)) (s : sem) :
  Exists (fun w => snd w <> 0) env -> exists r, acquire_dt env s = Some r.
Proof.
  intros H; revert s; induction H as [[others rc] env Hrc|[others rc] env _ IH];
    intros s; cbn in *; destruct (count_ s <=? 0); eauto.
  - destruct (Z.eqb_spec rc 0); [contradiction|eauto].
  - destruct (rc =? 0); eauto.
Qed.

Lemma interference_app (a b : list (list event * Z)) :
  interference (a ++ b) = interference a ++ interference b.
Proof. unfold interference. now rewrite map_app, concat_app. Qed.

Lemma waits_through_woken (pre : list (list event * Z)) (s : sem) :
  waits_through s pre -> Forall woken pre.
Proof.
  revert s; induction pre as [|[others rc] pre IH]; intros s; cbn;
    [constructor|].
  intros (_ & Hrc & H). constructor; [exact Hrc|exact (IH _ H)].
Qed.

(** Through the waits of [pre] the call does nothing but sleep. *)
Lemma acquire_dt_through (pre rest : list (list event * Z)) (s : sem) :
  waits_through s pre ->
  acquire_dt (pre ++ rest) s
  = acquire_dt rest (fst (run s (interference pre))).
Proof.
  revert s; induction pre as [|[others rc] pre IH]; intros s; cbn [app].
  - reflexivity.
  - cbn [waits_through]. intros (Hc & -> & H).
    cbn [acquire_dt]. destruct (Z.leb_spec (count_ s) 0) as [_|]; [|lia].
    cbn [Z.eqb]. rewrite (IH _ H).
    unfold interference; cbn [map fst concat]. now rewrite run_app.
Qed.

(** C7.  What [acquire(dt)] returns, and when.  A call that, after going
    through the waits of [pre], finds [count_ > 0] returns [true] and the
    count is one less.  A call that, after the waits of [pre], finds
    [count_ <= 0] and whose next wait comes back nonzero returns [false],
    and the semaphore is as the other threads left it: the call stored
    nothing (with no other thread active the semaphore is the one it started
    with).  Conversely every [false] comes from such a wait and every [true]
    from such a test.  The result is a plain [bool]. *)
Theorem acquire_dt_spec (env : list (list event * Z)) (s : sem) :
  is_int (count_ s) ->
  (forall pre post,
     env = pre ++ post -> waits_through s pre ->
     0 < count_ (fst (run s (interference pre))) ->
     acquire_dt env s = Some (true, decr (fst (run s (interference pre)))) /\
     count_ (decr (fst (run s (interference pre))))
     = count_ (fst (run s (interference pre))) - 1 /\
     maxCount_ (decr (fst (run s (interference pre)))) = maxCount_ s)
  /\
  (forall pre others rc post,
     env = pre ++ (others, rc) :: post -> waits_through s pre ->
     count_ (fst (run s (interference pre))) <= 0 -> rc <> 0 ->
     acquire_dt env s
     = Some (false, fst (run s (interference (pre ++ [(others, rc)])))) /\
     (interference (pre ++ [(others, rc)]) = [] ->
      fst (run s (interference (pre ++ [(others, rc)]))) = s))
  /\
  (forall b s',
     acquire_dt env s = Some (b, s') ->
     (b = false ->
        exists pre others rc post,
          env = pre ++ (others, rc) :: post /\ Forall woken pre /\ rc <> 0 /\
          count_ (fst (run s (interference pre))) <= 0 /\
          s' = fst (run s (interference (pre ++ [(others, rc)]))) /\
          (interference (pre ++ [(others, rc)]) = [] -> count_ s' = count_ s))
     /\
     (b = true ->
        exists pre post,
          env = pre ++ post /\ Forall woken pre /\
          0 < count_ (fst (run s (interference pre))) /\
          count_ s' = count_ (fst (run s (interference pre))) - 1 /\
          maxCount_ s' = maxCount_ s)).
Proof.
  intros Hi. split; [|split].
  - intros pre post -> Hw Hc.
    rewrite (acquire_dt_through pre post s Hw).
    split; [|split].
    + destruct post as [|[others rc] post]; cbn [acquire_dt];
        destruct (Z.leb_spec (count_ (fst (run s (interference pre)))) 0);
        try lia; reflexivity.
    + apply count_decr; [apply run_is_int, Hi|exact Hc].
    + cbn. apply run_maxCount.
  - intros pre others rc post -> Hw Hc Hrc.
    rewrite (acquire_dt_through pre _ s Hw).
    split.
    + cbn [acquire_dt].
      destruct (Z.leb_spec (count_ (fst (run s (interference pre)))) 0);
        [|lia].
      destruct (Z.eqb_spec rc 0); [contradiction|].
      rewrite interference_app, run_app.
      replace (interference [(others, rc)]) with others
        by (unfold interference; cbn; now rewrite app_nil_r).
      reflexivity.
    + intros ->. reflexivity.
  - intros b s' H; split; intros ->.
    + destruct (acquire_dt_failure _ _ _ H)
        as (pre & others & rc & post & He & Hw & Hrc & Hc & Hs).
      exists pre, others, rc, post. repeat split; auto.
      intros Hnil. rewrite Hs, Hnil. reflexivity.
    + destruct (acquire_dt_success _ _ _ H)
        as (pre & post & He & Hw & Hc & Hs).
      exists pre, post. repeat split; auto.
      * rewrite Hs. apply count_decr; [apply run_is_int, Hi|exact Hc].
      * rewrite Hs. cbn. apply run_maxCount.
Qed.

Lemma acquire_dt_spec_witness :
  is_int (count_ (make 0)) /\
  waits_through (make 0) [([], 0)] /\
  acquire_dt [([], 0); ([], 110)] (make 0) = Some (false, make 0) /\
  waits_through (make 0) [([EvRelease], 0)] /\
  acquire_dt [([EvRelease], 0); ([], 110)] (make 0)
  = Some (true, decr (release (make 0))).
Proof.
  assert (Hi : is_int (count_ (make 0)))
    by (unfold is_int, INT_MIN, INT_MAX; cbn; lia).
  assert (Hw1 : waits_through (make 0) [([], 0)])
    by (cbn; repeat split; lia).
  assert (Hc1 : count_ (fst (run (make 0) (interference [([], 0)]))) <= 0)
    by (cbn; lia).
  assert (Hrc : 110 <> 0) by lia.
  assert (Hw2 : waits_through (make 0) [([EvRelease], 0)])
    by (cbn; repeat split; lia).
  assert (Hc2 : 0 < count_ (fst (run (make 0)
                                   (interference [([EvRelease], 0)]))))
    by (cbn; lia).
  split; [exact Hi|]. split; [exact Hw1|]. split; [|split; [exact Hw2|]].
  - exact (proj1 (proj1 (proj2 (acquire_dt_spec [([], 0); ([], 110)]
                                  (make 0) Hi))
                    [([], 0)] [] 110 [] eq_refl Hw1 Hc1 Hrc)).
  - exact (proj1 (proj1 (acquire_dt_spec [([EvRelease], 0); ([], 110)]
                           (make 0) Hi)
                    [([EvRelease], 0)] [([], 110)] eq_refl Hw2 Hc2)).
Defined.

End SemaphoreTimedAcquire.

Section SemaphoreLatch.
Import CInt CVSemaphore.

Lemma releases_cons (e : event) (evs : list event) :
  releases (e :: evs) =
  ((if event_eq_dec e EvRelease then 1 else 0) + releases evs)%nat.
Proof.
  unfold releases; cbn.
  destruct (event_eq_dec e EvRelease); reflexivity.
Qed.

(** Releases and acquire tests on an uncapped semaphore whose count cannot
    climb above 1: the count is the start plus the releases minus the
    acquires that got through, and none gets through before the count has
    reached 1. *)
Lemma latch_run (evs : list event) (s : sem) :
  maxCount_ s = 0 -> is_int (count_ s) ->
  Forall release_or_acquire evs ->
  count_ s + Z.of_nat (releases evs) <= 1 ->
  count_ (fst (run s evs)) =
    count_ s + Z.of_nat (releases evs) - Z.of_nat (successes (snd (run s evs)))
  /\ (successes (snd (run s evs)) <= 1)%nat
  /\ (count_ s + Z.of_nat (releases evs) <= 0 ->
      successes (snd (run s evs)) = 0%nat).
Proof.
  revert s; induction evs as [|e evs IH]; intros s Hm Hi Hall Hb.
  - cbn. repeat split; lia.
  - inversion Hall as [|? ? He Hall']; subst.
    rewrite run_cons; cbn [fst snd].
    rewrite releases_cons in *.
    destruct He as [-> | ->]; cbn [step fst snd] in *.
    + (* release *)
      destruct (event_eq_dec EvRelease EvRelease) as [_|]; [|congruence].
      assert (Hc : count_ (release s) = count_ s + 1).
      { unfold release. rewrite Hm; cbn [Z.eqb orb signal count_].
        apply (count_incr s Hi). unfold INT_MAX. lia. }
      assert (Hm' : maxCount_ (release s) = 0)
        by (rewrite <- Hm; apply (step_maxCount s EvRelease)).
      assert (Hi' : is_int (count_ (release s)))
        by (apply (step_is_int s EvRelease Hi)).
      destruct (IH (release s) Hm' Hi' Hall') as (IH1 & IH2 & IH3); [lia|].
      unfold successes in *; cbn [filter is_success].
      repeat split; [lia | lia | intros; apply IH3; lia].
    + (* acquire test *)
      destruct (event_eq_dec EvAcquire EvRelease) as [|_]; [discriminate|].
      unfold acquire_test.
      destruct (Z.leb_spec (count_ s) 0) as [Hle|Hgt]; cbn [fst snd].
      * destruct (IH s Hm Hi Hall') as (IH1 & IH2 & IH3); [lia|].
        unfold successes in *; cbn [filter is_success].
        repeat split; [lia | lia | intros; apply IH3; lia].
      * assert (Hc : count_ (decr s) = count_ s - 1)
          by (apply count_decr; assumption).
        assert (Hi' : is_int (count_ (decr s)))
          by (apply (to_int_is_int)).
        destruct (IH (decr s) Hm Hi' Hall') as (IH1 & IH2 & IH3); [lia|].
        unfold successes in *; cbn [filter is_success length].
        assert (length (filter is_success (snd (run (decr s) evs))) = 0%nat)
          by (apply IH3; lia).
        repeat split; lia.
Qed.

Lemma run_app_snd (s : sem) (a b : list event) :
  snd (run s (a ++ b)) = snd (run s a) ++ snd (run (fst (run s a)) b).
Proof.
  revert s; induction a as [|e a IH]; intros s; [reflexivity|].
  rewrite <- app_comm_cons, !run_cons; cbn [fst snd app].
  now rewrite IH.
Qed.

Lemma successes_app (a b : list outcome) :
  successes (a ++ b) = (successes a + successes b)%nat.
Proof. unfold successes. now rewrite filter_app, length_app. Qed.

Lemma successes_run_app (s : sem) (a b : list event) :
  successes (snd (run s (a ++ b)))
  = (successes (snd (run s a))
     + successes (snd (run (fst (run s a)) b)))%nat.
Proof. now rewrite run_app_snd, successes_app. Qed.

Lemma releases_app (a b : list event) :
  releases (a ++ b) = (releases a + releases b)%nat.
Proof. unfold releases. apply count_occ_app. Qed.

(** A thread in [acquire()] on the latch while the others release and try
    to acquire, [env] listing what they do during each of its waits: as long
    as the releases do not take the count to 1 it sleeps; when they do,
    either one of the others got through and it sleeps on, or none did and
    it returns at the first wake-up that finds the count at 1. *)
Lemma latch_acquire (env : list (list event)) (s : sem) :
  maxCount_ s = 0 -> is_int (count_ s) ->
  Forall (Forall release_or_acquire) env ->
  count_ s + Z.of_nat (releases (concat env)) <= 1 ->
  (count_ s + Z.of_nat (releases (concat env)) <= 0 ->
   acquire env s = None)
  /\
  (count_ s + Z.of_nat (releases (concat env)) = 1 ->
   (acquire env s = None /\ successes (snd (run s (concat env))) = 1%nat)
   \/
   (exists pre post,
      env = pre ++ post /\
      acquire env s = Some (true, decr (fst (run s (concat pre)))) /\
      count_ (fst (run s (concat pre))) = 1 /\
      successes (snd (run s (concat pre))) = 0%nat)).
Proof.
  revert s; induction env as [|others env IH]; intros s Hm Hi Hall Hb.
  - cbn [concat] in *. unfold releases in *; cbn [count_occ] in *.
    split; intros Hc.
    + apply acquire_blocked. lia.
    + right. exists [], []. cbn [concat run fst snd app].
      rewrite acquire_positive by lia.
      repeat split; try reflexivity; lia.
  - inversion Hall as [|? ? Ho Hall']; subst.
    cbn [concat] in *. rewrite releases_app in *.
    destruct (Z.leb_spec (count_ s) 0) as [Hle|Hgt].
    + assert (Hacq : acquire (others :: env) s
                     = acquire env (fst (run s others))).
      { cbn [acquire]. destruct (Z.leb_spec (count_ s) 0); [reflexivity|lia]. }
      rewrite Hacq.
      destruct (latch_run others s Hm Hi Ho) as (H1 & H2 & H3); [lia|].
      assert (Hm1 : maxCount_ (fst (run s others)) = 0)
        by (now rewrite run_maxCount).
      assert (Hi1 : is_int (count_ (fst (run s others))))
        by (apply run_is_int, Hi).
      destruct (IH (fst (run s others)) Hm1 Hi1 Hall') as (IHa & IHb); [lia|].
      split; intros Hc.
      * apply IHa. lia.
      * destruct (successes (snd (run s others))) as [|[|k]] eqn:Hso; [| |lia].
        -- destruct IHb as [(Hn & Hs)|(pre & post & -> & Ha & Hc1 & Hs)];
             [lia| |].
           ++ left. split; [exact Hn|].
              rewrite successes_run_app, Hso, Hs. reflexivity.
           ++ right. exists (others :: pre), post.
              cbn [concat app]. rewrite run_app, successes_run_app, Hso, Hs.
              repeat split; [exact Ha|exact Hc1].
        -- left. split; [apply IHa; lia|].
           rewrite successes_run_app, Hso.
           destruct (latch_run (concat env) (fst (run s others)) Hm1 Hi1)
             as (_ & _ & H0); [now apply Forall_concat|lia|].
           rewrite H0 by lia. reflexivity.
    + assert (Hr : releases others = 0%nat /\ releases (concat env) = 0%nat)
        by lia.
      destruct Hr as (Hr1 & Hr2).
      split; intros Hc; [lia|].
      right. exists [], (others :: env). cbn [concat run fst snd app].
      rewrite acquire_positive by exact Hgt.
      repeat split; try reflexivity; lia.
Qed.

(** C2.  A semaphore built with count [-(n-1)], [n >= 1], under any
    interleaving of releases and acquire attempts by any threads.  The
    attempts of [evs] happen first; then a thread calls [acquire()] and,
    while it waits, the others go on as [env] lists, wait by wait.  While
    fewer than [n] releases have happened in all, no attempt has got through
    and the call sleeps.  Once exactly [n] have happened, exactly one
    acquire has got through and the count is 0: either one of the other
    attempts, and the call still sleeps, or the call itself, which was
    blocked until then and returns [true] at the first wake-up that finds
    the [n]-th release done, after which every further attempt waits. *)
Theorem vsem_latch (n : Z) (evs : list event) (env : list (list event)) :
  1 <= n -> is_int (- (n - 1)) ->
  Forall release_or_acquire evs ->
  Forall (Forall release_or_acquire) env ->
  let s0 := make (- (n - 1)) in
  let s' := fst (run s0 evs) in
  let all := evs ++ concat env in
  (Z.of_nat (releases all) < n ->
     successes (snd (run s0 all)) = 0%nat /\
     acquire_test s' = (s', Waits) /\
     acquire env s' = None)
  /\
  (Z.of_nat (releases all) = n ->
     (successes (snd (run s0 all)) = 1%nat /\
      count_ (fst (run s0 all)) = 0 /\
      acquire env s' = None)
     \/
     (exists pre post s'',
        env = pre ++ post /\
        successes (snd (run s0 (evs ++ concat pre))) = 0%nat /\
        count_ (fst (run s0 (evs ++ concat pre))) = 1 /\
        acquire env s' = Some (true, s'') /\
        s'' = decr (fst (run s0 (evs ++ concat pre))) /\
        count_ s'' = 0 /\
        successes (snd (run s'' (concat post))) = 0%nat /\
        acquire [] s'' = None)).
Proof.
  intros Hn Hi Hall Henv s0 s' all.
  assert (Hcat : Forall release_or_acquire (concat env))
    by (now apply Forall_concat).
  assert (Hallall : Forall release_or_acquire all)
    by (apply Forall_app; now split).
  assert (Hi' : is_int (count_ s')) by (apply run_is_int; exact Hi).
  assert (Hm' : maxCount_ s' = 0) by (unfold s'; now rewrite run_maxCount).
  assert (Hrel : releases all = (releases evs + releases (concat env))%nat)
    by apply releases_app.
  split; intros Hr.
  - destruct (latch_run all s0 eq_refl Hi Hallall) as (_ & _ & H3);
      [unfold s0; cbn [make count_]; lia|].
    destruct (latch_run evs s0 eq_refl Hi Hall) as (H1 & _ & H3');
      [unfold s0; cbn [make count_]; lia|].
    unfold s0 in H1, H3, H3'; cbn [make count_] in H1, H3, H3'.
    fold s0 in H1, H3, H3'. fold s' in H1.
    rewrite H3' in H1 by lia.
    split; [apply H3; lia|].
    split; [apply acquire_blocked; lia|].
    apply (latch_acquire env s' Hm' Hi' Henv); lia.
  - destruct (latch_run all s0 eq_refl Hi Hallall) as (Ha1 & _ & _);
      [unfold s0; cbn [make count_]; lia|].
    destruct (latch_run evs s0 eq_refl Hi Hall) as (H1 & H2 & _);
      [unfold s0; cbn [make count_]; lia|].
    unfold s0 in H1, Ha1; cbn [make count_] in H1, Ha1.
    fold s0 in H1, H2, Ha1. fold s' in H1.
    assert (Hsplit : successes (snd (run s0 all))
                     = (successes (snd (run s0 evs))
                        + successes (snd (run s' (concat env))))%nat)
      by apply successes_run_app.
    destruct (latch_acquire env s' Hm' Hi' Henv) as (La & Lb); [lia|].
    destruct (successes (snd (run s0 evs))) as [|[|k]] eqn:Hso; [| |lia].
    + destruct Lb as [(Hnone & Hs)|(pre & post & -> & Hacq & Hc1 & Hs)];
        [lia| |].
      * left. split; [lia|]. split; [lia|exact Hnone].
      * right. exists pre, post, (decr (fst (run s' (concat pre)))).
        assert (Hpre : fst (run s0 (evs ++ concat pre))
                       = fst (run s' (concat pre))) by apply run_app.
        assert (Hip : is_int (count_ (fst (run s' (concat pre)))))
          by (apply run_is_int, Hi').
        assert (H0 : count_ (decr (fst (run s' (concat pre)))) = 0)
          by (rewrite count_decr; [lia|exact Hip|lia]).
        split; [reflexivity|].
        split; [rewrite successes_run_app, Hso; fold s'; rewrite Hs;
                reflexivity|].
        split; [rewrite Hpre; exact Hc1|].
        split; [exact Hacq|].
        split; [now rewrite Hpre|].
        split; [exact H0|].
        split; [|apply acquire_blocked; lia].
        apply Forall_app in Henv as (Hpre_all & Hpost_all).
        assert (Hcp : Forall release_or_acquire (concat pre))
          by (now apply Forall_concat).
        destruct (latch_run (concat pre) s' Hm' Hi' Hcp) as (Hp1 & _ & _).
        { rewrite concat_app, releases_app in Hrel. lia. }
        rewrite concat_app, releases_app in Hrel.
        apply (latch_run (concat post) (decr (fst (run s' (concat pre))))).
        -- cbn. now rewrite run_maxCount.
        -- apply to_int_is_int.
        -- now apply Forall_concat.
        -- lia.
        -- lia.
    + left.
      destruct (latch_run (concat env) s' Hm' Hi' Hcat) as (_ & _ & Hz);
        [lia|].
      split; [rewrite Hsplit, Hz by lia; reflexivity|].
      split; [rewrite Hsplit, Hz in Ha1 by lia; lia|].
      apply La. lia.
Qed.

Lemma vsem_latch_witness :
  let evs := [EvRelease; EvAcquire] in
  let env := [[EvRelease]; [EvAcquire; EvRelease]; [EvAcquire]] in
  let s0 := make (- (3 - 1)) in
  let s' := fst (run s0 evs) in
  let all := evs ++ concat env in
  1 <= 3 /\ is_int (- (3 - 1)) /\ Forall release_or_acquire evs /\
  Forall (Forall release_or_acquire) env /\
  Z.of_nat (releases all) = 3 /\
  acquire [[EvRelease]] s' = None /\
  acquire env s' = Some (true, mkSem 0 0 3) /\
  ((successes (snd (run s0 all)) = 1%nat /\
    count_ (fst (run s0 all)) = 0 /\
    acquire env s' = None)
   \/
   (exists pre post s'',
      env = pre ++ post /\
      successes (snd (run s0 (evs ++ concat pre))) = 0%nat /\
      count_ (fst (run s0 (evs ++ concat pre))) = 1 /\
      acquire env s' = Some (true, s'') /\
      s'' = decr (fst (run s0 (evs ++ concat pre))) /\
      count_ s'' = 0 /\
      successes (snd (run s'' (concat post))) = 0%nat /\
      acquire [] s'' = None)).
Proof.
  intros evs env s0 s' all.
  assert (Hn : 1 <= 3) by lia.
  assert (Hi : is_int (- (3 - 1)))
    by (unfold is_int, INT_MIN, INT_MAX; lia).
  assert (Hall : Forall release_or_acquire evs)
    by (repeat constructor; unfold release_or_acquire; auto).
  assert (Henv : Forall (Forall release_or_acquire) env)
    by (repeat constructor; unfold release_or_acquire; auto).
  assert (Hr : Z.of_nat (releases all) = 3) by reflexivity.
  split; [exact Hn|]. split; [exact Hi|]. split; [exact Hall|].
  split; [exact Henv|]. split; [exact Hr|].
  split; [reflexivity|]. split; [reflexivity|].
  exact (proj2 (vsem_latch 3 evs env Hn Hi Hall Henv) Hr).
Defined.

End SemaphoreLatch.

Section SemaphoreCap.
Import CInt CVSemaphore.

Lemma step_within_cap (s : sem) (e : event) :
  within_cap s -> within_cap (fst (step s e)).
Proof.
  unfold within_cap; intros (Hk & Hik & Hc).
  assert (Hi : is_int (count_ s))
    by (unfold is_int, INT_MIN, INT_MAX in *; lia).
  rewrite step_maxCount.
  split; [assumption|]. split; [assumption|].
  destruct e; cbn [step].
  - unfold release; cbn [fst signal count_].
    destruct (Z.eqb_spec (maxCount_ s) 0); [lia|].
    destruct (Z.ltb_spec (count_ s) (maxCount_ s)); cbn [orb]; [|lia].
    rewrite count_incr; unfold is_int, INT_MIN, INT_MAX in *; lia.
  - unfold tryAcquire.
    destruct (Z.ltb_spec 0 (count_ s)); cbn [fst]; [|lia].
    rewrite count_decr; auto; lia.
  - unfold acquire_test.
    destruct (Z.leb_spec (count_ s) 0); cbn [fst]; [lia|].
    rewrite count_decr; auto; lia.
  - cbn [fst]; lia.
Qed.

Lemma run_within_cap (evs : list event) (s : sem) :
  within_cap s -> within_cap (fst (run s evs)).
Proof.
  revert s; induction evs as [|e evs IH]; intros s H; [exact H|].
  rewrite run_cons; cbn [fst]. apply IH, step_within_cap, H.
Qed.

(** C8, as the code has it.  A semaphore built with a cap [k > 0] and an
    initial count between 0 and [k] keeps [0 <= count_ <= k] through every
    sequence of critical sections of [acquire], [acquire(dt)], [tryAcquire]
    and [release]; a [release] at the cap leaves the count as it is and
    still signals the condition. *)
Theorem vsem_cap (k c0 : Z) (evs : list event) :
  0 < k -> is_int k -> 0 <= c0 <= k ->
  (0 <= count_ (fst (run (make_capped c0 k) evs)) <= k /\
   maxCount_ (fst (run (make_capped c0 k) evs)) = k)
  /\
  (forall s : sem,
     maxCount_ s <> 0 -> count_ s = maxCount_ s ->
     count_ (release s) = count_ s /\
     condition_ (release s) = S (condition_ s)).
Proof.
  intros Hk Hik Hc; split.
  - destruct (run_within_cap evs (make_capped c0 k)) as (_ & _ & H);
      [unfold within_cap; cbn; auto|].
    rewrite run_maxCount in *. cbn [make_capped maxCount_] in *. auto.
  - intros s Hm He. unfold release.
    destruct (Z.eqb_spec (maxCount_ s) 0); [contradiction|].
    destruct (Z.ltb_spec (count_ s) (maxCount_ s)); [lia|].
    cbn. auto.
Qed.

Lemma vsem_cap_witness :
  0 < 2 /\ is_int 2 /\ 0 <= 1 <= 2 /\
  0 <= count_ (fst (run (make_capped 1 2)
                      [EvRelease; EvRelease; EvTryAcquire; EvAcquire; EvAcquire])) <= 2.
Proof.
  assert (Hi : is_int 2) by (unfold is_int, INT_MIN, INT_MAX; lia).
  assert (Hk : 0 < 2) by lia.
  assert (Hc : 0 <= 1 <= 2) by lia.
  split; [exact Hk|]. split; [exact Hi|]. split; [exact Hc|].
  exact (proj1 (proj1 (vsem_cap 2 1
           [EvRelease; EvRelease; EvTryAcquire; EvAcquire; EvAcquire] Hk Hi Hc))).
Defined.

(** The bound does not hold for every semaphore with a nonzero cap: the
    constructor takes any initial count, and the latch idiom starts below
    zero. *)
Lemma vsem_cap_counterexample :
  ~ (forall (k c0 : Z) (evs : list event),
       k <> 0 -> is_int k -> is_int c0 ->
       0 <= count_ (fst (run (make_capped c0 k) evs)) <= k).
Proof.
  intros H.
  specialize (H 5 (-2) [EvRelease]).
  cbn in H. unfold is_int, INT_MIN, INT_MAX in H. lia.
Qed.

End SemaphoreCap.

(* ===================================================================== *)
(** * Removing an instruction from a module *)
(* ===================================================================== *)

Section RemoveFacts.
Import IR.

Lemma remove_inst_app (i : ident) (a b : list Instruction) :
  remove_inst i (a ++ b) = remove_inst i a ++ remove_inst i b.
Proof. unfold remove_inst. apply filter_app. Qed.

Lemma has_inst_app (i : ident) (a b : list Instruction) :
  has_inst i (a ++ b) = has_inst i a || has_inst i b.
Proof. unfold has_inst. apply existsb_app. Qed.

Lemma remove_inst_absent (i : ident) (l : list Instruction) :
  has_inst i l = false -> remove_inst i l = l.
Proof.
  induction l as [|x l IH]; cbn; [reflexivity|].
  destruct (iid x =? i)%nat; cbn; [discriminate|].
  intros H. f_equal. apply IH, H.
Qed.

Lemma all_insts_remove (i : ident) (bs : list BasicBlock) :
  flat_map insts
    (map (fun b => mkBlock (bid b) (bname b) (remove_inst i (insts b))) bs)
  = remove_inst i (flat_map insts bs).
Proof.
  induction bs as [|b bs IH]; cbn [flat_map map insts]; [reflexivity|].
  now rewrite remove_inst_app, IH.
Qed.

Lemma mod_insts_remove (i : ident) (m : Mod) :
  mod_insts (removeFromParent i m) = remove_inst i (mod_insts m).
Proof.
  unfold mod_insts, removeFromParent, map_insts, map_blocks.
  induction m as [|g m IH]; cbn [flat_map map]; [reflexivity|].
  rewrite remove_inst_app, IH. f_equal.
  unfold all_insts; cbn [blocks]. apply all_insts_remove.
Qed.

Lemma blocks_remove_absent (i : ident) (bs : list BasicBlock) :
  has_inst i (flat_map insts bs) = false ->
  map (fun b => mkBlock (bid b) (bname b) (remove_inst i (insts b))) bs = bs.
Proof.
  induction bs as [|b bs IH]; cbn [flat_map map]; [reflexivity|].
  rewrite has_inst_app. intros H.
  apply orb_false_iff in H as [Hb Hbs].
  rewrite IH by assumption. rewrite remove_inst_absent by assumption.
  now destruct b.
Qed.

Lemma removeFromParent_other (i : ident) (m : Mod) (k : nat) (g : Function) :
  nth_error m k = Some g -> has_inst i (all_insts g) = false ->
  nth_error (removeFromParent i m) k = Some g.
Proof.
  unfold removeFromParent, map_insts, map_blocks. intros Hk Hg.
  rewrite nth_error_map, Hk. cbn [option_map].
  rewrite blocks_remove_absent by exact Hg. now destruct g.
Qed.

Lemma removeFromParent_fids (i : ident) (m : Mod) :
  map fid (removeFromParent i m) = map fid m /\
  map (fun g => map bid (blocks g)) (removeFromParent i m)
  = map (fun g => map bid (blocks g)) m.
Proof.
  unfold removeFromParent, map_insts, map_blocks.
  rewrite !map_map; cbn. split; [reflexivity|].
  apply map_ext. intros g. now rewrite map_map.
Qed.

Lemma in_remove_inst (i : ident) (l : list Instruction) (x : Instruction) :
  In x (remove_inst i l) <-> In x l /\ iid x <> i.
Proof.
  unfold remove_inst. rewrite filter_In, negb_true_iff, Nat.eqb_neq.
  reflexivity.
Qed.

Lemma remove_inst_unique (i : ident) (pre post : list Instruction)
    (x : Instruction) :
  iid x = i -> NoDup (map iid (pre ++ x :: post)) ->
  remove_inst i (pre ++ x :: post) = pre ++ post.
Proof.
  intros Hx Hnd.
  rewrite map_app in Hnd; cbn in Hnd.
  assert (Hpre : ~ In i (map iid pre)).
  { intros Hin. apply NoDup_remove_2 in Hnd. apply Hnd, in_or_app. left.
    now rewrite Hx. }
  assert (Hpost : ~ In i (map iid post)).
  { intros Hin. apply NoDup_remove_2 in Hnd. apply Hnd, in_or_app. right.
    now rewrite Hx. }
  assert (Habs : forall l, ~ In i (map iid l) -> has_inst i l = false).
  { induction l as [|y l IH]; cbn; [reflexivity|]. intros Hn.
    destruct (Nat.eqb_spec (iid y) i) as [E|E]; [exfalso; apply Hn; auto|].
    cbn. apply IH. intros Hin. apply Hn. now right. }
  rewrite remove_inst_app.
  change (remove_inst i (x :: post))
    with (if negb (iid x =? i)%nat then x :: remove_inst i post
          else remove_inst i post).
  rewrite Hx, Nat.eqb_refl. cbn [negb].
  rewrite !remove_inst_absent by auto. reflexivity.
Qed.

End RemoveFacts.

(* ===================================================================== *)
(** * Parallel-reduce lowering *)
(* ===================================================================== *)

Section ReduceLowering.
Import IR Builder HLIR.

(** C9.  Lowering a parallel-reduce whose marker is [marker] unlinks that
    instruction and does nothing else: no address is allocated, every block
    keeps its other instructions in order and gets no new one (so no call
    into the runtime appears), the functions and blocks stay the same, and a
    function that does not hold the marker, such as the reduce body, comes
    out identical.  With addresses unique, exactly the marker is gone. *)
Theorem lowerParallelReduce_frame
    (r : HLIRParallelReduce) (marker : ident)
    (m : Mod) (n : ident) (p : option InsertPoint) :
  pr_marker r = Some marker ->
  let m' := removeFromParent marker m in
  lowerParallelReduce_ r (mkState m n p) = Some (tt, mkState m' n p) /\
  mod_insts m' = remove_inst marker (mod_insts m) /\
  (forall x, In x (mod_insts m') <-> In x (mod_insts m) /\ iid x <> marker) /\
  map fid m' = map fid m /\
  map (fun g => map bid (blocks g)) m' = map (fun g => map bid (blocks g)) m /\
  (forall k g, nth_error m k = Some g ->
               has_inst marker (all_insts g) = false ->
               nth_error m' k = Some g) /\
  (forall pre x post,
     mod_insts m = pre ++ x :: post -> iid x = marker ->
     NoDup (map iid (mod_insts m)) -> mod_insts m' = pre ++ post).
Proof.
  intros Hm m'.
  split; [unfold lowerParallelReduce_, bind, expect; rewrite Hm; reflexivity|].
  split; [apply mod_insts_remove|].
  split; [intros x; subst m'; rewrite mod_insts_remove; apply in_remove_inst|].
  split; [apply removeFromParent_fids|].
  split; [apply removeFromParent_fids|].
  split; [intros k g Hk Hg; now apply removeFromParent_other|].
  intros pre x post He Hx Hnd. subst m'.
  rewrite mod_insts_remove, He. apply remove_inst_unique; [exact Hx|].
  now rewrite <- He.
Qed.

Lemma lowerParallelReduce_frame_witness :
  pr_marker Samples.sampleReduce = Some 3%nat /\
  lowerParallelReduce_ Samples.sampleReduce
    (mkState Samples.reduceModule 30%nat None)
  = Some (tt, mkState (removeFromParent 3%nat Samples.reduceModule) 30%nat None) /\
  nth_error (removeFromParent 3%nat Samples.reduceModule) 1
  = nth_error Samples.reduceModule 1.
Proof.
  assert (Hm : pr_marker Samples.sampleReduce = Some 3%nat) by reflexivity.
  destruct (lowerParallelReduce_frame Samples.sampleReduce 3%nat
              Samples.reduceModule 30%nat None Hm) as (H1 & _).
  split; [exact Hm|]. split; [exact H1|]. reflexivity.
Defined.

End ReduceLowering.

(* ===================================================================== *)
(** * Capture-set discovery *)
(* ===================================================================== *)

Section CaptureSet.
Import IR Builder HLIR.

Lemma fold_left_push {A B : Type} (h : B -> list A)
    (step : list A -> B -> list A) :
  (forall v x, step v x = v ++ h x) ->
  forall l v, fold_left step l v = v ++ flat_map h l.
Proof.
  intros Hstep; induction l as [|x l IH]; intros v; cbn.
  - now rewrite app_nil_r.
  - now rewrite IH, Hstep, app_assoc.
Qed.

Lemma findExternalValues_app (m : Mod) (f : Function) (v : list ident) :
  findExternalValues m f v = v ++ externalOperands m f.
Proof.
  unfold findExternalValues, externalOperands.
  apply fold_left_push. intros v1 bi.
  apply fold_left_push. intros v2 ii.
  apply fold_left_push. intros v3 vi.
  unfold external. destruct vi; try now rewrite app_nil_r.
  destruct (parentFunction m i) as [g|]; [|reflexivity].
  destruct (g =? fid f)%nat; [now rewrite app_nil_r | reflexivity].
Qed.

Lemma in_external (m : Mod) (f : Function) (vi : Value) (x : ident) :
  In x (external m f vi) <->
  vi = VInst x /\ parentFunction m x <> Some (fid f).
Proof.
  unfold external. destruct vi; cbn; try (split; [tauto|intros [H _]; discriminate]).
  destruct (parentFunction m i) as [g|] eqn:Hp.
  - destruct (Nat.eqb_spec g (fid f)) as [->|Hne]; cbn.
    + split; [tauto|]. intros [H Hx]. injection H as ->. congruence.
    + split.
      * intros [->|[]]. split; [reflexivity|]. rewrite Hp. congruence.
      * intros [H _]. injection H as ->. now left.
  - cbn. split.
    + intros [->|[]]. split; [reflexivity|]. rewrite Hp. discriminate.
    + intros [H _]. injection H as ->. now left.
Qed.

(** C5, as the code has it.  The list [V] that capture-set discovery hands
    to the rest of the lowering holds one entry per operand occurrence in the
    body whose value is an instruction of another function, in encounter
    order; nothing is removed from it, and the captured-args struct gets one
    field per entry. *)
Theorem findExternalValues_occurrences (m : Mod) (f : Function) :
  findExternalValues m f [] = externalOperands m f /\
  length (captureFields m (findExternalValues m f []))
  = length (findExternalValues m f []) /\
  (forall x : ident,
     In x (findExternalValues m f []) <->
     exists ii, In ii (all_insts f) /\ In (VInst x) (operands ii) /\
                parentFunction m x <> Some (fid f)).
Proof.
  rewrite findExternalValues_app; cbn [app].
  split; [reflexivity|].
  split; [unfold captureFields; apply length_map|].
  intros x. unfold externalOperands, all_insts. split.
  - intros H. apply in_flat_map in H as (bi & Hbi & H).
    apply in_flat_map in H as (ii & Hii & H).
    apply in_flat_map in H as (vi & Hvi & H).
    apply in_external in H as [-> Hp].
    exists ii. split; [|auto].
    apply in_flat_map. exists bi. auto.
  - intros (ii & Hii & Hop & Hp).
    apply in_flat_map in Hii as (bi & Hbi & Hii).
    apply in_flat_map. exists bi. split; [assumption|].
    apply in_flat_map. exists ii. split; [assumption|].
    apply in_flat_map. exists (VInst x). split; [assumption|].
    apply in_external. auto.
Qed.

(** A body that uses one outer value twice gets it twice in [V]. *)
Lemma findExternalValues_keeps_duplicates :
  findExternalValues Samples.dupModule Samples.dupBody [] = [2%nat; 2%nat] /\
  ~ NoDup (findExternalValues Samples.dupModule Samples.dupBody []).
Proof.
  split; [reflexivity|].
  intros H. change (NoDup [2%nat; 2%nat]) in H.
  inversion H as [|? ? Hn _]; subst. apply Hn. now left.
Qed.

End CaptureSet.

(* ===================================================================== *)
(** * Parallel-for lowering *)
(* ===================================================================== *)

Section ParallelFor.
Import IR Builder HLIR Exec Samples.
Import CInt.

(** Whatever the range, the lowered caller has called [queue_func] for the
    index [start] by the time it reaches the first test of the loop
    condition: the queue loop tests at its end. *)
Lemma pfor_queues_before_test (s e : Z) :
  trace_of (run_function 13 (loweredSample (s, e)) 0%nat)
  = [call_create_synch (to_uint32 (to_uint32 e - to_uint32 s));
     call_queue_func (to_uint32 s)].
Proof. lazy -[to_uint32 Z.sub Z.add]. reflexivity. Qed.

(** A range of three iterations queues three. *)
Lemma pfor_three_iterations :
  trace_of (run_function 100 (loweredSample (5, 8)) 0%nat)
  = [call_create_synch 3; call_queue_func 5; call_queue_func 6;
     call_queue_func 7; call_await_synch].
Proof. vm_compute. reflexivity. Qed.

(** C3, on the code.  The parallel-for over [[5, 5)], lowered and run to its
    return: [create_synch(0)], one [queue_func] for index 5 at priority 1,
    then [await_synch].  In the runtime [create_synch(0)] makes a semaphore
    of count 1 and the await goes through without waiting, with the queued
    iteration still pending in the pool; when that iteration reaches
    [finish_func] the synch it releases has been deleted. *)
Theorem pfor_empty_range_queues_one_iteration (fp : Runtime.addr) :
  returned (run_function 100 (loweredSample (5, 5)) 0%nat) = true /\
  trace_of (run_function 100 (loweredSample (5, 5)) 0%nat)
  = [call_create_synch 0; call_queue_func 5; call_await_synch] /\
  Runtime.__ares_create_synch 0 Runtime.empty
  = (0%nat,
     Runtime.mkState
       [(0%nat, Runtime.OSynch (Runtime.mkSynch (CVSemaphore.make 1)))]
       1%nat []) /\
  let st1 := snd (Runtime.__ares_create_synch 0 Runtime.empty) in
  let st2 := Runtime.__ares_queue_func 0%nat fp 5 1 st1 in
  let st3 :=
    Runtime.mkState [(1%nat, Runtime.OFuncArg (Runtime.mkFuncArg 0%nat 5))]
                    2%nat [Runtime.mkItem fp 1%nat 1] in
  Runtime.__ares_await_synch [] 0%nat st2 = Some st3 /\
  Runtime.__ares_finish_func 1%nat st3 = None.
Proof.
  split; [vm_compute; reflexivity|].
  split; [vm_compute; reflexivity|].
  split; [vm_compute; reflexivity|].
  cbv zeta. split; vm_compute; reflexivity.
Qed.

(** C4, on the code.  The body function as the constructor builds it and the
    emitter fills it at the [insertion] attribute: the prologue, the call
    [finish_func(args.ptr)], then the user's instructions, then the return
    that [insertion] names.  The user's code sits after the call that
    releases the latch. *)
Theorem pfor_body_finish_precedes_user_code (user : list Instruction) :
  (let argsType := StructTy "struct.func_args" [VoidPtrTy; I32Ty; VoidPtrTy] in
   let prologue :=
     [mkInst 2 "args.ptr" OpBitCast [VArg 0 0] (PtrTy argsType);
      mkInst 3 "" (OpStructGEP 0) [VInst 2] (PtrTy VoidPtrTy);
      mkInst 4 "synch.ptr" OpLoad [VInst 3] VoidPtrTy;
      mkInst 5 "index.ptr" (OpStructGEP 1) [VInst 2] (PtrTy I32Ty);
      mkInst 6 "funcArgs.ptr" (OpStructGEP 2) [VInst 2] (PtrTy VoidPtrTy);
      mkInst 7 "" OpLoad [VInst 6] VoidPtrTy;
      mkInst 8 "" OpNoOp [] VoidTy;
      mkInst 9 "" OpBitCast [VInst 4] VoidPtrTy] in
   let finish :=
     mkInst 10 "" OpCall [VArg 0 0; VDecl "__ares_finish_func"] VoidTy in
   let retI := mkInst 11 "" OpRet [] VoidTy in
   runOn (pf <- HLIRParallelFor_new ;;
          emitBody (pf_insertion pf) user ;;;
          ret pf) [] 0
   = Some (mkPFor 0 (VInst 5) (iid retI) (VInst 7) 8 None None,
           [mkFunc 0 "hlir.parallel_for.body"
              [mkBlock 1 "entry"
                 (prologue ++ finish :: user ++ [retI])]]))%nat.
Proof. vm_compute. reflexivity. Qed.

End ParallelFor.

(* ===================================================================== *)
(** * Task lowering *)
(* ===================================================================== *)

Section TaskLowering.
Import IR Builder HLIR Samples.

(** C6, on the code.  For [x = y = f()] the call's use list starts with the
    store created last.  The pass queues the task where the call was, puts
    [task_await_future] (address 36), the GEP of field 2 and the load of the
    return slot (address 38) immediately before that store (address 4), and
    rewrites both stores to the loaded value: the store to [y] (address 3),
    the first instruction to use the result, now reads the value two
    instructions before the await and three before the load that defines
    it.  The call itself is erased.  Were the use list in program order the
    await would sit before the first store. *)
Theorem task_await_goes_to_head_of_use_list :
  (map (fun x => (iid x, opcode x, operands x)) (mainCode (loweredTask taskUses))
   = [(30, OpCall, [VConstInt 64 16; VDecl "__ares_alloc"]);
      (31, OpBitCast, [VInst 30]);
      (32, OpStructGEP 1, [VInst 31]);
      (33, OpLoad, [VInst 32]);
      (34, OpBitCast, [VFunc 20]);
      (35, OpCall, [VInst 34; VInst 30; VDecl "__ares_task_queue"]);
      (3, OpStore, [VInst 38; VOther 0]);
      (36, OpCall, [VInst 30; VDecl "__ares_task_await_future"]);
      (37, OpStructGEP 2, [VInst 31]);
      (38, OpLoad, [VInst 37]);
      (4, OpStore, [VInst 38; VOther 1]);
      (5, OpRet, [])] /\
   index_of 3 (mainCode (loweredTask taskUses)) = Some 6 /\
   index_of 36 (mainCode (loweredTask taskUses)) = Some 7 /\
   index_of 38 (mainCode (loweredTask taskUses)) = Some 9 /\
   getInst (loweredTask taskUses) 2 = None /\
   map iid (mainCode (loweredTask taskUsesInOrder))
   = [30; 31; 32; 33; 34; 35; 36; 37; 38; 3; 4; 5])%nat.
Proof. repeat split; vm_compute; reflexivity. Qed.

End TaskLowering.

(* ===================================================================== *)
(** * The queue facade *)
(* ===================================================================== *)

Section QueueFacade.
Import Runtime.

Lemma lookup_new (o : Object) (st : state) :
  lookup (snd (new o st)) (fst (new o st)) = Some o.
Proof. unfold lookup, new; cbn. now rewrite Nat.eqb_refl. Qed.

(** C1, on the code.  [__ares_queue_func] has the four parameters [synch],
    [fp], [index], [priority]; it pushes [(fp, arg, priority)] where [arg] is
    a fresh [FuncArg] whose members are the synch and the index and nothing
    else: there is no third field, so no captured-args pointer travels with
    the work item, while the call the lowering emits passes five actuals and
    the body it will run reads field 2 of its argument. *)
Theorem queue_func_argument_has_two_fields
    (synch fp : addr) (index priority : Z) (st : state) :
  let st' := __ares_queue_func synch fp index priority st in
  let arg := mkFuncArg synch (CInt.to_int index) in
  pool st' = pool st ++ [mkItem fp (next st) priority] /\
  lookup st' (next st) = Some (OFuncArg arg) /\
  FuncArg_fields arg = [FPtr synch; FInt (CInt.to_int index)] /\
  nth_error (FuncArg_fields arg) 2 = None /\
  map (fun c => length (Exec.actuals c))
      (Exec.calls_to "__ares_queue_func"
         (Exec.trace_of
            (Exec.run_function 100 (Samples.loweredSample (5, 8)) 0%nat)))
  = [5; 5; 5]%nat /\
  option_map (fun x => (IR.opcode x, IR.iname x))
             (IR.getInst (Samples.loweredSample (5, 8)) 11%nat)
  = Some (IR.OpStructGEP 2, "funcArgs.ptr"%string).
Proof.
  intros st' arg.
  split; [reflexivity|].
  split.
  { subst st'. unfold __ares_queue_func.
    change (lookup (snd (new (OFuncArg arg) st)) (fst (new (OFuncArg arg) st))
            = Some (OFuncArg arg)).
    apply lookup_new. }
  split; [reflexivity|]. split; [reflexivity|].
  split; vm_compute; reflexivity.
Qed.

End QueueFacade.

(* ===================================================================== *)
(** * More on the semaphore *)
(* ===================================================================== *)

Section SemaphoreLaws.
Import CInt CVSemaphore.

Lemma successes_cons (o : outcome) (os : list outcome) :
  successes (o :: os) = ((if is_success o then 1 else 0) + successes os)%nat.
Proof. unfold successes; cbn. destruct (is_success o); reflexivity. Qed.

(** On a semaphore without cap, through any interleaving of the critical
    sections of [release], [tryAcquire], [acquire] and [acquire(dt)] that
    does not push the count past [INT_MAX]: the count is the initial count
    plus the releases minus the acquisitions that succeeded, every release
    signalled once, and a count that starts at zero or above never goes
    below zero, so no more acquisitions succeed than the initial count and
    the releases allow. *)
Theorem uncapped_conservation (evs : list event) (s : sem) :
  maxCount_ s = 0 -> is_int (count_ s) ->
  count_ s + Z.of_nat (releases evs) <= INT_MAX ->
  count_ (fst (run s evs))
  = count_ s + Z.of_nat (releases evs) - Z.of_nat (successes (snd (run s evs)))
  /\ condition_ (fst (run s evs)) = (condition_ s + releases evs)%nat
  /\ (0 <= count_ s ->
      0 <= count_ (fst (run s evs)) /\
      Z.of_nat (successes (snd (run s evs)))
      <= count_ s + Z.of_nat (releases evs)).
Proof.
  revert s; induction evs as [|e evs IH]; intros s Hm Hi Hb.
  - cbn. repeat split; lia.
  - rewrite run_cons; cbn [fst snd].
    rewrite releases_cons, successes_cons in *.
    assert (Hm' : maxCount_ (fst (step s e)) = 0)
      by (rewrite step_maxCount; exact Hm).
    assert (Hi' : is_int (count_ (fst (step s e))))
      by (apply step_is_int; exact Hi).
    specialize (IH (fst (step s e)) Hm' Hi').
    destruct e; cbn [step fst snd is_success] in *.
    + (* release *)
      destruct (event_eq_dec EvRelease EvRelease) as [_|]; [|congruence].
      assert (Hc : count_ (release s) = count_ s + 1).
      { unfold release. rewrite Hm; cbn [Z.eqb orb signal count_].
        apply (count_incr s Hi). lia. }
      assert (Hs : condition_ (release s) = S (condition_ s)).
      { unfold release. rewrite Hm; reflexivity. }
      destruct IH as (IH1 & IH2 & IH3); [lia|].
      repeat split; try lia.
      all: intros H0; destruct IH3 as [IH3 IH4]; lia.
    + (* tryAcquire *)
      destruct (event_eq_dec EvTryAcquire EvRelease) as [|_]; [discriminate|].
      unfold tryAcquire in *.
      destruct (Z.ltb_spec 0 (count_ s)) as [Hp|Hn]; cbn [fst snd is_success] in *.
      * assert (Hc : count_ (decr s) = count_ s - 1)
          by (apply count_decr; assumption).
        destruct IH as (IH1 & IH2 & IH3); [lia|].
        cbn [condition_ decr] in IH2.
        repeat split; try lia.
        all: intros H0; destruct IH3 as [IH3 IH4]; lia.
      * destruct IH as (IH1 & IH2 & IH3); [lia|].
        repeat split; try lia.
        all: intros H0; destruct IH3 as [IH3 IH4]; lia.
    + (* acquire test *)
      destruct (event_eq_dec EvAcquire EvRelease) as [|_]; [discriminate|].
      unfold acquire_test in *.
      destruct (Z.leb_spec (count_ s) 0) as [Hn|Hp]; cbn [fst snd is_success] in *.
      * destruct IH as (IH1 & IH2 & IH3); [lia|].
        repeat split; try lia.
        all: intros H0; destruct IH3 as [IH3 IH4]; lia.
      * assert (Hc : count_ (decr s) = count_ s - 1)
          by (apply count_decr; assumption).
        destruct IH as (IH1 & IH2 & IH3); [lia|].
        cbn [condition_ decr] in IH2.
        repeat split; try lia.
        all: intros H0; destruct IH3 as [IH3 IH4]; lia.
    + (* timeout *)
      destruct (event_eq_dec EvTimeout EvRelease) as [|_]; [discriminate|].
      destruct IH as (IH1 & IH2 & IH3); [lia|].
      repeat split; try lia.
      all: intros H0; destruct IH3 as [IH3 IH4]; lia.
Qed.

Lemma uncapped_conservation_witness :
  let evs := [EvTryAcquire; EvRelease; EvAcquire; EvTimeout; EvAcquire] in
  maxCount_ (make 1) = 0 /\ is_int (count_ (make 1)) /\
  count_ (make 1) + Z.of_nat (releases evs) <= INT_MAX /\
  count_ (fst (run (make 1) evs))
  = count_ (make 1) + Z.of_nat (releases evs)
    - Z.of_nat (successes (snd (run (make 1) evs))).
Proof.
  intros evs.
  assert (Hm : maxCount_ (make 1) = 0) by reflexivity.
  assert (Hi : is_int (count_ (make 1)))
    by (unfold is_int, INT_MIN, INT_MAX; cbn; lia).
  assert (Hb : count_ (make 1) + Z.of_nat (releases evs) <= INT_MAX)
    by (unfold INT_MAX; cbn; lia).
  split; [exact Hm|]. split; [exact Hi|]. split; [exact Hb|].
  exact (proj1 (uncapped_conservation evs (make 1) Hm Hi Hb)).
Defined.

End SemaphoreLaws.

Section SemaphoreOverloads.
Import CInt CVSemaphore.

(** As long as no wait runs into the deadline, [acquire(dt)] does what
    [acquire()] does. *)
Theorem acquire_dt_without_timeout (env : list (list event)) (s : sem) :
  acquire_dt (map (fun others => (others, 0)) env) s = acquire env s.
Proof.
  revert s; induction env as [|others env IH]; intros s; cbn;
    destruct (count_ s <=? 0); try reflexivity.
  apply IH.
Qed.

(** A thread that calls [acquire()] on an uncapped semaphore of count
    [c <= 0] and is woken by one [release] after the other stays blocked
    through the first [-c] of them and returns [true] on release number
    [1 - c], leaving the count at zero; later releases are not consumed. *)
Theorem acquire_returns_on_last_release (k : nat) (s : sem) :
  maxCount_ s = 0 -> is_int (count_ s) -> count_ s <= 0 ->
  (Z.of_nat k < 1 - count_ s -> acquire (repeat [EvRelease] k) s = None) /\
  (1 - count_ s <= Z.of_nat k ->
   exists s', acquire (repeat [EvRelease] k) s = Some (true, s') /\
              count_ s' = 0 /\ maxCount_ s' = 0 /\
              condition_ s' = (condition_ s + Z.to_nat (1 - count_ s))%nat).
Proof.
  revert s; induction k as [|k IH]; intros s Hm Hi Hc.
  - cbn [repeat]. split; intros Hk; [|lia].
    apply acquire_blocked, Hc.
  - cbn [repeat acquire]. destruct (Z.leb_spec (count_ s) 0) as [_|]; [|lia].
    cbn [run step fst].
    assert (Hr : count_ (release s) = count_ s + 1).
    { unfold release. rewrite Hm; cbn [Z.eqb orb signal count_].
      apply (count_incr s Hi). unfold is_int, INT_MAX in *. lia. }
    assert (Hrm : maxCount_ (release s) = 0)
      by (rewrite <- Hm; apply (step_maxCount s EvRelease)).
    assert (Hri : is_int (count_ (release s)))
      by (apply (step_is_int s EvRelease Hi)).
    assert (Hrs : condition_ (release s) = S (condition_ s))
      by (unfold release; rewrite Hm; reflexivity).
    destruct (Z.le_gt_cases (count_ (release s)) 0) as [Hle|Hgt].
    + destruct (IH (release s) Hrm Hri Hle) as [IH1 IH2].
      split; intros Hk.
      * apply IH1. lia.
      * destruct IH2 as (s' & Ha & H0 & Hm' & Hs'); [lia|].
        exists s'. repeat split; auto.
        rewrite Hs', Hrs, Hr.
        replace (1 - count_ s) with (Z.succ (1 - (count_ s + 1))) by lia.
        rewrite Z2Nat.inj_succ by lia. lia.
    + split; intros Hk; [lia|].
      rewrite acquire_positive by exact Hgt.
      exists (decr (release s)). split; [reflexivity|].
      split; [rewrite count_decr; [lia|exact Hri|exact Hgt]|].
      split; [exact Hrm|].
      cbn [decr condition_]. rewrite Hrs.
      replace (1 - count_ s) with 1 by lia. cbn. lia.
Qed.

Lemma acquire_returns_on_last_release_witness :
  maxCount_ (make (-2)) = 0 /\ is_int (count_ (make (-2))) /\
  count_ (make (-2)) <= 0 /\
  acquire (repeat [EvRelease] 2) (make (-2)) = None /\
  exists s', acquire (repeat [EvRelease] 5) (make (-2)) = Some (true, s') /\
             count_ s' = 0 /\ maxCount_ s' = 0 /\
             condition_ s' = (condition_ (make (-2))
                              + Z.to_nat (1 - count_ (make (-2))))%nat.
Proof.
  assert (Hm : maxCount_ (make (-2)) = 0) by reflexivity.
  assert (Hi : is_int (count_ (make (-2))))
    by (unfold is_int, INT_MIN, INT_MAX; cbn; lia).
  assert (Hc : count_ (make (-2)) <= 0) by (cbn; lia).
  split; [exact Hm|]. split; [exact Hi|]. split; [exact Hc|]. split.
  - apply (proj1 (acquire_returns_on_last_release 2 (make (-2)) Hm Hi Hc)).
    cbn; lia.
  - apply (proj2 (acquire_returns_on_last_release 5 (make (-2)) Hm Hi Hc)).
    cbn; lia.
Defined.

(** A [release] followed by a [tryAcquire] on a semaphore of count [c >= 0]:
    below the cap (or without cap) the pair gives the count back as it was,
    with one signal sent; at the cap the release is dropped and the
    [tryAcquire] takes the count down to [c - 1]. *)
Theorem release_then_tryAcquire (s : sem) :
  is_int (count_ s) -> is_int (maxCount_ s) -> 0 <= count_ s ->
  ((maxCount_ s = 0 /\ count_ s < INT_MAX) \/ count_ s < maxCount_ s ->
   tryAcquire (release s) = (true, signal s)) /\
  (maxCount_ s <> 0 -> count_ s = maxCount_ s ->
   fst (tryAcquire (release s)) = true /\
   count_ (snd (tryAcquire (release s))) = count_ s - 1).
Proof.
  intros Hi Him H0. split.
  - intros Hbelow.
    assert (Hinc : (maxCount_ s =? 0) || (count_ s <? maxCount_ s) = true).
    { destruct Hbelow as [[-> _]|Hlt]; [reflexivity|].
      apply orb_true_iff; right. now apply Z.ltb_lt. }
    assert (Hlt : count_ s < INT_MAX)
      by (destruct Hbelow as [[_ H]|H];
          unfold is_int, INT_MAX in *; lia).
    unfold release. rewrite Hinc.
    unfold tryAcquire, decr, signal, incr; cbn [count_ maxCount_ condition_].
    rewrite !(to_int_small (count_ s + 1))
      by (unfold is_int, INT_MIN, INT_MAX in *; lia).
    destruct (Z.ltb_spec 0 (count_ s + 1)) as [_|]; [|lia].
    replace (count_ s + 1 - 1) with (count_ s) by lia.
    rewrite (to_int_small (count_ s)) by exact Hi.
    reflexivity.
  - intros Hm He.
    unfold release.
    destruct (Z.eqb_spec (maxCount_ s) 0) as [|_]; [contradiction|].
    destruct (Z.ltb_spec (count_ s) (maxCount_ s)) as [|_]; [lia|].
    cbn [orb]. unfold tryAcquire. cbn [signal count_].
    destruct (Z.ltb_spec 0 (count_ s)) as [Hp|Hn]; [|lia].
    cbn [fst snd]. split; [reflexivity|].
    cbn. apply to_int_small. unfold is_int, INT_MIN, INT_MAX in *. lia.
Qed.

Lemma release_then_tryAcquire_witness :
  is_int (count_ (make_capped 2 2)) /\ is_int (maxCount_ (make_capped 2 2)) /\
  0 <= count_ (make_capped 2 2) /\
  maxCount_ (make_capped 2 2) <> 0 /\
  count_ (make_capped 2 2) = maxCount_ (make_capped 2 2) /\
  fst (tryAcquire (release (make_capped 2 2))) = true /\
  count_ (snd (tryAcquire (release (make_capped 2 2))))
  = count_ (make_capped 2 2) - 1.
Proof.
  assert (Hi : is_int (count_ (make_capped 2 2)))
    by (unfold is_int, INT_MIN, INT_MAX; cbn; lia).
  assert (Him : is_int (maxCount_ (make_capped 2 2)))
    by (unfold is_int, INT_MIN, INT_MAX; cbn; lia).
  assert (H0 : 0 <= count_ (make_capped 2 2)) by (cbn; lia).
  assert (Hm : maxCount_ (make_capped 2 2) <> 0) by (cbn; lia).
  assert (He : count_ (make_capped 2 2) = maxCount_ (make_capped 2 2))
    by reflexivity.
  split; [exact Hi|]. split; [exact Him|]. split; [exact H0|].
  split; [exact Hm|]. split; [exact He|].
  exact (proj2 (release_then_tryAcquire (make_capped 2 2) Hi Him H0) Hm He).
Defined.

End SemaphoreOverloads.

(* ===================================================================== *)
(** * The runtime heap *)
(* ===================================================================== *)

Section HeapFacts.
Import Runtime.

Lemma lookup_new_same (o : Object) (st : state) :
  lookup (snd (new o st)) (next st) = Some o.
Proof. unfold lookup, new; cbn. now rewrite Nat.eqb_refl. Qed.

Lemma lookup_new_other (o : Object) (st : state) (b : addr) :
  b <> next st -> lookup (snd (new o st)) b = lookup st b.
Proof.
  intros Hb. unfold lookup, new; cbn.
  destruct (Nat.eqb_spec (next st) b); [congruence|reflexivity].
Qed.

Lemma lookup_delete_same (a : addr) (st : state) :
  lookup (delete a st) a = None.
Proof.
  unfold lookup, delete; cbn.
  induction (heap st) as [|[x o] h IH]; cbn; [reflexivity|].
  destruct (Nat.eqb_spec x a) as [->|Hne]; cbn; [exact IH|].
  destruct (Nat.eqb_spec x a); [contradiction|exact IH].
Qed.

Lemma lookup_delete_other (a b : addr) (st : state) :
  b <> a -> lookup (delete a st) b = lookup st b.
Proof.
  intros Hb. unfold lookup, delete; cbn.
  induction (heap st) as [|[x o] h IH]; cbn; [reflexivity|].
  destruct (Nat.eqb_spec x a) as [->|Hne]; cbn.
  - destruct (Nat.eqb_spec a b); [congruence|exact IH].
  - destruct (Nat.eqb_spec x b); [reflexivity|exact IH].
Qed.

Lemma lookup_store_same (a : addr) (o o' : Object) (st : state) :
  lookup st a = Some o' -> lookup (store a o st) a = Some o.
Proof.
  unfold lookup, store; cbn.
  induction (heap st) as [|[x p] h IH]; cbn; [discriminate|].
  destruct (Nat.eqb_spec x a) as [->|Hne]; cbn.
  - now rewrite Nat.eqb_refl.
  - destruct (Nat.eqb_spec x a); [contradiction|exact IH].
Qed.

Lemma lookup_store_other (a b : addr) (o : Object) (st : state) :
  b <> a -> lookup (store a o st) b = lookup st b.
Proof.
  intros Hb. unfold lookup, store; cbn.
  induction (heap st) as [|[x p] h IH]; cbn; [reflexivity|].
  destruct (Nat.eqb_spec x a) as [->|Hne]; cbn.
  - destruct (Nat.eqb_spec a b); [congruence|exact IH].
  - destruct (Nat.eqb_spec x b); [reflexivity|exact IH].
Qed.

Lemma delete_next (a : addr) (st : state) : next (delete a st) = next st.
Proof. reflexivity. Qed.

Lemma delete_pool (a : addr) (st : state) : pool (delete a st) = pool st.
Proof. reflexivity. Qed.

Lemma store_next (a : addr) (o : Object) (st : state) :
  next (store a o st) = next st.
Proof. reflexivity. Qed.

Lemma store_pool (a : addr) (o : Object) (st : state) :
  pool (store a o st) = pool st.
Proof. reflexivity. Qed.

End HeapFacts.

(* ===================================================================== *)
(** * The completion latch behind the facade *)
(* ===================================================================== *)

Section SynchFacts.
Import CInt Runtime.

Lemma to_int_high (z : Z) : 2 ^ 31 <= z < 2 ^ 32 -> to_int z = z - 2 ^ 32.
Proof.
  intros H. unfold to_int.
  replace (z + 2 ^ 31) with ((z - 2 ^ 31) + 1 * 2 ^ 32) by lia.
  rewrite Z_mod_plus_full, Z.mod_small; lia.
Qed.

Lemma to_uint32_minus_one : to_uint32 (to_uint32 0 - 1) = 2 ^ 32 - 1.
Proof. vm_compute. reflexivity. Qed.

Lemma synch_count_created (n : Z) (st : state) :
  synch_count (snd (__ares_create_synch n st)) (next st)
  = Some (to_int (- to_int (to_uint32 (to_uint32 n - 1)))).
Proof.
  unfold synch_count, __ares_create_synch. rewrite lookup_new_same.
  reflexivity.
Qed.

(** The count [__ares_create_synch(n)] gives the new latch, [n] a
    [uint32_t]: [1] for [n = 0]; [-(n-1)] for [1 <= n <= 2^31]; and for
    larger [n], where [n - 1] no longer fits [int], the positive value
    [2^32 + 1 - n], a latch that is open from the start. *)
Theorem create_synch_count (n : Z) (st : state) :
  fst (__ares_create_synch n st) = next st /\
  (n = 0 ->
   synch_count (snd (__ares_create_synch n st)) (next st) = Some 1) /\
  (1 <= n <= 2 ^ 31 ->
   synch_count (snd (__ares_create_synch n st)) (next st)
   = Some (- (n - 1))) /\
  (2 ^ 31 + 1 < n < 2 ^ 32 ->
   synch_count (snd (__ares_create_synch n st)) (next st)
   = Some (2 ^ 32 + 1 - n)).
Proof.
  split; [reflexivity|].
  rewrite synch_count_created.
  split; [intros ->; vm_compute; reflexivity|].
  split; intros Hn.
  - rewrite (to_uint32_small n) by lia.
    rewrite (to_uint32_small (n - 1)) by lia.
    rewrite (to_int_small (n - 1))
      by (unfold is_int, INT_MIN, INT_MAX; lia).
    rewrite to_int_small by (unfold is_int, INT_MIN, INT_MAX; lia).
    reflexivity.
  - rewrite (to_uint32_small n) by lia.
    rewrite (to_uint32_small (n - 1)) by lia.
    rewrite (to_int_high (n - 1)) by lia.
    rewrite to_int_small by (unfold is_int, INT_MIN, INT_MAX; lia).
    f_equal. lia.
Qed.

Lemma create_synch_count_witness :
  1 <= 4 <= 2 ^ 31 /\
  synch_count (snd (__ares_create_synch 4 empty)) (next empty)
  = Some (- (4 - 1)) /\
  2 ^ 31 + 1 < 2 ^ 32 - 1 < 2 ^ 32 /\
  synch_count (snd (__ares_create_synch (2 ^ 32 - 1) empty)) (next empty)
  = Some (2 ^ 32 + 1 - (2 ^ 32 - 1)).
Proof.
  assert (H4 : 1 <= 4 <= 2 ^ 31) by lia.
  assert (Hb : 2 ^ 31 + 1 < 2 ^ 32 - 1 < 2 ^ 32) by lia.
  destruct (create_synch_count 4 empty) as (_ & _ & H & _).
  destruct (create_synch_count (2 ^ 32 - 1) empty) as (_ & _ & _ & H').
  split; [exact H4|]. split; [exact (H H4)|]. split; [exact Hb|].
  exact (H' Hb).
Defined.

End SynchFacts.

Section FacadeSteps.
Import CInt Runtime.

Lemma queue_func_next (synch fp : addr) (i p : Z) (st : state) :
  next (__ares_queue_func synch fp i p st) = S (next st).
Proof. reflexivity. Qed.

Lemma queue_func_pool (synch fp : addr) (i p : Z) (st : state) :
  pool (__ares_queue_func synch fp i p st)
  = pool st ++ [mkItem fp (next st) p].
Proof. reflexivity. Qed.

Lemma queue_func_lookup_new (synch fp : addr) (i p : Z) (st : state) :
  lookup (__ares_queue_func synch fp i p st) (next st)
  = Some (OFuncArg (mkFuncArg synch (to_int i))).
Proof.
  change (__ares_queue_func synch fp i p st)
    with (ThreadPool_push fp (next st) p
            (snd (new (OFuncArg (mkFuncArg synch (to_int i))) st))).
  apply lookup_new_same.
Qed.

Lemma queue_func_lookup_other (synch fp : addr) (i p : Z) (st : state)
    (b : addr) :
  b <> next st -> lookup (__ares_queue_func synch fp i p st) b = lookup st b.
Proof.
  intros Hb.
  change (__ares_queue_func synch fp i p st)
    with (ThreadPool_push fp (next st) p
            (snd (new (OFuncArg (mkFuncArg synch (to_int i))) st))).
  now apply lookup_new_other.
Qed.

Lemma queue_funcs_spec (synch fp : addr) (p : Z) (indices : list Z)
    (st : state) :
  let st' := queue_funcs synch fp p indices st in
  next st' = (next st + length indices)%nat /\
  pool st' = pool st ++ map (fun a => mkItem fp a p)
                            (seq (next st) (length indices)) /\
  (forall b, (b < next st)%nat -> lookup st' b = lookup st b) /\
  (forall b, (next st + length indices <= b)%nat ->
             lookup st' b = lookup st b) /\
  (forall b, (next st <= b < next st + length indices)%nat ->
             exists idx, lookup st' b = Some (OFuncArg (mkFuncArg synch idx))).
Proof.
  revert st; induction indices as [|i indices IH]; intros st; cbn zeta.
  - cbn. rewrite Nat.add_0_r, app_nil_r. repeat split; auto. intros b Hb. lia.
  - unfold queue_funcs; cbn [fold_left length seq map].
    fold (queue_funcs synch fp p indices (__ares_queue_func synch fp i p st)).
    specialize (IH (__ares_queue_func synch fp i p st)). cbn zeta in IH.
    rewrite queue_func_next, queue_func_pool in IH.
    destruct IH as (IHn & IHp & IHlo & IHhi & IHmid).
    split; [rewrite IHn; lia|].
    split; [rewrite IHp, <- app_assoc; reflexivity|].
    split; [|split].
    + intros b Hb. rewrite IHlo by lia.
      apply queue_func_lookup_other. lia.
    + intros b Hb. rewrite IHhi by lia.
      apply queue_func_lookup_other. lia.
    + intros b Hb. destruct (Nat.eq_dec b (next st)) as [->|Hne].
      * exists (to_int i). rewrite IHlo by lia.
        apply queue_func_lookup_new.
      * apply IHmid. lia.
Qed.

Lemma finish_func_step (a0 b : addr) (idx : Z) (s : Synch) (st : state) :
  b <> a0 ->
  lookup st b = Some (OFuncArg (mkFuncArg a0 idx)) ->
  lookup st a0 = Some (OSynch s) ->
  exists st',
    __ares_finish_func b st = Some st' /\
    lookup st' a0 = Some (OSynch (Synch_release s)) /\
    lookup st' b = None /\
    (forall x, x <> a0 -> x <> b -> lookup st' x = lookup st x) /\
    pool st' = pool st /\ next st' = next st.
Proof.
  intros Hne Hb Ha. unfold __ares_finish_func. rewrite Hb. cbn [synch].
  rewrite Ha. eexists. split; [reflexivity|].
  split.
  { rewrite lookup_delete_other by congruence.
    eapply lookup_store_same, Ha. }
  split; [apply lookup_delete_same|].
  split; [|split; reflexivity].
  intros x Hxa Hxb.
  rewrite lookup_delete_other by exact Hxb.
  apply lookup_store_other, Hxa.
Qed.

Lemma finish_funcs_any_order (a0 : addr) (ds : list addr) :
  forall (st : state) (s : Synch),
  NoDup ds -> ~ In a0 ds ->
  lookup st a0 = Some (OSynch s) ->
  (forall b, In b ds ->
             exists idx, lookup st b = Some (OFuncArg (mkFuncArg a0 idx))) ->
  exists st',
    finish_funcs ds st = Some st' /\
    lookup st' a0 = Some (OSynch (Nat.iter (length ds) Synch_release s)) /\
    (forall b, In b ds -> lookup st' b = None) /\
    (forall x, x <> a0 -> ~ In x ds -> lookup st' x = lookup st x) /\
    pool st' = pool st /\ next st' = next st.
Proof.
  induction ds as [|d ds IH]; intros st s Hnd Ha0 Hs Hargs.
  - exists st. cbn. repeat split; auto. intros b [].
  - inversion Hnd as [|? ? Hd Hnd']; subst.
    destruct (Hargs d (or_introl eq_refl)) as [idx Hd0].
    assert (Hda : d <> a0) by (intros ->; apply Ha0; now left).
    destruct (finish_func_step a0 d idx s st Hda Hd0 Hs)
      as (st1 & Hf & H1a & H1d & H1o & H1p & H1n).
    destruct (IH st1 (Synch_release s) Hnd') as (st' & Hfs & Ha & Hb & Ho & Hp & Hn).
    + intros Hin. apply Ha0. now right.
    + exact H1a.
    + intros b Hb. destruct (Hargs b (or_intror Hb)) as [i Hi].
      exists i. rewrite H1o; [exact Hi| |].
      * intros ->. apply Ha0. now right.
      * intros ->. contradiction.
    + exists st'. cbn [finish_funcs]. rewrite Hf.
      split; [exact Hfs|].
      split.
      { rewrite Ha. f_equal. f_equal. cbn [length].
        rewrite Nat.iter_succ_r. reflexivity. }
      split.
      { intros b [<-|Hb']; [|now apply Hb].
        rewrite Ho; [exact H1d|exact Hda|exact Hd]. }
      split.
      { intros x Hxa Hx. rewrite Ho; [|exact Hxa|intros H; apply Hx; now right].
        apply H1o; [exact Hxa|]. intros ->. apply Hx. now left. }
      split; congruence.
Qed.

End FacadeSteps.

Section LatchProtocol.
Import CInt Runtime.

Lemma release_iter (k : nat) (s : Synch) :
  CVSemaphore.maxCount_ (sem_ s) = 0 ->
  is_int (CVSemaphore.count_ (sem_ s)) ->
  CVSemaphore.count_ (sem_ s) + Z.of_nat k <= INT_MAX ->
  CVSemaphore.count_ (sem_ (Nat.iter k Synch_release s))
  = CVSemaphore.count_ (sem_ s) + Z.of_nat k /\
  CVSemaphore.maxCount_ (sem_ (Nat.iter k Synch_release s)) = 0.
Proof.
  intros Hm Hi. induction k as [|k IH]; intros Hb.
  - cbn. split; [lia|exact Hm].
  - destruct IH as [IHc IHm]; [lia|].
    rewrite Nat.iter_succ. unfold Synch_release at 1; cbn [sem_].
    split.
    + unfold CVSemaphore.release. rewrite IHm.
      cbn [Z.eqb orb CVSemaphore.signal CVSemaphore.count_].
      rewrite count_incr; [lia| |lia].
      rewrite IHc. unfold is_int, INT_MIN, INT_MAX in *. lia.
    + rewrite <- IHm.
      apply (step_maxCount _ CVSemaphore.EvRelease).
Qed.

Lemma await_synch_step (a0 : addr) (s : Synch) (st : state) :
  lookup st a0 = Some (OSynch s) ->
  (CVSemaphore.count_ (sem_ s) <= 0 -> __ares_await_synch [] a0 st = None) /\
  (0 < CVSemaphore.count_ (sem_ s) ->
   exists st',
     __ares_await_synch [] a0 st = Some st' /\
     lookup st' a0 = None /\
     (forall x, x <> a0 -> lookup st' x = lookup st x) /\
     pool st' = pool st /\ next st' = next st).
Proof.
  intros Ha. unfold __ares_await_synch, Synch_await. rewrite Ha. split.
  - intros Hc. destruct (acquire_blocked (sem_ s) Hc) as [-> _]. reflexivity.
  - intros Hc. rewrite acquire_positive by exact Hc.
    eexists. split; [reflexivity|].
    split; [apply lookup_delete_same|].
    split; [|split; reflexivity].
    intros x Hx. rewrite lookup_delete_other by exact Hx.
    apply lookup_store_other, Hx.
Qed.

(** The parallel-for protocol through the facade, from any runtime state
    with a clean heap top.  After [create_synch(n)] and one [queue_func] per
    index ([n] of them, [1 <= n <= 2^31]), let any [d] distinct iterations
    have reached [finish_func], in any order: every one of those calls
    succeeds and the latch counts [d - (n - 1)].  While [d < n] an
    [await_synch] blocks.  Once [d = n] it returns, and then every object the
    protocol allocated is freed again (the heap is what it was before
    [create_synch]); the [n] work items are what was added to the pool. *)
Theorem parallel_for_protocol
    (st : state) (fp : addr) (prio : Z) (indices : list Z)
    (finished : list addr) :
  fresh st ->
  1 <= Z.of_nat (length indices) <= 2 ^ 31 ->
  NoDup finished ->
  incl finished (seq (S (next st)) (length indices)) ->
  let n := length indices in
  let a0 := next st in
  let st2 := queue_funcs a0 fp prio indices
               (snd (__ares_create_synch (Z.of_nat n) st)) in
  exists st3,
    finish_funcs finished st2 = Some st3 /\
    synch_count st3 a0
    = Some (Z.of_nat (length finished) - (Z.of_nat n - 1)) /\
    ((length finished < n)%nat -> __ares_await_synch [] a0 st3 = None) /\
    (length finished = n ->
     exists st4,
       __ares_await_synch [] a0 st3 = Some st4 /\
       (forall b, lookup st4 b = lookup st b) /\
       pool st4 = pool st ++ map (fun a => mkItem fp a prio) (seq (S a0) n)).
Proof.
  intros Hfresh Hn Hnd Hincl n a0 st2.
  set (r := __ares_create_synch (Z.of_nat n) st).
  assert (Hr1 : next (snd r) = S a0) by reflexivity.
  assert (Hsc : synch_count (snd r) a0 = Some (- (Z.of_nat n - 1))).
  { destruct (create_synch_count (Z.of_nat n) st) as (_ & _ & H & _).
    apply H. exact Hn. }
  assert (Hrp : pool (snd r) = pool st) by reflexivity.
  assert (Hro : forall b, b <> a0 -> lookup (snd r) b = lookup st b).
  { intros b Hb. unfold r, __ares_create_synch.
    now apply lookup_new_other. }
  assert (Hra : lookup (snd r) a0
                = Some (OSynch (Synch_new
                     (to_int (to_uint32 (to_uint32 (Z.of_nat n) - 1)))))).
  { unfold r, __ares_create_synch. apply lookup_new_same. }
  set (s0 := Synch_new (to_int (to_uint32 (to_uint32 (Z.of_nat n) - 1)))) in *.
  assert (Hs0c : CVSemaphore.count_ (sem_ s0) = - (Z.of_nat n - 1)).
  { unfold synch_count in Hsc. rewrite Hra in Hsc. now injection Hsc. }
  assert (Hs0m : CVSemaphore.maxCount_ (sem_ s0) = 0) by reflexivity.
  destruct (queue_funcs_spec a0 fp prio indices (snd r))
    as (Hqn & Hqp & Hqlo & Hqhi & Hqmid).
  fold st2 in Hqn, Hqp, Hqlo, Hqhi, Hqmid. rewrite Hr1 in *.
  assert (Hlen : (length finished <= n)%nat).
  { pose proof (NoDup_incl_length Hnd Hincl) as Hl.
    rewrite length_seq in Hl. exact Hl. }
  assert (Hnotin : ~ In a0 finished).
  { intros Hin. apply Hincl in Hin. apply in_seq in Hin. lia. }
  destruct (finish_funcs_any_order a0 finished st2 s0 Hnd Hnotin)
    as (st3 & Hf & H3a & H3d & H3o & H3p & H3n).
  { rewrite Hqlo by lia. exact Hra. }
  { intros b Hb. apply Hincl in Hb. apply in_seq in Hb.
    apply Hqmid. fold n. lia. }
  destruct (release_iter (length finished) s0 Hs0m) as [Hic Him].
  { rewrite Hs0c. unfold is_int, INT_MIN, INT_MAX. lia. }
  { rewrite Hs0c. unfold INT_MAX. lia. }
  exists st3. split; [exact Hf|].
  split.
  { unfold synch_count. rewrite H3a, Hic, Hs0c. f_equal. lia. }
  destruct (await_synch_step a0 _ st3 H3a) as [Hblock Hgo].
  split.
  - intros Hlt. apply Hblock. rewrite Hic, Hs0c. lia.
  - intros Heq. destruct Hgo as (st4 & Ha & H4a & H4o & H4p & H4n).
    { rewrite Hic, Hs0c. lia. }
    exists st4. split; [exact Ha|]. split.
    + intros b. destruct (Nat.eq_dec b a0) as [->|Hb].
      { rewrite H4a. symmetry. apply Hfresh. unfold a0. lia. }
      rewrite H4o by exact Hb.
      destruct (in_dec Nat.eq_dec b (seq (S a0) n)) as [Hin|Hout].
      * assert (Hbf : In b finished).
        { assert (Hrev : incl (seq (S a0) n) finished).
          { apply (NoDup_length_incl Hnd); [|exact Hincl].
            rewrite length_seq. lia. }
          apply Hrev, Hin. }
        rewrite (H3d b Hbf). symmetry. apply Hfresh.
        apply in_seq in Hin. unfold a0 in *. lia.
      * rewrite H3o; [|exact Hb|intros H; apply Hout, Hincl, H].
        assert (Hcase : (b < S a0)%nat \/ (S a0 + n <= b)%nat).
        { destruct (Nat.lt_ge_cases b (S a0)) as [|Hge]; [now left|right].
          destruct (Nat.lt_ge_cases b (S a0 + n)) as [Hlt|]; [|assumption].
          exfalso. apply Hout, in_seq. lia. }
        destruct Hcase as [Hlo|Hhi].
        -- rewrite Hqlo by exact Hlo. apply Hro, Hb.
        -- rewrite Hqhi by (fold n; exact Hhi). apply Hro, Hb.
    + rewrite H4p, H3p.
      change (pool st2) with (pool (queue_funcs a0 fp prio indices (snd r))).
      rewrite Hqp, Hrp. reflexivity.
Qed.

Lemma parallel_for_protocol_witness :
  fresh empty /\
  1 <= Z.of_nat (length [5; 6; 7]) <= 2 ^ 31 /\
  NoDup [3%nat; 1%nat; 2%nat] /\
  incl [3%nat; 1%nat; 2%nat] (seq (S (next empty)) (length [5; 6; 7])) /\
  exists st3,
    finish_funcs [3%nat; 1%nat; 2%nat]
      (queue_funcs (next empty) 9%nat 1 [5; 6; 7]
         (snd (__ares_create_synch 3 empty))) = Some st3 /\
    synch_count st3 (next empty) = Some 1.
Proof.
  assert (Hf : fresh empty) by (intros b _; reflexivity).
  assert (Hn : 1 <= Z.of_nat (length [5; 6; 7]) <= 2 ^ 31) by (cbn; lia).
  assert (Hnd : NoDup [3%nat; 1%nat; 2%nat]).
  { repeat constructor; cbn; intuition discriminate. }
  assert (Hi : incl [3%nat; 1%nat; 2%nat]
                    (seq (S (next empty)) (length [5; 6; 7]))).
  { intros b Hb. cbn in *. intuition. }
  split; [exact Hf|]. split; [exact Hn|]. split; [exact Hnd|].
  split; [exact Hi|].
  destruct (parallel_for_protocol empty 9%nat 1 [5; 6; 7]
              [3%nat; 1%nat; 2%nat] Hf Hn Hnd Hi) as (st3 & H1 & H2 & _).
  exists st3. split; [exact H1|exact H2].
Defined.

End LatchProtocol.

(* ===================================================================== *)
(** * Task futures behind the facade *)
(* ===================================================================== *)

Section FutureProtocol.
Import CInt Runtime Tasks.

Lemma block_set_block (a : addr) (t t0 : TaskArg) (ts : tstate) :
  block ts a = Some t0 -> block (set_block a t ts) a = Some t.
Proof.
  unfold block, set_block; cbn.
  induction (blocks ts) as [|[x p] h IH]; cbn; [discriminate|].
  destruct (Nat.eqb_spec x a) as [->|Hne]; cbn.
  - now rewrite Nat.eqb_refl.
  - destruct (Nat.eqb_spec x a); [contradiction|exact IH].
Qed.

Lemma future_after_store (ts : tstate) (a f : addr) (s s' : Synch) :
  future ts a = Some (f, s) ->
  future (mkT (store f (OSynch s') (rt ts)) (blocks ts)) a = Some (f, s').
Proof.
  unfold future, block; cbn [blocks rt].
  destruct (option_map snd (find (fun p => (fst p =? a)%nat) (blocks ts)))
    as [t|]; [|discriminate].
  destruct (futureSync t) as [g|]; [|discriminate].
  destruct (lookup (rt ts) g) as [[s1|fa]|] eqn:Hl; try discriminate.
  intros H; injection H as -> ->.
  now rewrite (lookup_store_same f (OSynch s') (OSynch s) (rt ts) Hl).
Qed.

(** The life of a task future.  [task_queue] on an argument block makes a
    fresh future of count 0 and pushes [(fn, args, 0)]; an
    [task_await_future] before the wrapper has released blocks; after
    [task_release_future] the count is 1 and the await returns; the future
    then still exists, with count 0 (nothing frees it), and a second await on
    the same block blocks. *)
Theorem task_future_protocol
    (ts : tstate) (funcPtr argsPtr : addr) (a : TaskArg) :
  block ts argsPtr = Some a ->
  exists ts1 ts2 ts3,
    __ares_task_queue funcPtr argsPtr ts = Some ts1 /\
    future_count ts1 argsPtr = Some 0 /\
    pool (rt ts1) = pool (rt ts) ++ [mkItem funcPtr argsPtr 0] /\
    __ares_task_await_future [] argsPtr ts1 = None /\
    __ares_task_release_future argsPtr ts1 = Some ts2 /\
    future_count ts2 argsPtr = Some 1 /\
    __ares_task_await_future [] argsPtr ts2 = Some ts3 /\
    future_count ts3 argsPtr = Some 0 /\
    __ares_task_await_future [] argsPtr ts3 = None.
Proof.
  intros Hb.
  set (f := next (rt ts)).
  set (s0 := Synch_new 0).
  set (ts1 := mkT (ThreadPool_push funcPtr argsPtr 0
                     (snd (new (OSynch s0) (rt ts))))
                  (blocks (set_block argsPtr
                             (mkTaskArg (Some f) (depth a)) ts))).
  assert (Hq : __ares_task_queue funcPtr argsPtr ts = Some ts1).
  { unfold __ares_task_queue. rewrite Hb. reflexivity. }
  assert (Hf1 : future ts1 argsPtr = Some (f, s0)).
  { unfold future.
    change (block ts1 argsPtr)
      with (block (set_block argsPtr (mkTaskArg (Some f) (depth a)) ts)
                  argsPtr).
    rewrite (block_set_block argsPtr _ a ts Hb). cbn [futureSync].
    change (lookup (rt ts1) f)
      with (lookup (snd (new (OSynch s0) (rt ts))) (next (rt ts))).
    rewrite lookup_new_same. reflexivity. }
  set (ts2 := mkT (store f (OSynch (Synch_release s0)) (rt ts1)) (blocks ts1)).
  assert (Hf2 : future ts2 argsPtr = Some (f, Synch_release s0))
    by (apply (future_after_store ts1 argsPtr f s0), Hf1).
  set (s3 := mkSynch (CVSemaphore.decr (sem_ (Synch_release s0)))).
  set (ts3 := mkT (store f (OSynch s3) (rt ts2)) (blocks ts2)).
  assert (Hf3 : future ts3 argsPtr = Some (f, s3))
    by (apply (future_after_store ts2 argsPtr f (Synch_release s0)), Hf2).
  exists ts1, ts2, ts3.
  split; [exact Hq|].
  split; [unfold future_count; rewrite Hf1; vm_compute; reflexivity|].
  split; [reflexivity|].
  split; [unfold __ares_task_await_future; rewrite Hf1; reflexivity|].
  split; [unfold __ares_task_release_future; rewrite Hf1; reflexivity|].
  split; [unfold future_count; rewrite Hf2; vm_compute; reflexivity|].
  split; [unfold __ares_task_await_future; rewrite Hf2; reflexivity|].
  split; [unfold future_count; rewrite Hf3; vm_compute; reflexivity|].
  unfold __ares_task_await_future; rewrite Hf3; reflexivity.
Qed.

Lemma task_future_protocol_witness :
  let ts := snd (__ares_alloc 16 (mkT empty [])) in
  block ts 0%nat = Some (mkTaskArg None None) /\
  exists ts1,
    __ares_task_queue 7%nat 0%nat ts = Some ts1 /\
    future_count ts1 0%nat = Some 0.
Proof.
  intros ts.
  assert (Hb : block ts 0%nat = Some (mkTaskArg None None)) by reflexivity.
  split; [exact Hb|].
  destruct (task_future_protocol ts 7%nat 0%nat _ Hb)
    as (ts1 & _ & _ & H1 & H2 & _).
  exists ts1. split; [exact H1|exact H2].
Defined.

End FutureProtocol.

(* ===================================================================== *)
(** * Message framing *)
(* ===================================================================== *)

Section Framing.
Import CInt Messages.

Lemma uint32_bytes_roundtrip (z : Z) :
  0 <= z < 2 ^ 32 -> uint32_of_bytes (bytes_of_uint32 z) = z.
Proof.
  intros Hz. unfold bytes_of_uint32, uint32_of_bytes.
  pose proof (Z.div_mod z 256 ltac:(lia)) as H0.
  pose proof (Z.div_mod (z / 256) 256 ltac:(lia)) as H1.
  pose proof (Z.div_mod (z / 256 / 256) 256 ltac:(lia)) as H2.
  assert (H3 : 0 <= z / 256 / 256 / 256 < 256).
  { split.
    - repeat apply Z.div_pos; lia.
    - repeat (apply Z.div_lt_upper_bound; [lia|]). lia. }
  rewrite (Z.mod_small (z / 256 / 256 / 256)) by exact H3.
  lia.
Qed.

Lemma receive_app (a rest : list Z) :
  receive (length a) (a ++ rest) = Some (a, rest).
Proof.
  unfold receive. rewrite length_app.
  destruct (Nat.leb_spec (length a) (length a + length rest)); [|lia].
  rewrite firstn_app, Nat.sub_diag, firstn_all, skipn_app, Nat.sub_diag,
    skipn_all.
  cbn. now rewrite app_nil_r.
Qed.

(** What one round of [runSend] writes, one round of [runReceive] reads back
    from the front of the stream: the same type byte, the same size and the
    [size] bytes of payload, as a buffer it does not own, leaving what follows
    in the stream untouched. *)
Theorem frame_roundtrip (msg : MessageBuffer) (rest : list Z) :
  0 <= type_ msg < 256 ->
  0 <= size_ msg < 2 ^ 32 ->
  (Z.to_nat (size_ msg) <= length (buf_ msg))%nat ->
  runReceive_message (runSend_bytes msg ++ rest)
  = Some (mkMsg (type_ msg)
                (firstn (Z.to_nat (size_ msg)) (buf_ msg))
                (size_ msg) false,
          rest).
Proof.
  intros Ht Hs Hl. unfold runReceive_message, runSend_bytes.
  set (payload := firstn (Z.to_nat (size_ msg)) (buf_ msg)).
  assert (Hp : length payload = Z.to_nat (size_ msg))
    by (unfold payload; apply firstn_length_le, Hl).
  rewrite <- app_assoc.
  change 5%nat with (length (bytes_of_uint32 (size_ msg) ++ [type_ msg mod 256])).
  rewrite receive_app.
  change (firstn 4 (bytes_of_uint32 (size_ msg) ++ [type_ msg mod 256]))
    with (bytes_of_uint32 (size_ msg)).
  rewrite uint32_bytes_roundtrip by exact Hs.
  change (nth 4 (bytes_of_uint32 (size_ msg) ++ [type_ msg mod 256]) 0)
    with (type_ msg mod 256).
  rewrite Z.mod_small by exact Ht.
  rewrite <- Hp, receive_app. reflexivity.
Qed.

Lemma frame_roundtrip_witness :
  let msg := MessageBuffer_new MT_Raw [104; 105; 33] 3 true in
  0 <= type_ msg < 256 /\ 0 <= size_ msg < 2 ^ 32 /\
  (Z.to_nat (size_ msg) <= length (buf_ msg))%nat /\
  runReceive_message (runSend_bytes msg ++ [9; 9])
  = Some (mkMsg (type_ msg) (firstn (Z.to_nat (size_ msg)) (buf_ msg))
                (size_ msg) false, [9; 9]).
Proof.
  intros msg.
  assert (Ht : 0 <= type_ msg < 256) by (cbn; unfold MT_Raw; lia).
  assert (Hs : 0 <= size_ msg < 2 ^ 32) by (vm_compute; split; congruence).
  assert (Hl : (Z.to_nat (size_ msg) <= length (buf_ msg))%nat)
    by (vm_compute; lia).
  split; [exact Ht|]. split; [exact Hs|]. split; [exact Hl|].
  exact (frame_roundtrip msg [9; 9] Ht Hs Hl).
Defined.

End Framing.

(* ===================================================================== *)
(** * The communicator's barrier *)
(* ===================================================================== *)

Section BarrierFacts.
Import CInt CVSemaphore Messages.

Lemma run_releases (k : nat) (s : sem) :
  maxCount_ s = 0 -> is_int (count_ s) ->
  count_ s + Z.of_nat k <= INT_MAX ->
  count_ (fst (run s (repeat EvRelease k))) = count_ s + Z.of_nat k /\
  maxCount_ (fst (run s (repeat EvRelease k))) = 0.
Proof.
  revert s; induction k as [|k IH]; intros s Hm Hi Hb.
  - cbn. split; [lia|exact Hm].
  - cbn [repeat]. rewrite run_cons; cbn [fst step].
    assert (Hc : count_ (release s) = count_ s + 1).
    { unfold release. rewrite Hm; cbn [Z.eqb orb signal count_].
      apply (count_incr s Hi). lia. }
    destruct (IH (release s)) as [IHc IHm].
    + rewrite <- Hm. apply (step_maxCount s EvRelease).
    + apply (step_is_int s EvRelease Hi).
    + lia.
    + split; [lia|exact IHm].
Qed.

Lemma handleBarriers_run (k : nat) (s : sem) :
  handleBarriers k (mkComm (Some s))
  = Some (mkComm (Some (fst (run s (repeat EvRelease k))))).
Proof.
  revert s; induction k as [|k IH]; intros s; [reflexivity|].
  change (handleBarriers (S k) (mkComm (Some s)))
    with (handleBarriers k (mkComm (Some (release s)))).
  rewrite IH. cbn [repeat]. rewrite run_cons. reflexivity.
Qed.

(** The barrier of a group of [g] processes, [2 <= g <= INT_MAX].  [init]
    may be called once.  The first [barrier()] wait stays blocked while fewer
    than [g - 1] barrier messages have been handled and gets through once
    [g - 1] have, leaving the count at 0, not at the initial [2 - g]: from
    then on a single barrier message lets the next [barrier()] through,
    whatever [g] is. *)
Theorem barrier_rounds (g : Z) (k : nat) :
  2 <= g <= INT_MAX ->
  exists c0,
    init g (mkComm None) = Some c0 /\
    init g c0 = None /\
    option_map count_ (barrier_ c0) = Some (2 - g) /\
    (Z.of_nat k < g - 1 ->
     exists c, handleBarriers k c0 = Some c /\ barrier_wait c = Some None) /\
    (Z.of_nat k = g - 1 ->
     exists c c' c2 c3,
       handleBarriers k c0 = Some c /\
       barrier_wait c = Some (Some c') /\
       option_map count_ (barrier_ c') = Some 0 /\
       handleBarriers 1 c' = Some c2 /\
       barrier_wait c2 = Some (Some c3)).
Proof.
  intros Hg.
  assert (Hc0 : to_int (2 - to_int g) = 2 - g).
  { rewrite (to_int_small g) by (unfold is_int, INT_MIN, INT_MAX in *; lia).
    apply to_int_small. unfold is_int, INT_MIN, INT_MAX in *. lia. }
  set (s0 := make (to_int (2 - to_int g))).
  assert (Hs0 : count_ s0 = 2 - g) by (unfold s0; cbn; exact Hc0).
  exists (mkComm (Some s0)).
  split; [reflexivity|]. split; [reflexivity|].
  split; [cbn [barrier_ option_map]; now rewrite Hs0|].
  set (sk := fst (run s0 (repeat EvRelease k))).
  assert (Hrun : Z.of_nat k <= g - 1 ->
                 count_ sk = count_ s0 + Z.of_nat k /\ maxCount_ sk = 0).
  { intros Hk. apply (run_releases k s0 eq_refl).
    - rewrite Hs0. unfold is_int, INT_MIN, INT_MAX in *. lia.
    - rewrite Hs0. unfold INT_MAX in *. lia. }
  split.
  - intros Hk. destruct Hrun as [Hrc Hrm]; [lia|].
    exists (mkComm (Some sk)).
    split; [apply handleBarriers_run|].
    unfold barrier_wait; cbn [barrier_].
    destruct (acquire_blocked sk) as [-> _]; [lia|reflexivity].
  - intros Hk. destruct Hrun as [Hrc Hrm]; [lia|].
    assert (Hpos : 0 < count_ sk) by lia.
    assert (Hik : is_int (count_ sk))
      by (rewrite Hrc, Hs0; unfold is_int, INT_MIN, INT_MAX in *; lia).
    assert (Hd : count_ (decr sk) = 0) by (rewrite count_decr; [lia|exact Hik|exact Hpos]).
    set (s2 := fst (run (decr sk) (repeat EvRelease 1))).
    destruct (run_releases 1 (decr sk)) as [H2c H2m].
    { cbn [decr maxCount_]. exact Hrm. }
    { rewrite Hd. unfold is_int, INT_MIN, INT_MAX. lia. }
    { rewrite Hd. unfold INT_MAX. lia. }
    fold s2 in H2c, H2m.
    exists (mkComm (Some sk)), (mkComm (Some (decr sk))),
           (mkComm (Some s2)), (mkComm (Some (decr s2))).
    split; [apply handleBarriers_run|].
    split.
    { unfold barrier_wait; cbn [barrier_].
      now rewrite acquire_positive by exact Hpos. }
    split; [cbn [barrier_ option_map]; now rewrite Hd|].
    split; [apply handleBarriers_run|].
    unfold barrier_wait; cbn [barrier_].
    rewrite acquire_positive by lia. reflexivity.
Qed.

Lemma barrier_rounds_witness :
  2 <= 4 <= INT_MAX /\ Z.of_nat 3 = 4 - 1 /\
  exists c0,
    init 4 (mkComm None) = Some c0 /\
    option_map count_ (barrier_ c0) = Some (2 - 4) /\
    exists c c',
      handleBarriers 3 c0 = Some c /\ barrier_wait c = Some (Some c') /\
      option_map count_ (barrier_ c') = Some 0.
Proof.
  assert (Hg : 2 <= 4 <= INT_MAX) by (unfold INT_MAX; lia).
  assert (Hk : Z.of_nat 3 = 4 - 1) by reflexivity.
  split; [exact Hg|]. split; [exact Hk|].
  destruct (barrier_rounds 4 3 Hg) as (c0 & H1 & _ & H3 & _ & H5).
  destruct (H5 Hk) as (c & c' & _ & _ & Ha & Hb & Hc & _).
  exists c0. split; [exact H1|]. split; [exact H3|].
  exists c, c'. auto.
Defined.

End BarrierFacts.

(* ===================================================================== *)
(** * The pass over all constructs *)
(* ===================================================================== *)

Section PassFacts.
Import IR Builder HLIR Pass.

(** Lowering a module whose constructs are all parallel-reduces with
    markers: the pass returns [true], allocates nothing, and the module's
    instructions afterwards are the ones before, in order, minus exactly
    those whose address is one of the markers. *)
Theorem lowerToIR_reduces
    (layout : Ty -> Z) (uses : Value -> list User)
    (cs : list HLIRConstruct) (markers : list ident)
    (m : Mod) (n : ident) (p : option InsertPoint) :
  map reduce_marker cs = map Some markers ->
  exists m',
    lowerToIR_ layout uses cs (mkState m n p) = Some (true, mkState m' n p) /\
    mod_insts m'
    = filter (fun x => negb (existsb (Nat.eqb (iid x)) markers)) (mod_insts m) /\
    map fid m' = map fid m.
Proof.
  unfold lowerToIR_, bind.
  revert markers m. induction cs as [|c cs IH]; intros markers m Hm.
  - destruct markers; [|discriminate]. exists m. cbn.
    split; [reflexivity|]. split; [|reflexivity].
    induction (mod_insts m) as [|x l IHl]; cbn; [reflexivity|].
    now rewrite <- IHl.
  - destruct markers as [|k markers]; [discriminate|].
    cbn [map] in Hm. injection Hm as Hc Hcs.
    destruct c as [pf|r|t]; cbn [reduce_marker] in Hc; try discriminate.
    destruct (IH markers (removeFromParent k m) Hcs) as (m' & Hrun & Hi & Hf).
    exists m'. split; [|split].
    + cbn [forEach]. unfold bind at 1.
      destruct (lowerParallelReduce_frame r k m n p Hc) as (Hstep & _).
      rewrite Hstep. exact Hrun.
    + rewrite Hi, mod_insts_remove. unfold remove_inst.
      induction (mod_insts m) as [|x l IHl]; cbn; [reflexivity|].
      rewrite (Nat.eqb_sym (iid x) k).
      destruct (Nat.eqb_spec k (iid x)); cbn; [exact IHl|].
      destruct (existsb (Nat.eqb (iid x)) markers); cbn;
        [exact IHl|now rewrite IHl].
    + rewrite Hf. apply removeFromParent_fids.
Qed.

Lemma lowerToIR_reduces_witness :
  map reduce_marker [CParallelReduce Samples.sampleReduce] = map Some [3%nat] /\
  exists m',
    lowerToIR_ Samples.sampleLayout Samples.taskUses
      [CParallelReduce Samples.sampleReduce]
      (mkState Samples.reduceModule 30%nat None)
    = Some (true, mkState m' 30%nat None) /\
    map fid m' = map fid Samples.reduceModule.
Proof.
  assert (H : map reduce_marker [CParallelReduce Samples.sampleReduce]
              = map Some [3%nat]) by reflexivity.
  split; [exact H|].
  destruct (lowerToIR_reduces Samples.sampleLayout Samples.taskUses _ _
              Samples.reduceModule 30%nat None H) as (m' & H1 & _ & H3).
  exists m'. split; [exact H1|exact H3].
Defined.

(** A task whose function is only used by constants, by instructions that
    are not calls, or by calls inside its own wrapper: [lowerTask_] changes
    nothing. *)
Theorem lowerTask_passes_over_wrapper
    (layout : Ty -> Z) (uses : Value -> list User) (task : HLIRTask)
    (m : Mod) (n : ident) (p : option InsertPoint) :
  Forall (passed_over m task) (uses (VFunc (task_function task))) ->
  lowerTask_ layout uses task (mkState m n p) = Some (tt, mkState m n p).
Proof.
  unfold lowerTask_.
  induction (uses (VFunc (task_function task))) as [|u us IH]; intros Hall.
  - reflexivity.
  - inversion Hall as [|? ? Hu Hus]; subst.
    cbn [forEach]. unfold bind at 1.
    destruct u as [i|]; cbn [passed_over] in Hu.
    + destruct Hu as (ci & Hci & Hcase).
      unfold bind at 1, getModule; cbn [module_]. rewrite Hci.
      destruct Hcase as [Hno|[Hcall Hpar]].
      * destruct (opcode ci); try (apply IH, Hus). congruence.
      * rewrite Hcall. unfold bind at 1, expect. rewrite Hpar.
        unfold ret at 1. rewrite Nat.eqb_refl. unfold ret at 1.
        apply IH, Hus.
    + unfold ret at 1. apply IH, Hus.
Qed.

Lemma lowerTask_passes_over_wrapper_witness :
  let uses := fun v : Value =>
    match v with VFunc 10%nat => [UInst 22%nat; UConst; UInst 12%nat] | _ => [] end in
  let m :=
    [mkFunc 10 "f" [mkBlock 11 "entry" [mkInst 12 "" OpRet [VFunc 10] VoidTy]];
     mkFunc 20 "hlir.task_wrapper"
       [mkBlock 21 "entry" [mkInst 22 "ret" OpCall [VFunc 10] I32Ty;
                            mkInst 23 "" OpRet [] VoidTy]]]%nat in
  Forall (passed_over m Samples.sampleTask)
         (uses (VFunc (task_function Samples.sampleTask))) /\
  lowerTask_ Samples.sampleLayout uses Samples.sampleTask (mkState m 30%nat None)
  = Some (tt, mkState m 30%nat None).
Proof.
  intros uses m.
  assert (H : Forall (passed_over m Samples.sampleTask)
                (uses (VFunc (task_function Samples.sampleTask)))).
  { repeat constructor.
    - eexists. split; [reflexivity|]. right. split; reflexivity.
    - eexists. split; [reflexivity|]. left. discriminate. }
  split; [exact H|].
  exact (lowerTask_passes_over_wrapper Samples.sampleLayout uses
           Samples.sampleTask m 30%nat None H).
Defined.

End PassFacts.

(* ===================================================================== *)
(** * Running the lowered queue loop *)
(* ===================================================================== *)

Section LoopFacts.
Import IR Builder HLIR Exec Samples Loop.
Import CInt.

Lemma loop_is (s e : Z) : block_insts (loweredMain (s,e)) 29%nat = Some (loopBlock e).
Proof. lazy -[to_uint32 Z.sub Z.add]. reflexivity. Qed.
Lemma exit_is (s e : Z) : block_insts (loweredMain (s,e)) 38%nat = Some exitBlock.
Proof. lazy -[to_uint32 Z.sub Z.add]. reflexivity. Qed.
Lemma merge_is (s e : Z) : block_insts (loweredMain (s,e)) 40%nat = Some [mkInst 4%nat "" OpRet [] VoidTy].
Proof. lazy -[to_uint32 Z.sub Z.add]. reflexivity. Qed.

Lemma reg_set_reg (i j : ident) (r : rval) (st : xstate) :
  reg (set_reg i r st) j = if (i =? j)%nat then r else reg st j.
Proof. unfold reg, set_reg; cbn. destruct (i =? j)%nat; reflexivity. Qed.

Lemma reg_do_call (i j : ident) (c : call) (st : xstate) :
  reg (do_call i c st) j
  = if (i =? j)%nat then RHandle (length (trace st)) else reg st j.
Proof. unfold reg, do_call; cbn. destruct (i =? j)%nat; reflexivity. Qed.

Lemma reg_write (p r : rval) (st : xstate) (j : ident) :
  reg (write p r st) j = reg st j.
Proof. destruct p; reflexivity. Qed.

Lemma read_set_reg (i : ident) (r : rval) (st : xstate) (p : rval) :
  read (set_reg i r st) p = read st p.
Proof. destruct p; reflexivity. Qed.

Lemma read_do_call (i : ident) (c : call) (st : xstate) (p : rval) :
  read (do_call i c st) p = read st p.
Proof. destruct p; reflexivity. Qed.

Lemma read_write_same (b o : nat) (r : rval) (st : xstate) :
  read (write (RPtr b o) r st) (RPtr b o) = r.
Proof. unfold read, write; cbn. now rewrite !Nat.eqb_refl. Qed.

Lemma trace_set_reg (i : ident) (r : rval) (st : xstate) :
  trace (set_reg i r st) = trace st.
Proof. reflexivity. Qed.

Lemma trace_write (p r : rval) (st : xstate) : trace (write p r st) = trace st.
Proof. destruct p; reflexivity. Qed.

Lemma trace_do_call (i : ident) (c : call) (st : xstate) :
  trace (do_call i c st) = trace st ++ [c].
Proof. reflexivity. Qed.

Lemma loop_body_is (e : Z) (st : xstate) :
  fold_left (fun st x => exec_inst x st) (firstn 7 (loopBlock e)) st
  = loopBody e st.
Proof. reflexivity. Qed.

Ltac sym_regs :=
  repeat (rewrite ?reg_set_reg, ?reg_do_call, ?reg_write, ?read_set_reg,
            ?read_do_call, ?trace_set_reg, ?trace_write, ?trace_do_call;
          cbn [Nat.eqb]).

Lemma loopBody_facts (e i : Z) (st : xstate) :
  LoopInv i st ->
  LoopInv (to_uint32 (i + 1)) (loopBody e st) /\
  trace (loopBody e st) = trace st ++ [call_queue_func i] /\
  reg (loopBody e st) 37%nat
  = RInt (if to_uint32 (i + 1) <? to_uint32 e then 1 else 0).
Proof.
  intros (H26 & H22 & H27 & Hm).
  unfold loopBody, LoopInv. cbv zeta.
  sym_regs. rewrite ?H26, ?H22, ?H27, ?Hm.
  sym_regs. rewrite ?H26, ?H22, ?H27, ?Hm.
  cbn [arith]. rewrite read_write_same.
  repeat split.
Qed.

Lemma zseq_cons (i : Z) (n : nat) : zseq i (S n) = i :: zseq (i + 1) n.
Proof.
  unfold zseq. cbn [seq map]. f_equal; [lia|].
  rewrite <- seq_shift, map_map. apply map_ext. intros k. lia.
Qed.

Lemma exec_straight (f : Function) (pre rest : list Instruction) (fuel : nat)
    (st : xstate) :
  forallb straight pre = true ->
  exec (length pre + fuel) f (pre ++ rest) st
  = exec fuel f rest (fold_left (fun st x => exec_inst x st) pre st).
Proof.
  revert st; induction pre as [|x pre IH]; intros st Hs; [reflexivity|].
  cbn [forallb] in Hs. apply andb_true_iff in Hs as [Hx Hpre].
  cbn [length Nat.add app exec fold_left].
  rewrite <- (IH (exec_inst x st) Hpre).
  unfold straight in Hx. destruct (opcode x); try discriminate; reflexivity.
Qed.

Lemma loop_iteration (f : Function) (e i : Z) (st : xstate) (fuel : nat) :
  block_insts f 29%nat = Some (loopBlock e) ->
  block_insts f 38%nat = Some exitBlock ->
  LoopInv i st ->
  exec (8 + fuel) f (loopBlock e) st
  = exec fuel f (if to_uint32 (i + 1) <? to_uint32 e
                 then loopBlock e else exitBlock)
         (loopBody e st).
Proof.
  intros Hloop Hexit Hinv.
  destruct (loopBody_facts e i st Hinv) as (_ & _ & H37).
  change (loopBlock e) with (firstn 7 (loopBlock e) ++ skipn 7 (loopBlock e)) at 1.
  change (8 + fuel)%nat with (length (firstn 7 (loopBlock e)) + S fuel)%nat.
  rewrite exec_straight by reflexivity.
  rewrite loop_body_is.
  cbn [skipn loopBlock exec opcode operands eval].
  rewrite H37.
  destruct (to_uint32 (i + 1) <? to_uint32 e); cbn [Z.eqb].
  - now rewrite Hloop.
  - now rewrite Hexit.
Qed.

Lemma loop_runs (f : Function) (e : Z) :
  block_insts f 29%nat = Some (loopBlock e) ->
  block_insts f 38%nat = Some exitBlock ->
  block_insts f 40%nat = Some [mkInst 4%nat "" OpRet [] VoidTy] ->
  0 <= e < 2 ^ 32 ->
  forall (n : nat) (i : Z) (st : xstate) (extra : nat),
    0 <= i -> i + Z.of_nat (S n) = e -> LoopInv i st ->
    exists st',
      exec (8 * S n + 3 + extra) f (loopBlock e) st = Returns st' /\
      trace st' = trace st ++ map call_queue_func (zseq i (S n))
                           ++ [call_await_synch].
Proof.
  intros Hloop Hexit Hmerge He.
  induction n as [|n IH]; intros i st extra Hi Hie Hinv.
  - replace (8 * 1 + 3 + extra)%nat with (8 + (3 + extra))%nat by lia.
    rewrite (loop_iteration f e i st _ Hloop Hexit Hinv).
    destruct (loopBody_facts e i st Hinv) as ((H26 & _) & Htr & _).
    rewrite (to_uint32_small (i + 1)) by lia.
    rewrite (to_uint32_small e) by lia.
    destruct (Z.ltb_spec (i + 1) e); [lia|].
    unfold exitBlock. cbn [Nat.add exec opcode operands].
    rewrite Hmerge. cbn [exec opcode operands].
    eexists. split; [reflexivity|].
    unfold exec_inst. cbn [opcode operands trace last removelast map eval].
    rewrite H26, Htr.
    rewrite zseq_cons. cbn [zseq seq map]. rewrite <- app_assoc.
    reflexivity.
  - replace (8 * S (S n) + 3 + extra)%nat
      with (8 + (8 * S n + 3 + extra))%nat by lia.
    rewrite (loop_iteration f e i st _ Hloop Hexit Hinv).
    destruct (loopBody_facts e i st Hinv) as (Hinv' & Htr & _).
    rewrite (to_uint32_small (i + 1)) in * by lia.
    rewrite (to_uint32_small e) by lia.
    destruct (Z.ltb_spec (i + 1) e); [|lia].
    destruct (IH (i + 1) (loopBody e st) extra) as (st' & Hex & Htr');
      [lia|lia|exact Hinv'|].
    exists st'. split; [exact Hex|].
    rewrite Htr', Htr.
    rewrite (zseq_cons i (S n)). cbn [map].
    rewrite <- app_assoc. reflexivity.
Qed.

Lemma run_main (fuel : nat) (s e : Z) :
  run_function fuel (loweredSample (s, e)) 0%nat
  = Some (exec fuel (loweredMain (s, e)) (entryBlock (s, e)) start).
Proof. lazy -[to_uint32 Z.sub Z.add exec]. reflexivity. Qed.

Lemma entry_runs (s e : Z) (fuel : nat) :
  exists st0,
    exec (9 + fuel) (loweredMain (s, e)) (entryBlock (s, e)) start
    = exec fuel (loweredMain (s, e)) (loopBlock e) st0 /\
    LoopInv (to_uint32 s) st0 /\
    trace st0 = [call_create_synch (to_uint32 (to_uint32 e - to_uint32 s))].
Proof.
  exists (fold_left (fun st x => exec_inst x st)
            (firstn 8 (entryBlock (s, e))) start).
  split; [|split].
  - replace (entryBlock (s, e))
      with (firstn 8 (entryBlock (s, e)) ++ skipn 8 (entryBlock (s, e))) at 1
      by apply firstn_skipn.
    change (9 + fuel)%nat with (8 + S fuel)%nat.
    replace 8%nat with (length (firstn 8 (entryBlock (s, e)))) at 1
      by (lazy -[to_uint32 Z.sub Z.add]; reflexivity).
    rewrite exec_straight by (lazy -[to_uint32 Z.sub Z.add]; reflexivity).
    replace (skipn 8 (entryBlock (s, e)))
      with [mkInst 30%nat "" OpBr [VBlock 29%nat] VoidTy]
      by (lazy -[to_uint32 Z.sub Z.add]; reflexivity).
    cbn [exec opcode operands]. rewrite loop_is. reflexivity.
  - lazy -[to_uint32 Z.sub Z.add]. repeat split.
  - lazy -[to_uint32 Z.sub Z.add]. reflexivity.
Qed.

Theorem pfor_queues_every_index (s e : Z) (extra : nat) :
  0 <= s < e -> e < 2 ^ 32 ->
  exists st',
    run_function (9 + (8 * Z.to_nat (e - s) + 3 + extra))
                 (loweredSample (s, e)) 0%nat = Some (Returns st') /\
    trace st'
    = call_create_synch (e - s)
        :: map call_queue_func (zseq s (Z.to_nat (e - s)))
        ++ [call_await_synch].
Proof.
  intros Hs He. rewrite run_main.
  destruct (entry_runs s e (8 * Z.to_nat (e - s) + 3 + extra))
    as (st0 & Hentry & Hinv & Htr0).
  rewrite Hentry.
  rewrite (to_uint32_small s) in * by lia.
  rewrite (to_uint32_small e) in * by lia.
  rewrite (to_uint32_small (e - s)) in * by lia.
  destruct (Z.to_nat (e - s)) as [|n] eqn:Hn; [lia|].
  destruct (loop_runs (loweredMain (s, e)) e (loop_is s e) (exit_is s e)
              (merge_is s e) ltac:(lia) n s st0 extra) as (st' & Hex & Htr);
    [lia|lia|exact Hinv|].
  exists st'. split; [now rewrite Hex|].
  rewrite Htr, Htr0. reflexivity.
Qed.

Lemma pfor_queues_every_index_witness :
  0 <= 2 < 5 /\ 5 < 2 ^ 32 /\
  exists st',
    run_function (9 + (8 * Z.to_nat (5 - 2) + 3 + 0))
                 (loweredSample (2, 5)) 0%nat = Some (Returns st') /\
    trace st'
    = call_create_synch (5 - 2)
        :: map call_queue_func (zseq 2 (Z.to_nat (5 - 2)))
        ++ [call_await_synch].
Proof.
  assert (H1 : 0 <= 2 < 5) by lia.
  assert (H2 : 5 < 2 ^ 32) by lia.
  split; [exact H1|]. split; [exact H2|].
  exact (pfor_queues_every_index 2 5 0 H1 H2).
Defined.

End LoopFacts.

(* ===================================================================== *)
(** * Signals, and ranges that are empty or reversed *)
(* ===================================================================== *)

Section MoreEdges.
Import IR Builder HLIR Exec Samples Loop.
Import CInt.

(** Every [release] signals the condition exactly once, whether or not the
    cap lets it count, and nothing else signals: after any interleaving the
    number of signals sent is the number of [release] calls. *)
Theorem release_always_signals (evs : list CVSemaphore.event)
    (s : CVSemaphore.sem) :
  CVSemaphore.condition_ (fst (CVSemaphore.run s evs))
  = (CVSemaphore.condition_ s + CVSemaphore.releases evs)%nat.
Proof.
  revert s; induction evs as [|ev evs IH]; intros s.
  - cbn. lia.
  - rewrite run_cons; cbn [fst]. rewrite IH, releases_cons.
    destruct ev; cbn [CVSemaphore.step fst].
    + destruct (CVSemaphore.event_eq_dec CVSemaphore.EvRelease
                  CVSemaphore.EvRelease) as [_|]; [|congruence].
      unfold CVSemaphore.release.
      destruct (_ || _)%bool; cbn; lia.
    + destruct (CVSemaphore.event_eq_dec CVSemaphore.EvTryAcquire
                  CVSemaphore.EvRelease) as [|_]; [discriminate|].
      unfold CVSemaphore.tryAcquire.
      destruct (0 <? CVSemaphore.count_ s); cbn; lia.
    + destruct (CVSemaphore.event_eq_dec CVSemaphore.EvAcquire
                  CVSemaphore.EvRelease) as [|_]; [discriminate|].
      unfold CVSemaphore.acquire_test.
      destruct (CVSemaphore.count_ s <=? 0); cbn; lia.
    + destruct (CVSemaphore.event_eq_dec CVSemaphore.EvTimeout
                  CVSemaphore.EvRelease) as [|_]; [discriminate|].
      cbn. lia.
Qed.

(** The sample caller, lowered, on a range [[s, e)] with [e <= s], empty
    or reversed.  It asks for a latch of [(e - s) mod 2^32] iterations and
    queues the iteration of index [s] all the same, the test coming after
    the call.  The next index is [s + 1] as a [uint32_t]: below [2^32 - 1]
    it is above [e] and the loop ends there, with one iteration queued; at
    [s = 2^32 - 1] it wraps to 0 and the loop goes on through
    [0, ..., e - 1].  Then the code awaits the latch and returns. *)
Theorem pfor_empty_or_reversed_range (s e : Z) (extra : nat) :
  0 <= e <= s -> s < 2 ^ 32 ->
  let wrapped := if s =? 2 ^ 32 - 1 then zseq 0 (Z.to_nat e) else [] in
  exists st',
    run_function (9 + (8 * S (length wrapped) + 3 + extra))
                 (loweredSample (s, e)) 0%nat
    = Some (Returns st') /\
    trace st'
    = call_create_synch (to_uint32 (e - s))
        :: call_queue_func s
        :: map call_queue_func wrapped ++ [call_await_synch].
Proof.
  intros He Hs wrapped. rewrite run_main.
  assert (Hlen : length wrapped = if s =? 2 ^ 32 - 1 then Z.to_nat e else 0%nat).
  { unfold wrapped, zseq. destruct (s =? 2 ^ 32 - 1); [|reflexivity].
    now rewrite length_map, length_seq. }
  assert (Hnext : to_uint32 (s + 1)
                  = if s =? 2 ^ 32 - 1 then 0 else s + 1).
  { destruct (Z.eqb_spec s (2 ^ 32 - 1)) as [->|Hne].
    - reflexivity.
    - apply to_uint32_small. lia. }
  destruct (Z.ltb_spec (to_uint32 (s + 1)) e) as [Hlt|Hge].
  - (* the index wrapped round to 0 *)
    destruct (Z.eqb_spec s (2 ^ 32 - 1)) as [Hmax|Hne]; [|lia].
    rewrite Hnext in Hlt. rewrite Hlen.
    destruct (Z.to_nat e) as [|n] eqn:Hn; [lia|].
    replace (9 + (8 * S (S n) + 3 + extra))%nat
      with (9 + (8 + (8 * S n + 3 + extra)))%nat by lia.
    destruct (entry_runs s e (8 + (8 * S n + 3 + extra)))
      as (st0 & Hentry & Hinv & Htr0).
    rewrite Hentry.
    rewrite (to_uint32_small s) in * by lia.
    rewrite (to_uint32_small e) in * by lia.
    rewrite (loop_iteration _ e s st0 _ (loop_is s e) (exit_is s e) Hinv).
    destruct (loopBody_facts e s st0 Hinv) as (Hinv1 & Htr & _).
    rewrite Hnext in *. rewrite (to_uint32_small e) by lia.
    destruct (Z.ltb_spec 0 e) as [_|]; [|lia].
    destruct (loop_runs (loweredMain (s, e)) e (loop_is s e) (exit_is s e)
                (merge_is s e) ltac:(lia) n 0 (loopBody e st0) extra)
      as (st' & Hex & Htr'); [lia|lia|exact Hinv1|].
    exists st'. split; [now rewrite Hex|].
    rewrite Htr', Htr, Htr0. unfold wrapped.
    destruct (Z.eqb_spec s (2 ^ 32 - 1)); [|lia].
    rewrite <- app_assoc. reflexivity.
  - (* the loop ends after its first round *)
    assert (Hw : wrapped = []).
    { unfold wrapped. destruct (Z.eqb_spec s (2 ^ 32 - 1)); [|reflexivity].
      rewrite Hnext in Hge. replace e with 0 by lia. reflexivity. }
    rewrite Hw. cbn [length map app].
    replace (9 + (8 * 1 + 3 + extra))%nat
      with (9 + (8 + (3 + extra)))%nat by lia.
    destruct (entry_runs s e (8 + (3 + extra)))
      as (st0 & Hentry & Hinv & Htr0).
    rewrite Hentry.
    rewrite (to_uint32_small s) in * by lia.
    rewrite (to_uint32_small e) in * by lia.
    rewrite (loop_iteration _ e s st0 _ (loop_is s e) (exit_is s e) Hinv).
    destruct (loopBody_facts e s st0 Hinv) as ((H26 & _) & Htr & _).
    rewrite (to_uint32_small e) by lia.
    destruct (Z.ltb_spec (to_uint32 (s + 1)) e); [lia|].
    unfold exitBlock. cbn [Nat.add exec opcode operands].
    rewrite merge_is. cbn [exec opcode operands].
    eexists. split; [reflexivity|].
    unfold exec_inst. cbn [opcode operands trace last removelast map eval].
    rewrite H26, Htr, Htr0. reflexivity.
Qed.

Lemma pfor_empty_or_reversed_range_witness :
  0 <= 2 <= 2 ^ 32 - 1 /\ 2 ^ 32 - 1 < 2 ^ 32 /\
  exists st',
    run_function (9 + (8 * 3 + 3 + 0)) (loweredSample (2 ^ 32 - 1, 2)) 0%nat
    = Some (Returns st') /\
    trace st'
    = [call_create_synch 3; call_queue_func (2 ^ 32 - 1);
       call_queue_func 0; call_queue_func 1; call_await_synch].
Proof.
  assert (H1 : 0 <= 2 <= 2 ^ 32 - 1) by lia.
  assert (H2 : 2 ^ 32 - 1 < 2 ^ 32) by lia.
  split; [exact H1|]. split; [exact H2|].
  exact (pfor_empty_or_reversed_range (2 ^ 32 - 1) 2 0 H1 H2).
Defined.

(** The body function of a parallel-reduce as its constructor builds it and
    the emitter fills it at the [insertion] attribute: the stack slot
    [reduceVar] first, the same prologue as a parallel-for, the call
    [finish_func(args.ptr)], then the user's instructions, then the load of
    [reduceVar] that [insertion] names and the return of the loaded value. *)
Theorem reduce_body_layout (reduceType : Ty) (user : list Instruction) :
  (let argsType := StructTy "struct.func_args" [VoidPtrTy; I32Ty; VoidPtrTy] in
   let reduceVar :=
     mkInst 2 "" (OpAlloca reduceType) [] (PtrTy reduceType) in
   let prologue :=
     [mkInst 3 "args.ptr" OpBitCast [VArg 0 0] (PtrTy argsType);
      mkInst 4 "" (OpStructGEP 0) [VInst 3] (PtrTy VoidPtrTy);
      mkInst 5 "synch.ptr" OpLoad [VInst 4] VoidPtrTy;
      mkInst 6 "index.ptr" (OpStructGEP 1) [VInst 3] (PtrTy I32Ty);
      mkInst 7 "funcArgs.ptr" (OpStructGEP 2) [VInst 3] (PtrTy VoidPtrTy);
      mkInst 8 "" OpLoad [VInst 7] VoidPtrTy;
      mkInst 9 "" OpNoOp [] VoidTy;
      mkInst 10 "" OpBitCast [VInst 5] VoidPtrTy] in
   let finish :=
     mkInst 11 "" OpCall [VArg 0 0; VDecl "__ares_finish_func"] VoidTy in
   let retVal := mkInst 12 "" OpLoad [VInst 2] reduceType in
   let retI := mkInst 13 "" OpRet [VInst 12] VoidTy in
   runOn (r <- HLIRParallelReduce_new reduceType ;;
          emitBody (pr_insertion r) user ;;;
          ret r) [] 0
   = Some (mkReduce 0 2 (VInst 6) 12 (VInst 8) 9 (VInst 2) reduceType None,
           [mkFunc 0 "hlir.parallel_reduce.body"
              [mkBlock 1 "entry"
                 (reduceVar :: prologue ++ finish :: user
                    ++ [retVal; retI])]]))%nat.
Proof. vm_compute. reflexivity. Qed.

End MoreEdges.
(* ===================================================================== *)
(** * The dispatcher's queues *)
(* ===================================================================== *)

Section DispatcherFacts.
Import CInt CVSemaphore Messages Dispatcher.

Lemma release_uncapped_step (s : sem) :
  maxCount_ s = 0 -> 0 <= count_ s < 2147483647 ->
  count_ (release s) = count_ s + 1 /\ maxCount_ (release s) = 0.
Proof.
  intros Hm Hc. unfold release. rewrite Hm.
  cbn [Z.eqb orb signal incr count_ maxCount_].
  rewrite to_int_small by (unfold is_int, INT_MIN, INT_MAX; lia).
  now split.
Qed.

Lemma decr_step (s : sem) :
  0 < count_ s <= 2147483647 ->
  count_ (decr s) = count_ s - 1 /\ maxCount_ (decr s) = maxCount_ s.
Proof.
  intros Hc. unfold decr; cbn [count_ maxCount_].
  rewrite to_int_small by (unfold is_int, INT_MIN, INT_MAX; lia).
  now split.
Qed.

Lemma send_run_guarded (evs : list send_event) (d : sender) :
  send_inv (length (sent evs)) d ->
  match send_run d evs with
  | Ok d' => send_inv 0 d'
  | NotEnabled => True
  | EmptyFront => False
  end.
Proof.
  revert d; induction evs as [|e evs IH]; intros d Hinv.
  - cbn in *. exact Hinv.
  - destruct Hinv as (Hm & H0 & Hc & Hb).
    destruct e; cbn [send_run send_step sent length] in *.
    + apply IH. unfold send_inv; cbn [sendSem_ sendQueue_ pushing dequeuing].
      rewrite length_app; cbn [length]. repeat split; try assumption; lia.
    + destruct (pushing d) as [|p] eqn:Hp; [exact I|].
      apply IH. unfold send_inv; cbn [sendSem_ sendQueue_ pushing dequeuing].
      unfold release. rewrite Hm. cbn [Z.eqb orb signal incr count_ maxCount_].
      rewrite to_int_small
        by (unfold is_int, INT_MIN, INT_MAX in *; destruct (dequeuing d); lia).
      repeat split; try assumption; lia.
    + destruct (dequeuing d) eqn:Hd; [exact I|].
      unfold acquire_test.
      destruct (Z.leb_spec (count_ (sendSem_ d)) 0).
      * apply IH. unfold send_inv; cbn [sendSem_ sendQueue_ pushing dequeuing].
        repeat split; try assumption; lia.
      * apply IH. unfold send_inv; cbn [sendSem_ sendQueue_ pushing dequeuing].
        unfold decr; cbn [count_ maxCount_].
        rewrite to_int_small
          by (unfold is_int, INT_MIN, INT_MAX in *; lia).
        repeat split; try assumption; lia.
    + destruct (dequeuing d) eqn:Hd; [|exact I].
      destruct (sendQueue_ d) as [|msg q] eqn:Hq.
      * cbn [length] in *. lia.
      * apply IH. unfold send_inv; cbn [sendSem_ sendQueue_ pushing dequeuing].
        cbn [length] in *. repeat split; try assumption; lia.
Qed.

(** Under any interleaving of callers of [send] with the send thread,
    [runSend] never takes [front()] of an empty [sendQueue_]; and whenever
    the threads stand anywhere, the count of [sendSem_] is the number of
    queued messages less those whose sender has not released yet and less
    the one the send thread is about to take. *)
Theorem sendQueue_guarded (evs : list send_event) :
  Z.of_nat (length (sent evs)) <= INT_MAX ->
  match send_run sender_new evs with
  | Ok d =>
      count_ (sendSem_ d)
      = Z.of_nat (length (sendQueue_ d)) - Z.of_nat (pushing d)
        - (if dequeuing d then 1 else 0)
  | NotEnabled => True
  | EmptyFront => False
  end.
Proof.
  intros Hb.
  assert (Hinv : send_inv (length (sent evs)) sender_new).
  { unfold send_inv, sender_new, INT_MAX in *; cbn. repeat split; lia. }
  pose proof (send_run_guarded evs sender_new Hinv) as H.
  destruct (send_run sender_new evs) as [d| |]; try exact H.
  destruct H as (_ & _ & Hc & _). lia.
Qed.

Lemma sendQueue_guarded_witness :
  let evs := [SendPush (MessageBuffer_new MT_Raw [104; 105] 2 true);
              SendPush (MessageBuffer_new MT_Raw [33] 1 true);
              SendRelease; RunAcquire; RunDequeue; RunAcquire] in
  Z.of_nat (length (sent evs)) <= INT_MAX /\
  match send_run sender_new evs with
  | Ok d =>
      count_ (sendSem_ d)
      = Z.of_nat (length (sendQueue_ d)) - Z.of_nat (pushing d)
        - (if dequeuing d then 1 else 0)
  | NotEnabled => True
  | EmptyFront => False
  end.
Proof.
  intros evs.
  assert (Hb : Z.of_nat (length (sent evs)) <= INT_MAX)
    by (vm_compute; congruence).
  split; [exact Hb|].
  exact (sendQueue_guarded evs Hb).
Defined.

Lemma send_run_order (evs : list send_event) (d0 d : sender) :
  send_run d0 evs = Ok d ->
  exists pre,
    sendQueue_ d0 ++ sent evs = pre ++ sendQueue_ d /\
    sendChannel_ d = sendChannel_ d0 ++ flat_map runSend_bytes pre.
Proof.
  revert d0; induction evs as [|e evs IH]; intros d0 Hrun.
  - cbn in Hrun. injection Hrun as <-. exists [].
    cbn. now rewrite !app_nil_r.
  - cbn [send_run] in Hrun.
    destruct (send_step d0 e) as [d1| |] eqn:Hstep; try discriminate.
    destruct (IH d1 Hrun) as (pre & Hq & Hc).
    destruct e; cbn [send_step sent] in *.
    + injection Hstep as <-. cbn [sendQueue_ sendChannel_] in *.
      exists pre. rewrite <- app_assoc in Hq. cbn [app] in Hq. now split.
    + destruct (pushing d0); [discriminate|]. injection Hstep as <-.
      cbn [sendQueue_ sendChannel_] in *. exists pre. now split.
    + destruct (dequeuing d0); [discriminate|].
      destruct (acquire_test (sendSem_ d0)) as [s' [| |]];
        injection Hstep as <-; cbn [sendQueue_ sendChannel_] in *;
        exists pre; now split.
    + destruct (dequeuing d0); [|discriminate].
      destruct (sendQueue_ d0) as [|msg q]; [discriminate|].
      injection Hstep as <-. cbn [sendQueue_ sendChannel_] in *.
      exists (msg :: pre). split.
      * cbn [app]. now rewrite Hq.
      * rewrite Hc, <- app_assoc. reflexivity.
Qed.

(** Messages leave in the order in which [send] queued them, each as one
    whole frame: at any moment the bytes written to [sendChannel_] are the
    frames of a prefix of the messages sent, and [sendQueue_] holds exactly
    the others, in order. *)
Theorem send_in_order (evs : list send_event) (d : sender) :
  send_run sender_new evs = Ok d ->
  exists pre,
    sent evs = pre ++ sendQueue_ d /\
    sendChannel_ d = flat_map runSend_bytes pre.
Proof.
  intros Hrun. destruct (send_run_order evs sender_new d Hrun) as (pre & Hq & Hc).
  exists pre. split; [exact Hq | exact Hc].
Qed.

Lemma send_in_order_witness :
  let m1 := MessageBuffer_new MT_Raw [104; 105] 2 true in
  let m2 := MessageBuffer_new MT_Raw [33] 1 true in
  let evs := [SendPush m1; SendPush m2; SendRelease; RunAcquire; RunDequeue;
              RunAcquire] in
  let d := mkSender (mkSem 0 0 1) [m2] (runSend_bytes m1) 1 false in
  send_run sender_new evs = Ok d /\
  exists pre,
    sent evs = pre ++ sendQueue_ d /\
    sendChannel_ d = flat_map runSend_bytes pre.
Proof.
  intros m1 m2 evs d.
  assert (Hrun : send_run sender_new evs = Ok d) by (vm_compute; reflexivity).
  split; [exact Hrun|].
  exact (send_in_order evs d Hrun).
Defined.

Lemma receive_length (n : nat) (stream a rest : list Z) :
  receive n stream = Some (a, rest) ->
  (length rest + n = length stream)%nat.
Proof.
  unfold receive.
  destruct (Nat.leb_spec n (length stream)); [|discriminate].
  intros [= _ <-]. rewrite length_skipn. lia.
Qed.

Lemma runReceive_message_length (stream rest : list Z) (msg : MessageBuffer) :
  runReceive_message stream = Some (msg, rest) ->
  (length rest + 5 <= length stream)%nat.
Proof.
  unfold runReceive_message.
  destruct (receive 5 stream) as [[sbuf r]|] eqn:H1; [|discriminate].
  destruct (receive _ r) as [[p r']|] eqn:H2; [|discriminate].
  intros [= _ <-].
  apply receive_length in H1. apply receive_length in H2. lia.
Qed.

Lemma receive_run_guarded (evs : list receive_event) (d : receiver) :
  Z.of_nat (length (receiveQueue_ d))
    + Z.of_nat (length (receiveChannel_ d)) <= INT_MAX ->
  maxCount_ (receiveSem_ d) = 0 ->
  0 <= count_ (receiveSem_ d) ->
  count_ (receiveSem_ d) + Z.of_nat (taking d)
    + (if releasing d then 1 else 0)
  = Z.of_nat (length (receiveQueue_ d)) ->
  match receive_run d evs with
  | Ok d' =>
      count_ (receiveSem_ d') + Z.of_nat (taking d')
        + (if releasing d' then 1 else 0)
      = Z.of_nat (length (receiveQueue_ d'))
  | NotEnabled => True
  | EmptyFront => False
  end.
Proof.
  revert d; induction evs as [|e evs IH]; intros d Hb Hm H0 Hc.
  - cbn. exact Hc.
  - destruct e; cbn [receive_run receive_step].
    + destruct (releasing d) eqn:Hr; [exact I|].
      destruct (runReceive_message (receiveChannel_ d)) as [[msg rest]|] eqn:Hread;
        [|exact I].
      apply runReceive_message_length in Hread.
      destruct (handleMessage msg (handler_ d)) as [[[|] h]|]; [| |exact I].
      * apply IH; cbn [receiveSem_ receiveQueue_ receiveChannel_ taking releasing];
          try assumption; lia.
      * apply IH; cbn [receiveSem_ receiveQueue_ receiveChannel_ taking releasing];
          try assumption; rewrite ?length_app; cbn [length]; lia.
    + destruct (releasing d) eqn:Hr; [|exact I].
      destruct (release_uncapped_step (receiveSem_ d) Hm) as (Hc1 & Hm1);
        [unfold INT_MAX in *; lia|].
      apply IH; cbn [receiveSem_ receiveQueue_ receiveChannel_ taking releasing];
        rewrite ?Hc1; try assumption; lia.
    + unfold acquire_test.
      destruct (Z.leb_spec (count_ (receiveSem_ d)) 0).
      * apply IH; cbn [receiveSem_ receiveQueue_ receiveChannel_ taking releasing];
          try assumption; lia.
      * destruct (decr_step (receiveSem_ d)) as (Hc1 & Hm1);
          [unfold INT_MAX in *; destruct (releasing d); lia|].
        apply IH; cbn [receiveSem_ receiveQueue_ receiveChannel_ taking releasing];
          rewrite ?Hc1, ?Hm1; try assumption; lia.
    + destruct (taking d) as [|t] eqn:Ht; [exact I|].
      destruct (receiveQueue_ d) as [|msg q] eqn:Hq.
      * cbn [length] in *. destruct (releasing d); lia.
      * apply IH; cbn [receiveSem_ receiveQueue_ receiveChannel_ taking releasing];
          cbn [length] in *; try assumption; lia.
Qed.

(** Under any interleaving of the receive thread with callers of [receive],
    whatever bytes the channel delivers and whatever the handler keeps,
    [receive] never takes [front()] of an empty [receiveQueue_], and the
    count of [receiveSem_] is the number of queued messages less the one the
    receive thread has not released yet and less those that callers are
    about to take. *)
Theorem receiveQueue_guarded (stream : list Z) (handler : Communicator)
    (evs : list receive_event) :
  Z.of_nat (length stream) <= INT_MAX ->
  match receive_run (receiver_new stream handler) evs with
  | Ok d =>
      count_ (receiveSem_ d)
      = Z.of_nat (length (receiveQueue_ d)) - Z.of_nat (taking d)
        - (if releasing d then 1 else 0)
  | NotEnabled => True
  | EmptyFront => False
  end.
Proof.
  intros Hb.
  pose proof (receive_run_guarded evs (receiver_new stream handler)) as H.
  cbn [receiver_new receiveSem_ receiveQueue_ receiveChannel_ taking releasing
       length make count_ maxCount_] in H.
  specialize (H ltac:(lia) eq_refl ltac:(lia) eq_refl).
  destruct (receive_run (receiver_new stream handler) evs) as [d| |];
    try exact H.
  lia.
Qed.

Lemma receiveQueue_guarded_witness :
  let stream :=
    runSend_bytes (MessageBuffer_new MT_Raw [104; 105] 2 true)
      ++ runSend_bytes (MessageBuffer_new MT_Barrier [0] 1 true) in
  let handler := mkComm (Some (make 0)) in
  let evs := [ReceiveAcquire; RunRead; RunRelease; RunRead; ReceiveAcquire;
              ReceiveTake] in
  Z.of_nat (length stream) <= INT_MAX /\
  match receive_run (receiver_new stream handler) evs with
  | Ok d =>
      count_ (receiveSem_ d)
      = Z.of_nat (length (receiveQueue_ d)) - Z.of_nat (taking d)
        - (if releasing d then 1 else 0)
  | NotEnabled => True
  | EmptyFront => False
  end.
Proof.
  intros stream handler evs.
  assert (Hb : Z.of_nat (length stream) <= INT_MAX)
    by (vm_compute; congruence).
  split; [exact Hb|].
  exact (receiveQueue_guarded stream handler evs Hb).
Defined.

Lemma handleMessage_kept (msg : MessageBuffer) (c c' : Communicator)
    (b : bool) :
  handleMessage msg c = Some (b, c') -> b = is_barrier msg.
Proof.
  unfold handleMessage, is_barrier.
  destruct (type_ msg =? MT_Barrier).
  - destruct (barrier_ c); [|discriminate]. now intros [= <- _].
  - now intros [= <- _].
Qed.

Lemma runReceive_runSend (msg : MessageBuffer) (rest : list Z) :
  framed msg ->
  runReceive_message (runSend_bytes msg ++ rest) = Some (arrives msg, rest).
Proof.
  intros (Ht & Hs & Hl). unfold runReceive_message, runSend_bytes, arrives.
  set (payload := firstn (Z.to_nat (size_ msg)) (buf_ msg)).
  assert (Hp : length payload = Z.to_nat (size_ msg))
    by (unfold payload; apply firstn_length_le, Hl).
  rewrite <- app_assoc.
  change 5%nat
    with (length (bytes_of_uint32 (size_ msg) ++ [type_ msg mod 256])).
  rewrite receive_app.
  change (firstn 4 (bytes_of_uint32 (size_ msg) ++ [type_ msg mod 256]))
    with (bytes_of_uint32 (size_ msg)).
  rewrite uint32_bytes_roundtrip by exact Hs.
  change (nth 4 (bytes_of_uint32 (size_ msg) ++ [type_ msg mod 256]) 0)
    with (type_ msg mod 256).
  rewrite Z.mod_small by exact Ht.
  rewrite <- Hp, receive_app. reflexivity.
Qed.

Lemma receive_run_order (evs : list receive_event) (msgs : list MessageBuffer)
    (d0 d : receiver) :
  Forall framed msgs ->
  receiveChannel_ d0 = flat_map runSend_bytes msgs ->
  receive_run d0 evs = Ok d ->
  exists pre rest,
    msgs = pre ++ rest /\
    receiveChannel_ d = flat_map runSend_bytes rest /\
    returned d ++ receiveQueue_ d
    = (returned d0 ++ receiveQueue_ d0)
        ++ filter (fun m => negb (is_barrier m)) (map arrives pre).
Proof.
  revert msgs d0; induction evs as [|e evs IH]; intros msgs d0 Hf Hch Hrun.
  - cbn in Hrun. injection Hrun as <-. exists [], msgs.
    cbn. now rewrite app_nil_r.
  - cbn [receive_run] in Hrun.
    destruct (receive_step d0 e) as [d1| |] eqn:Hstep; try discriminate.
    destruct e; cbn [receive_step] in Hstep.
    + destruct (releasing d0); [discriminate|].
      destruct (runReceive_message (receiveChannel_ d0)) as [[msg rest]|] eqn:Hread;
        [|discriminate].
      destruct msgs as [|m msgs'].
      { rewrite Hch in Hread. cbn in Hread. discriminate. }
      rewrite Hch in Hread. cbn [flat_map] in Hread.
      inversion Hf as [|? ? Hm0 Hf']; subst.
      rewrite (runReceive_runSend m _ Hm0) in Hread.
      injection Hread as <- <-.
      destruct (handleMessage (arrives m) (handler_ d0)) as [[b h]|] eqn:Hh;
        [|discriminate].
      pose proof (handleMessage_kept _ _ _ _ Hh) as Hb.
      destruct b; injection Hstep as <-.
      * pose proof (fun Hc0 => IH msgs' _ Hf' Hc0 Hrun) as IH'.
        destruct (IH' eq_refl) as (pre & rest & Hm & Hc & Hq).
        cbn [returned receiveQueue_] in Hq.
        exists (m :: pre), rest. split; [cbn; now rewrite Hm|].
        split; [exact Hc|].
        cbn [map filter]. rewrite <- Hb. cbn [negb]. exact Hq.
      * pose proof (fun Hc0 => IH msgs' _ Hf' Hc0 Hrun) as IH'.
        destruct (IH' eq_refl) as (pre & rest & Hm & Hc & Hq).
        cbn [returned receiveQueue_] in Hq.
        exists (m :: pre), rest. split; [cbn; now rewrite Hm|].
        split; [exact Hc|].
        cbn [map filter]. rewrite <- Hb. cbn [negb].
        rewrite Hq, <- !app_assoc. reflexivity.
    + destruct (releasing d0); [|discriminate]. injection Hstep as <-.
      exact ((fun Hc0 => IH msgs _ Hf Hc0 Hrun) Hch).
    + destruct (acquire_test (receiveSem_ d0)) as [s' [| |]];
        injection Hstep as <-; exact ((fun Hc0 => IH msgs _ Hf Hc0 Hrun) Hch).
    + destruct (taking d0); [discriminate|].
      destruct (receiveQueue_ d0) as [|msg q] eqn:Hq0; [discriminate|].
      injection Hstep as <-.
      pose proof (fun Hc0 => IH msgs _ Hf Hc0 Hrun) as IH'.
      destruct (IH' Hch) as (pre & rest & Hm & Hc & Hq).
      cbn [returned receiveQueue_] in Hq.
      exists pre, rest. split; [exact Hm|]. split; [exact Hc|].
      rewrite Hq, <- !app_assoc. reflexivity.
Qed.

(** From one dispatcher's [runSend] to the peer's [receive]: when the
    channel carries the frames of [msgs], the messages that [receive] has
    returned, followed by those still in [receiveQueue_], are the messages
    of a prefix of [msgs] that are not barrier messages, in the order sent
    and with the type, size and payload sent; the channel still holds the
    frames of the others. *)
Theorem receive_in_order (msgs : list MessageBuffer) (handler : Communicator)
    (evs : list receive_event) (d : receiver) :
  Forall framed msgs ->
  receive_run (receiver_new (flat_map runSend_bytes msgs) handler) evs
  = Ok d ->
  exists pre rest,
    msgs = pre ++ rest /\
    receiveChannel_ d = flat_map runSend_bytes rest /\
    returned d ++ receiveQueue_ d
    = filter (fun m => negb (is_barrier m)) (map arrives pre).
Proof.
  intros Hf Hrun.
  exact ((fun Hc0 => receive_run_order evs msgs _ d Hf Hc0 Hrun) eq_refl).
Qed.

Lemma receive_in_order_witness :
  let m1 := MessageBuffer_new MT_Raw [104; 105] 2 true in
  let m2 := MessageBuffer_new MT_Barrier [0] 1 true in
  let m3 := MessageBuffer_new MT_Raw [33] 1 true in
  let msgs := [m1; m2; m3] in
  let handler := mkComm (Some (make 0)) in
  let evs := [ReceiveAcquire; RunRead; RunRelease; RunRead; ReceiveAcquire;
              ReceiveTake] in
  let d := mkReceiver (mkSem 0 0 1) [] (runSend_bytes m3)
             (mkComm (Some (mkSem 1 0 1))) [arrives m1] false 0 in
  Forall framed msgs /\
  receive_run (receiver_new (flat_map runSend_bytes msgs) handler) evs
  = Ok d /\
  exists pre rest,
    msgs = pre ++ rest /\
    receiveChannel_ d = flat_map runSend_bytes rest /\
    returned d ++ receiveQueue_ d
    = filter (fun m => negb (is_barrier m)) (map arrives pre).
Proof.
  intros m1 m2 m3 msgs handler evs d.
  assert (Hf : Forall framed msgs).
  { repeat constructor; vm_compute; try congruence; lia. }
  assert (Hrun : receive_run
                   (receiver_new (flat_map runSend_bytes msgs) handler) evs
                 = Ok d) by (vm_compute; reflexivity).
  split; [exact Hf|]. split; [exact Hrun|].
  exact (receive_in_order msgs handler evs d Hf Hrun).
Defined.

End DispatcherFacts.

(* ===================================================================== *)
(** * The task wrapper *)
(* ===================================================================== *)

Section WrapperFacts.
Import IR Builder HLIR TaskWrapper.
Local Open Scope nat_scope.

Lemma find_app_none {A : Type} (p : A -> bool) (l1 l2 : list A) :
  find p l1 = None -> find p (l1 ++ l2) = find p l2.
Proof.
  induction l1 as [|a l1 IH]; cbn; [reflexivity|].
  destruct (p a); [discriminate|exact IH].
Qed.

Lemma find_app_some {A : Type} (p : A -> bool) (l1 l2 : list A) (x : A) :
  find p l1 = Some x -> find p (l1 ++ l2) = Some x.
Proof.
  induction l1 as [|a l1 IH]; cbn; [discriminate|].
  destruct (p a); [intros H; exact H|exact IH].
Qed.

Lemma find_iid_below (l : list Instruction) (a : ident) :
  Forall (fun i => iid i < a) l ->
  find (fun x => iid x =? a) l = None.
Proof.
  induction 1 as [|x l Hx _ IH]; cbn; [reflexivity|].
  destruct (Nat.eqb_spec (iid x) a); [lia|exact IH].
Qed.

Lemma below_insts (n : ident) (m : Mod) :
  below n m -> Forall (fun i => iid i < n) (mod_insts m).
Proof.
  unfold mod_insts, all_insts.
  induction 1 as [|g m (_ & Hg) _ IH]; cbn; [constructor|].
  apply Forall_app; split; [|exact IH].
  induction Hg as [|x bs (_ & Hx) _ IHb]; cbn; [constructor|].
  apply Forall_app; split; assumption.
Qed.

Lemma addBlock_below (n f : ident) (b : BasicBlock) (m : Mod) :
  below n m -> n <= f -> addBlock f b m = m.
Proof.
  unfold addBlock. induction 1 as [|g m (Hg & _) _ IH]; intros Hf; cbn;
    [reflexivity|].
  destruct (Nat.eqb_spec (fid g) f); [lia|]. now rewrite IH.
Qed.

Lemma insertAtEnd_below (n b : ident) (new : list Instruction) (m : Mod) :
  below n m -> n <= b -> insertAtEnd b new m = m.
Proof.
  unfold insertAtEnd, map_blocks.
  induction 1 as [|g m (_ & Hg) _ IH]; intros Hb; cbn; [reflexivity|].
  rewrite IH by exact Hb. f_equal.
  destruct g as [f nm bs]; cbn in *. f_equal.
  induction Hg as [|x bs (Hx & _) _ IHb]; cbn; [reflexivity|].
  destruct (Nat.eqb_spec (bid x) b); [lia|]. now rewrite IHb.
Qed.

Lemma Create_filling (m : Mod) (n f b : ident) (nm bn : string)
    (L : list Instruction) (a : ident) (op : Opcode) (ops : list Value)
    (t : Ty) (name : string) :
  below n m -> n <= b ->
  Create op ops t name (filling m f nm b bn L a)
  = Some (VInst a,
          filling m f nm b bn (L ++ [mkInst a name op ops t]) (S a)).
Proof.
  intros Hm Hb. unfold Create, bind, new_addr, Insert, ret, filling.
  cbn [module_ nextAddr point].
  unfold insertAtEnd at 1. unfold map_blocks. rewrite map_app.
  change (map _ m) with (insertAtEnd b [mkInst a name op ops t] m).
  rewrite (insertAtEnd_below n) by assumption.
  cbn [map fid fname blocks bid bname insts].
  rewrite Nat.eqb_refl. reflexivity.
Qed.

Lemma typeOf_filling (m : Mod) (n f b : ident) (nm bn : string)
    (L : list Instruction) (a i : ident) :
  below n m -> n <= i ->
  typeOf (module_ (filling m f nm b bn L a)) (VInst i)
  = match find (fun x => iid x =? i) L with
    | Some x => ity x
    | None => VoidTy
    end.
Proof.
  intros Hm Hi. unfold typeOf, getInst, mod_insts, filling.
  cbn [module_]. rewrite flat_map_app, find_app_none.
  - cbn [flat_map all_insts blocks insts]. now rewrite !app_nil_r.
  - apply find_iid_below.
    eapply Forall_impl; [|apply (below_insts n m Hm)].
    cbn. intros; lia.
Qed.

Lemma collect_argLoads (m : Mod) (n f b : ident) (nm bn : string)
    (fields : list Ty) (P : ident) (xP : Instruction)
    (idxs : list nat) (L : list Instruction) (a : ident) :
  below n m -> n <= b -> n <= P -> n <= a ->
  Forall (fun i => iid i < a) L ->
  find (fun x => iid x =? P) L = Some xP ->
  ity xP = PtrTy (StructTy "struct.func_args" fields) ->
  collect idxs
    (fun idx =>
       arg <- CreateStructGEP (VInst P) idx "arg.ptr" ;;
       CreateLoad arg "arg")
    (filling m f nm b bn L a)
  = Some (argValues a idxs,
          filling m f nm b bn (L ++ argLoads fields P a idxs)
                  (a + 2 * length idxs)).
Proof.
  intros Hm Hb HP. revert L a.
  induction idxs as [|idx idxs IH]; intros L a Ha HL Hfind Hty.
  - cbn. unfold ret. now rewrite app_nil_r, Nat.add_0_r.
  - cbn [collect argLoads argValues length].
    unfold bind at 1. unfold bind at 1.
    unfold CreateStructGEP at 1. unfold bind at 1, getModule at 1.
    rewrite (typeOf_filling m n) by assumption.
    rewrite Hfind, Hty. cbn [field_type].
    rewrite (Create_filling m n) by assumption.
    unfold CreateLoad at 1. unfold bind at 1, getModule at 1.
    rewrite (typeOf_filling m n) by assumption.
    rewrite find_app_none by (apply find_iid_below; exact HL).
    cbn [find iid]. rewrite Nat.eqb_refl. cbn [ity pointee].
    rewrite (Create_filling m n) by assumption.
    unfold bind at 1.
    rewrite (IH _ (S (S a))).
    + unfold ret. rewrite <- !app_assoc. cbn [app].
      replace (S (S a) + 2 * length idxs) with (a + 2 * S (length idxs))
        by lia.
      reflexivity.
    + lia.
    + apply Forall_app; split.
      * apply Forall_app; split.
        -- eapply Forall_impl; [|exact HL]. cbn; intros; lia.
        -- repeat constructor.
      * repeat constructor.
    + rewrite <- app_assoc. now apply find_app_some.
    + exact Hty.
Qed.

(** [setFunction] appends to the module one function and leaves the others
    as they are: [hlir.task_wrapper], whose single block casts its argument
    to the struct [{i8*, i32, returnType, paramTypes...}], loads the task's
    [k]-th argument from field [3 + k], calls the task function on the
    values loaded, in order, stores the result into field [2], calls
    [__ares_task_release_future] on its own argument and returns. *)
Theorem setFunction_wrapper (m : Mod) (n func : ident) (returnType : Ty)
    (paramTypes : list Ty) :
  below n m ->
  let fields := [VoidPtrTy; I32Ty; returnType] ++ paramTypes in
  let idxs := seq 3 (length paramTypes) in
  let a := n + 3 + 2 * length paramTypes in
  runOn (setFunction func returnType paramTypes) m n
  = Some
      (mkTask func returnType paramTypes n,
       m ++ [mkFunc n "hlir.task_wrapper"
               [mkBlock (n + 1) "entry"
                  (mkInst (n + 2) "argsPtr" OpBitCast [VArg n 0]
                          (PtrTy (StructTy "struct.func_args" fields))
                     :: argLoads fields (n + 2) (n + 3) idxs
                     ++ [mkInst a "ret" OpCall
                           (argValues (n + 3) idxs ++ [VFunc func])
                           returnType;
                         mkInst (a + 1) "retPtr" (OpStructGEP 2)
                           [VInst (n + 2)] (PtrTy returnType);
                         mkInst (a + 2) "" OpStore
                           [VInst a; VInst (a + 1)] VoidTy;
                         mkInst (a + 3) "" OpCall
                           [VArg n 0; VDecl "__ares_task_release_future"]
                           VoidTy;
                         mkInst (a + 4) "" OpRet [] VoidTy])]]).
Proof.
  intros Hm fields idxs a.
  unfold runOn, setFunction.
  unfold bind at 1. unfold Function_Create at 1.
  unfold bind at 1, new_addr at 1. cbn [module_ nextAddr point].
  unfold bind at 1, modify at 1, ret at 1. cbn [module_ nextAddr point].
  unfold bind at 1. unfold BasicBlock_Create at 1.
  unfold bind at 1, new_addr at 1. cbn [module_ nextAddr point].
  unfold bind at 1, modify at 1, ret at 1. cbn [module_ nextAddr point].
  unfold addBlock at 1. rewrite map_app.
  change (map _ m) with (addBlock n (mkBlock (S n) "entry" []) m).
  rewrite (addBlock_below n) by (assumption || lia).
  cbn [map fid fname blocks app]. rewrite Nat.eqb_refl.
  unfold bind at 1, SetInsertPoint at 1. cbn [module_ nextAddr point].
  change (mkState (m ++ [mkFunc n "hlir.task_wrapper" [mkBlock (S n) "entry" []]])
                  (S (S n)) (Some (AtEnd (S n))))
    with (filling m n "hlir.task_wrapper" (S n) "entry" [] (S (S n))).
  unfold bind at 1, CreateBitCast at 1.
  rewrite (Create_filling m n) by (assumption || lia).
  cbn [app].
  unfold bind at 1.
  rewrite (collect_argLoads m n n (S n) _ _ fields (S (S n))
             (mkInst (S (S n)) "argsPtr" OpBitCast [VArg n 0]
                     (PtrTy (StructTy "struct.func_args" fields)))
             idxs _ (S (S (S n))));
    try lia; try assumption; try reflexivity.
  2:{ repeat constructor. }
  2:{ cbn [find iid]. now rewrite Nat.eqb_refl. }
  unfold bind at 1, CreateCall at 1.
  rewrite (Create_filling m n) by (assumption || lia).
  unfold bind at 1, CreateStructGEP at 1. unfold bind at 1, getModule at 1.
  rewrite (typeOf_filling m n) by (assumption || lia).
  rewrite <- !app_assoc. cbn [app find iid]. rewrite Nat.eqb_refl.
  cbn [ity field_type nth fields app].
  rewrite (Create_filling m n) by (assumption || lia).
  unfold bind at 1, CreateStore at 1.
  rewrite (Create_filling m n) by (assumption || lia).
  unfold bind at 1, CreateCall at 1.
  rewrite (Create_filling m n) by (assumption || lia).
  unfold bind at 1, CreateRetVoid at 1.
  rewrite (Create_filling m n) by (assumption || lia).
  unfold ret, filling. cbn [module_].
  unfold idxs. rewrite length_seq.
  replace (S (S (S n)) + 2 * length paramTypes) with a by (unfold a; lia).
  replace (S (S (S n))) with (n + 3) by lia.
  replace (S (S n)) with (n + 2) by lia.
  replace (S n) with (n + 1) by lia.
  replace (S a) with (a + 1) by lia.
  replace (S (a + 1)) with (a + 2) by lia.
  replace (S (a + 2)) with (a + 3) by lia.
  replace (S (a + 3)) with (a + 4) by lia.
  repeat (rewrite <- app_assoc; cbn [app]). reflexivity.
Qed.

Lemma setFunction_wrapper_witness :
  let m := [mkFunc 0 "f" [mkBlock 1 "entry" [mkInst 2 "" OpRet [] VoidTy]]] in
  below 3 m /\
  runOn (setFunction 0 I32Ty [I32Ty; I64Ty]) m 3
  = Some
      (mkTask 0 I32Ty [I32Ty; I64Ty] 3,
       m ++ [mkFunc 3 "hlir.task_wrapper"
               [mkBlock (3 + 1) "entry"
                  (mkInst (3 + 2) "argsPtr" OpBitCast [VArg 3 0]
                          (PtrTy (StructTy "struct.func_args"
                                    ([VoidPtrTy; I32Ty; I32Ty]
                                       ++ [I32Ty; I64Ty])))
                     :: argLoads ([VoidPtrTy; I32Ty; I32Ty] ++ [I32Ty; I64Ty])
                          (3 + 2) (3 + 3) (seq 3 2)
                     ++ [mkInst 10 "ret" OpCall
                           (argValues (3 + 3) (seq 3 2) ++ [VFunc 0]) I32Ty;
                         mkInst (10 + 1) "retPtr" (OpStructGEP 2)
                           [VInst (3 + 2)] (PtrTy I32Ty);
                         mkInst (10 + 2) "" OpStore
                           [VInst 10; VInst (10 + 1)] VoidTy;
                         mkInst (10 + 3) "" OpCall
                           [VArg 3 0; VDecl "__ares_task_release_future"]
                           VoidTy;
                         mkInst (10 + 4) "" OpRet [] VoidTy])]]).
Proof.
  intros m.
  assert (Hm : below 3 m).
  { unfold below, m. repeat constructor; cbn; lia. }
  split; [exact Hm|].
  exact (setFunction_wrapper m 3 0 I32Ty [I32Ty; I64Ty] Hm).
Defined.

End WrapperFacts.

(* ===================================================================== *)
(** * What lowering a task call leaves behind *)
(* ===================================================================== *)

Section TaskCallFacts.
Import IR Builder HLIR TaskWrapper.
Local Open Scope nat_scope.









Lemma hoare_weaken {A : Type} (P P' : state -> Prop) (c : M A)
    (Q Q' : A -> state -> Prop) :
  hoare P c Q -> (forall st, P' st -> P st) ->
  (forall a st, Q a st -> Q' a st) -> hoare P' c Q'.
Proof.
  intros H HP HQ st Hst. destruct (H st (HP st Hst)) as (a & st' & E & Hq).
  exists a, st'. split; [exact E|now apply HQ].
Qed.














End TaskCallFacts.

(* ===================================================================== *)
(** * Constructing a parallel-for in a module that holds other code *)
(* ===================================================================== *)

Section ConstructorFrame.
Import IR Builder HLIR TaskWrapper.
Local Open Scope nat_scope.

Lemma BasicBlock_Create_new (m : Mod) (n : ident) (nm bn : string)
    (pt : option InsertPoint) :
  below n m ->
  BasicBlock_Create bn n (mkState (m ++ [mkFunc n nm []]) (S n) pt)
  = Some (S n,
          mkState (m ++ [mkFunc n nm [mkBlock (S n) bn []]]) (S (S n)) pt).
Proof.
  intros Hm. unfold BasicBlock_Create, bind, new_addr, modify, ret.
  cbn [module_ nextAddr point].
  unfold addBlock. rewrite map_app.
  change (map _ m) with (addBlock n (mkBlock (S n) bn []) m).
  rewrite (addBlock_below n) by (assumption || lia).
  cbn [map fid fname blocks app]. now rewrite Nat.eqb_refl.
Qed.

Lemma createNoOp_filling (m : Mod) (n f b : ident) (nm bn : string)
    (L : list Instruction) (a : ident) :
  below n m -> n <= b ->
  createNoOp (filling m f nm b bn L a)
  = Some (a, filling m f nm b bn (L ++ [mkInst a "" OpNoOp [] VoidTy]) (S a)).
Proof.
  intros Hm Hb.
  pose proof (Create_filling m n f b nm bn L a OpNoOp [] VoidTy "" Hm Hb) as H.
  unfold Create, createNoOp, bind, ret in *.
  destruct (new_addr (filling m f nm b bn L a)) as [[i st]|]; [|discriminate].
  destruct (Insert (mkInst i "" OpNoOp [] VoidTy) st) as [[[] st']|];
    [|discriminate].
  now injection H as -> ->.
Qed.

Lemma ReturnInst_Create_filling (m : Mod) (n f b : ident) (nm bn : string)
    (L : list Instruction) (a : ident) (rv : list Value) :
  below n m -> n <= b ->
  ReturnInst_Create rv b (filling m f nm b bn L a)
  = Some (a, filling m f nm b bn (L ++ [mkInst a "" OpRet rv VoidTy]) (S a)).
Proof.
  intros Hm Hb. unfold ReturnInst_Create, bind, new_addr, modify, ret, filling.
  cbn [module_ nextAddr point].
  unfold insertAtEnd at 1. unfold map_blocks. rewrite map_app.
  change (map _ m) with (insertAtEnd b [mkInst a "" OpRet rv VoidTy] m).
  rewrite (insertAtEnd_below n) by assumption.
  cbn [map fid fname blocks bid bname insts].
  now rewrite Nat.eqb_refl.
Qed.

Lemma insert_before_below (n i : ident) (new l : list Instruction) :
  Forall (fun x => iid x < n) l -> n <= i -> insert_before i new l = l.
Proof.
  induction 1 as [|x l Hx _ IH]; intros Hi; cbn; [reflexivity|].
  destruct (Nat.eqb_spec (iid x) i); [lia|]. now rewrite IH.
Qed.

Lemma insertBefore_below (n i : ident) (new : list Instruction) (m : Mod) :
  below n m -> n <= i -> insertBefore i new m = m.
Proof.
  unfold insertBefore, map_insts, map_blocks.
  induction 1 as [|g m (_ & Hg) _ IH]; intros Hi; cbn; [reflexivity|].
  rewrite IH by exact Hi. f_equal.
  destruct g as [f nm bs]; cbn in *. f_equal.
  induction Hg as [|x bs (_ & Hx) _ IHb]; cbn; [reflexivity|].
  rewrite IHb. f_equal. destruct x as [b bn l]; cbn in *. f_equal.
  now apply (insert_before_below n).
Qed.

Ltac decide_addresses :=
  repeat match goal with
         | |- context [(?a =? ?b)] =>
             first [ rewrite (Nat.eqb_refl a)
                   | replace (a =? b) with false
                       by (symmetry; apply Nat.eqb_neq; lia) ]
         end.

(** In a module that already holds other functions, constructing a
    parallel-for and emitting the user's body at its [insertion] attribute
    leaves those functions as they are and appends one:
    [hlir.parallel_for.body], at the next free addresses, with the prologue,
    then the call [finish_func(args.ptr)], then the user's instructions,
    then the return.  The attributes [index], [args], [argsInsertion] and
    [insertion] name the instructions at offsets 5, 7, 8 and 11. *)
Theorem HLIRParallelFor_new_frame (m : Mod) (n : ident)
    (user : list Instruction) :
  below n m ->
  let argsType := StructTy "struct.func_args" [VoidPtrTy; I32Ty; VoidPtrTy] in
  runOn (pf <- HLIRParallelFor_new ;;
         emitBody (pf_insertion pf) user ;;;
         ret pf) m n
  = Some (mkPFor n (VInst (n + 5)) (n + 11) (VInst (n + 7)) (n + 8) None None,
          m ++ [mkFunc n "hlir.parallel_for.body"
                  [mkBlock (n + 1) "entry"
                     ([mkInst (n + 2) "args.ptr" OpBitCast [VArg n 0]
                              (PtrTy argsType);
                       mkInst (n + 3) "" (OpStructGEP 0) [VInst (n + 2)]
                              (PtrTy VoidPtrTy);
                       mkInst (n + 4) "synch.ptr" OpLoad [VInst (n + 3)]
                              VoidPtrTy;
                       mkInst (n + 5) "index.ptr" (OpStructGEP 1)
                              [VInst (n + 2)] (PtrTy I32Ty);
                       mkInst (n + 6) "funcArgs.ptr" (OpStructGEP 2)
                              [VInst (n + 2)] (PtrTy VoidPtrTy);
                       mkInst (n + 7) "" OpLoad [VInst (n + 6)] VoidPtrTy;
                       mkInst (n + 8) "" OpNoOp [] VoidTy;
                       mkInst (n + 9) "" OpBitCast [VInst (n + 4)] VoidPtrTy;
                       mkInst (n + 10) "" OpCall
                              [VArg n 0; VDecl "__ares_finish_func"] VoidTy]
                        ++ user
                        ++ [mkInst (n + 11) "" OpRet [] VoidTy])]]).
Proof.
  intros Hm argsType.
  replace (n + 1) with (S n) by lia.
  replace (n + 2) with (S (S n)) by lia.
  replace (n + 3) with (3 + n) by lia.
  replace (n + 4) with (4 + n) by lia.
  replace (n + 5) with (5 + n) by lia.
  replace (n + 6) with (6 + n) by lia.
  replace (n + 7) with (7 + n) by lia.
  replace (n + 8) with (8 + n) by lia.
  replace (n + 9) with (9 + n) by lia.
  replace (n + 10) with (10 + n) by lia.
  replace (n + 11) with (11 + n) by lia.
  cbn [Nat.add].
  unfold runOn, HLIRParallelFor_new.
  unfold bind at 1. unfold bind at 1.
  change (Function_Create "hlir.parallel_for.body" (mkState m n None))
    with (Some (n, mkState (m ++ [mkFunc n "hlir.parallel_for.body" []])
                           (S n) None)).
  cbv beta iota zeta.
  unfold bind at 1. rewrite BasicBlock_Create_new by exact Hm.
  unfold bind at 1, SetInsertPoint at 1. cbn [module_ nextAddr point].
  change (mkState (m ++ [mkFunc n "hlir.parallel_for.body"
                           [mkBlock (S n) "entry" []]])
                  (S (S n)) (Some (AtEnd (S n))))
    with (filling m n "hlir.parallel_for.body" (S n) "entry" [] (S (S n))).
  unfold bind at 1, CreateBitCast at 1.
  rewrite (Create_filling m n) by (assumption || lia).
  cbn [app].
  unfold bind at 1, CreateStructGEP at 1. unfold bind at 1, getModule at 1.
  rewrite (typeOf_filling m n) by (assumption || lia).
  cbn [find iid]. decide_addresses. cbn [ity field_type nth].
  rewrite (Create_filling m n) by (assumption || lia).
  cbn [app].
  unfold bind at 1, CreateLoad at 1. unfold bind at 1, getModule at 1.
  rewrite (typeOf_filling m n) by (assumption || lia).
  cbn [find iid]. decide_addresses. cbn [ity pointee].
  rewrite (Create_filling m n) by (assumption || lia).
  cbn [app].
  unfold bind at 1, CreateStructGEP at 1. unfold bind at 1, getModule at 1.
  rewrite (typeOf_filling m n) by (assumption || lia).
  cbn [find iid]. decide_addresses. cbn [ity field_type nth].
  rewrite (Create_filling m n) by (assumption || lia).
  cbn [app].
  unfold bind at 1, CreateStructGEP at 1. unfold bind at 1, getModule at 1.
  rewrite (typeOf_filling m n) by (assumption || lia).
  cbn [find iid]. decide_addresses. cbn [ity field_type nth].
  rewrite (Create_filling m n) by (assumption || lia).
  cbn [app].
  unfold bind at 1, CreateLoad at 1. unfold bind at 1, getModule at 1.
  rewrite (typeOf_filling m n) by (assumption || lia).
  cbn [find iid]. decide_addresses. cbn [ity pointee].
  rewrite (Create_filling m n) by (assumption || lia).
  cbn [app].
  unfold bind at 1.
  rewrite (createNoOp_filling m n) by (assumption || lia).
  cbn [app].
  unfold bind at 1, CreateBitCast at 1.
  rewrite (Create_filling m n) by (assumption || lia).
  cbn [app].
  unfold bind at 1, CreateCall at 1.
  rewrite (Create_filling m n) by (assumption || lia).
  cbn [app].
  unfold bind at 1.
  rewrite (ReturnInst_Create_filling m n) by (assumption || lia).
  cbn [app].
  unfold ret at 1. cbn [pf_insertion].
  unfold bind, emitBody, modify, ret, filling. cbn [module_ nextAddr point].
  unfold insertBefore at 1. unfold map_insts, map_blocks. rewrite map_app.
  change (map _ m) with (insertBefore (11 + n) user m).
  rewrite (insertBefore_below n) by (assumption || lia).
  cbn [map fid fname blocks bid bname insts insert_before iid Nat.add].
  decide_addresses. reflexivity.
Qed.

Lemma HLIRParallelFor_new_frame_witness :
  let m := [mkFunc 0 "f" [mkBlock 1 "entry" [mkInst 2 "" OpRet [] VoidTy]]] in
  let user := [mkInst 40 "" OpStore [VConstInt 32 1; VOther 0] VoidTy] in
  let argsType := StructTy "struct.func_args" [VoidPtrTy; I32Ty; VoidPtrTy] in
  below 3 m /\
  runOn (pf <- HLIRParallelFor_new ;;
         emitBody (pf_insertion pf) user ;;;
         ret pf) m 3
  = Some (mkPFor 3 (VInst (3 + 5)) (3 + 11) (VInst (3 + 7)) (3 + 8) None None,
          m ++ [mkFunc 3 "hlir.parallel_for.body"
                  [mkBlock (3 + 1) "entry"
                     ([mkInst (3 + 2) "args.ptr" OpBitCast [VArg 3 0]
                              (PtrTy argsType);
                       mkInst (3 + 3) "" (OpStructGEP 0) [VInst (3 + 2)]
                              (PtrTy VoidPtrTy);
                       mkInst (3 + 4) "synch.ptr" OpLoad [VInst (3 + 3)]
                              VoidPtrTy;
                       mkInst (3 + 5) "index.ptr" (OpStructGEP 1)
                              [VInst (3 + 2)] (PtrTy I32Ty);
                       mkInst (3 + 6) "funcArgs.ptr" (OpStructGEP 2)
                              [VInst (3 + 2)] (PtrTy VoidPtrTy);
                       mkInst (3 + 7) "" OpLoad [VInst (3 + 6)] VoidPtrTy;
                       mkInst (3 + 8) "" OpNoOp [] VoidTy;
                       mkInst (3 + 9) "" OpBitCast [VInst (3 + 4)] VoidPtrTy;
                       mkInst (3 + 10) "" OpCall
                              [VArg 3 0; VDecl "__ares_finish_func"] VoidTy]
                        ++ user
                        ++ [mkInst (3 + 11) "" OpRet [] VoidTy])]]).
Proof.
  intros m user argsType.
  assert (Hm : below 3 m).
  { unfold below, m. repeat constructor; cbn; lia. }
  split; [exact Hm|].
  exact (HLIRParallelFor_new_frame m 3 user Hm).
Defined.

End ConstructorFrame.
